(** * sasmodels: the polydispersity integrator [kernel_iq.c] and the
      multilayer-vesicle model kernel

    A shallow embedding of [src/sasmodels/kernel_iq.c] and
    [src/sasmodels/models/multilayer_vesicle.c].

    The C code computes on [double] and [int32_t].  Integers are modelled
    as [Z] (C's truncating [/] and [%] are [Z.quot] and [Z.rem]).  Doubles
    are modelled through the interface [Arith], with two instances:
    IEEE-754 binary64 ([float_arith], Rocq's primitive floats, which is the
    arithmetic the compiled code runs on) and the real numbers
    ([real_arith]), used where a property is an identity of exact
    arithmetic. *)

From Stdlib Require Import ZArith List Bool Lia Floats Reals Lra Psatz RNsatz.
Import ListNotations.

Local Open Scope Z_scope.

(** ** Arithmetic on [double] *)

Class Arith (F : Type) : Type := {
  f0 : F;                      (* the literal 0.0 *)
  f1 : F;                      (* the literal 1.0 *)
  fadd : F -> F -> F;
  fsub : F -> F -> F;
  fmul : F -> F -> F;
  fdiv : F -> F -> F;
  fneg : F -> F;
  fsqrt : F -> F;
  fltb : F -> F -> bool;       (* x < y *)
  fleb : F -> F -> bool;       (* x <= y *)
  of_int : Z -> F;             (* the cast (double)i *)
  to_int : F -> Z;             (* the cast (int)x, truncating toward zero *)
  lit_0p5 : F;                 (* the literal 0.5 *)
  lit_1em4 : F;                (* the literal 1.0e-4 *)
  lit_1em8 : F;                (* the literal 1.e-8 *)
  lit_1em16 : F;               (* the literal 1.e-16 *)
  M_PI_180 : F;                (* pi/180 *)
  M_4PI_3 : F                  (* 4*pi/3 *)
}.

(** C's [x > y] on doubles. *)
Definition fgtb {F} `{Arith F} (x y : F) : bool := fltb y x.

(** Truncation of a binary64 value toward zero ([(int)x]). *)
Definition float_to_int (x : float) : Z :=
  match Prim2SF x with
  | S754_finite s m e =>
      let v := if (0 <=? e)%Z then Z.shiftl (Zpos m) e
               else Z.shiftr (Zpos m) (- e) in
      if s then - v else v
  | _ => 0
  end.

(** Conversion of an [int] to binary64 (exact on [int32_t]). *)
Definition float_of_int (i : Z) : float :=
  if (i <? 0)%Z then PrimFloat.opp (PrimFloat.of_uint63 (Uint63.of_Z (- i)))
  else PrimFloat.of_uint63 (Uint63.of_Z i).

#[export] Instance float_arith : Arith float := {|
  f0 := 0%float;
  f1 := 1%float;
  fadd := PrimFloat.add;
  fsub := PrimFloat.sub;
  fmul := PrimFloat.mul;
  fdiv := PrimFloat.div;
  fneg := PrimFloat.opp;
  fsqrt := PrimFloat.sqrt;
  fltb := PrimFloat.ltb;
  fleb := PrimFloat.leb;
  of_int := float_of_int;
  to_int := float_to_int;
  lit_0p5 := 0.5%float;
  lit_1em4 := 0x1.a36e2eb1c432dp-14%float;
  lit_1em8 := 0x1.5798ee2308c3ap-27%float;
  lit_1em16 := 0x1.cd2b297d889bcp-54%float;
  M_PI_180 := 0x1.1df46a2529d39p-6%float;
  M_4PI_3 := 0x1.0c152382d7366p+2%float
|}.

(** Truncation of a real toward zero. *)
Definition real_to_int (x : R) : Z :=
  if Rlt_dec x 0 then - Int_part (- x) else Int_part x.

#[export] Instance real_arith : Arith R := {|
  f0 := 0%R;
  f1 := 1%R;
  fadd := Rplus;
  fsub := Rminus;
  fmul := Rmult;
  fdiv := Rdiv;
  fneg := Ropp;
  fsqrt := sqrt;
  fltb := fun x y => if Rlt_dec x y then true else false;
  fleb := fun x y => if Rle_dec x y then true else false;
  of_int := IZR;
  to_int := real_to_int;
  lit_0p5 := (1 / 2)%R;
  lit_1em4 := (1 / 10000)%R;
  lit_1em8 := (1 / 100000000)%R;
  lit_1em16 := (1 / 10000000000000000)%R;
  M_PI_180 := (PI / 180)%R;
  M_4PI_3 := (4 * PI / 3)%R
|}.

(** ** Arrays *)

(** [global const double *] memory is read by index. *)
Definition memory (F : Type) : Type := Z -> F.

(** [l[i] = v] on a fixed-size array; a store outside the array (undefined
    behaviour in C) leaves it unchanged. *)
Fixpoint upd {A : Type} (l : list A) (i : nat) (v : A) : list A :=
  match l, i with
  | [], _ => []
  | _ :: t, O => v :: t
  | h :: t, S j => h :: upd t j v
  end.

(** A store through an [int] index. *)
Definition updZ {A : Type} (l : list A) (i : Z) (v : A) : list A :=
  if i <? 0 then l else upd l (Z.to_nat i) v.

(** The integers [lo, lo+1, ..., hi-1]. *)
Definition range (lo hi : Z) : list Z :=
  map (fun i => lo + Z.of_nat i) (seq 0 (Z.to_nat (hi - lo))).

(** [a[d]] for the [int32_t] arrays of the problem descriptor. *)
Definition ix (a : list Z) (d : nat) : Z := nth d a 0.

(** ** The problem descriptor ([ProblemDetails]) *)

Record ProblemDetails : Type := {
  pd_par : list Z;       (* id of the nth polydispersity variable *)
  pd_length : list Z;    (* length of the nth polydispersity weight vector *)
  pd_offset : list Z;    (* offset of pd weights in the value & weight vector *)
  pd_stride : list Z;    (* stride to move to the next index at this level *)
  num_eval : Z;          (* total number of voxels in hypercube *)
  num_weights : Z;       (* total length of the weights vector *)
  num_active : Z;        (* number of non-trivial pd loops *)
  theta_par : Z          (* id of first orientation variable *)
}.

(** The parameter block [local_values.vector]. *)
Definition block (F : Type) : Type := list F.

(** The model kernel behind the macros [CALL_IQ], [CALL_IQ_A],
    [CALL_IQ_AC], [CALL_IQ_ABC], [CALL_VOLUME] and the optional [INVALID],
    with the fields [theta], [phi], [psi] of [ParameterTable] (the jitter
    angles), which [PARAMETER_TABLE] lays out per model.  The macros are
    generated per model and are not part of the sources. *)
Record ModelKernel (F : Type) : Type := {
  CALL_IQ : F -> block F -> F;
  CALL_IQ_A : F -> block F -> F;
  CALL_IQ_AC : F -> F -> block F -> F;
  CALL_IQ_ABC : F -> F -> F -> block F -> F;
  CALL_VOLUME : block F -> F;
  INVALID : option (block F -> bool);
  table_theta : block F -> F;
  table_phi : block F -> F;
  table_psi : block F -> F
}.
Arguments CALL_IQ {F} _.
Arguments CALL_IQ_A {F} _.
Arguments CALL_IQ_AC {F} _.
Arguments CALL_IQ_ABC {F} _.
Arguments CALL_VOLUME {F} _.
Arguments INVALID {F} _.
Arguments table_theta {F} _.
Arguments table_phi {F} _.
Arguments table_psi {F} _.

(** The variables of the polydispersity loop nest: the loop indices
    [i0 .. i4], [step], [local_values] and what the loop body accumulates
    (in [KERNEL_NAME]: [pd_norm] and [result]). *)
Record loop_state (F A : Type) : Type := {
  idx : list Z;
  step : Z;
  local_values : block F;
  acc : A
}.
Arguments idx {F A} _.
Arguments step {F A} _.
Arguments local_values {F A} _.
Arguments acc {F A} _.

Declare Scope arith_scope.
Delimit Scope arith_scope with ar.
Notation "x + y" := (fadd x y) : arith_scope.
Notation "x - y" := (fsub x y) : arith_scope.
Notation "x * y" := (fmul x y) : arith_scope.
Notation "x / y" := (fdiv x y) : arith_scope.
Notation "- x" := (fneg x) : arith_scope.

(** ** The polydispersity loop nest of [KERNEL_NAME] *)

Section PolydispersityLoops.
Context {F : Type} `{Arith F}.

(** Compile-time shape of the model. *)
Variable NUM_PARS : nat.
Variable NUM_VALUES : Z.
Variable MAX_PD : nat.

Variable details : ProblemDetails.
Variable values : memory F.
Variables pd_start pd_stop : Z.

(** [pd_value = values + NUM_VALUES] and
    [pd_weight = pd_value + details->num_weights]. *)
Definition pd_value : memory F := fun i => values (NUM_VALUES + i).
Definition pd_weight : memory F := fun i => pd_value (num_weights details + i).

(** [v_d[i]], [w_d[i]], [n_d] and [p_d] of loop level [d]. *)
Definition level_value (d : nat) (i : Z) : F :=
  pd_value (ix (pd_offset details) d + i).
Definition level_weight (d : nat) (i : Z) : F :=
  pd_weight (ix (pd_offset details) d + i).
Definition level_length (d : nat) : Z := ix (pd_length details) d.
Definition level_par (d : nat) : Z := ix (pd_par details) d.

(** [i_d = (pd_start / details->pd_stride[d]) % n_d]. *)
Definition start_index (d : nat) : Z :=
  Z.rem (Z.quot pd_start (ix (pd_stride details) d)) (level_length d).

(** [local_values.vector[i] = values[2+i]] for [i < NUM_PARS]. *)
Definition load_params : block F :=
  map (fun i => values (2 + Z.of_nat i)) (seq 0 NUM_PARS).

Section Nest.
Context {A : Type}.

(** The innermost statement block: it sees the loop variables and the
    cumulative weight [weight0], may rewrite the parameter block, and
    updates the accumulators. *)
Variable body : F -> loop_state F A -> block F * A.

(** The body followed by [++step]. *)
Definition innermost (weight0 : F) (st : loop_state F A) : loop_state F A :=
  let '(lv, a) := body weight0 st in
  {| idx := idx st; step := step st + 1; local_values := lv; acc := a |}.

(** One loop of the nest:
    [while (i_d < n_d) { local_values.vector[p_d] = v_d[i_d];
       weight_d = w_d[i_d] * weight_{d+1};  <inner>
       if (step >= pd_stop) break;  ++i_d; }].
    [fuel] bounds the number of iterations; [n_d - i_d] is enough, since
    every iteration that does not leave the loop increments [i_d]. *)
Fixpoint while_level (d : nat) (inner : F -> loop_state F A -> loop_state F A)
    (weight_up : F) (fuel : nat) (st : loop_state F A) : loop_state F A :=
  match fuel with
  | O => st
  | S fuel' =>
      let i := ix (idx st) d in
      if i <? level_length d then
        let st1 := {| idx := idx st; step := step st;
                      local_values := updZ (local_values st) (level_par d)
                                           (level_value d i);
                      acc := acc st |} in
        let weight := (level_weight d i * weight_up)%ar in
        let st2 := inner weight st1 in
        if step st2 >=? pd_stop then st2
        else while_level d inner weight_up fuel'
               {| idx := upd (idx st2) d (ix (idx st2) d + 1);
                  step := step st2;
                  local_values := local_values st2;
                  acc := acc st2 |}
      else st
  end.

(** The loop of level [d] and the [i_d = 0] that follows it. *)
Definition level (d : nat) (inner : F -> loop_state F A -> loop_state F A)
    (weight_up : F) (st : loop_state F A) : loop_state F A :=
  let st' := while_level d inner weight_up
               (Z.to_nat (level_length d - ix (idx st) d)) st in
  {| idx := upd (idx st') d 0; step := step st';
     local_values := local_values st'; acc := acc st' |}.

(** The ladder of [#if MAX_PD>k] loops: [pd_loops k] is the nest of the
    loops over the dimensions [k-1 .. 0] around the body. *)
Fixpoint pd_loops (k : nat) : F -> loop_state F A -> loop_state F A :=
  match k with
  | O => innermost
  | S d => level d (pd_loops d)
  end.

(** The loop variables on entry, and the whole nest (the weight above the
    outermost loop is [1.0]). *)
Definition initial_state (a : A) : loop_state F A :=
  {| idx := map start_index (seq 0 MAX_PD); step := pd_start;
     local_values := load_params; acc := a |}.

Definition run_loops (a : A) : loop_state F A :=
  pd_loops MAX_PD f1 (initial_state a).

End Nest.

(** *** The body of the nest and the kernel *)

(** The model, and the evaluation of the scattering at one q index; the
    latter hands back the parameter block, which the magnetic variant
    rewrites. *)
Variable model : ModelKernel F.
Variable scattering : nat -> block F -> F * block F.

Variable nq : nat.
Variable cutoff : F.

Definition is_invalid (lv : block F) : bool :=
  match INVALID model with
  | Some invalid => invalid lv
  | None => false
  end.

(** [for (q_index=0; q_index<nq; q_index++)
       result[q_index] += weight0 * scattering;] *)
Definition q_step (weight0 : F) (s : block F * list F) (q_index : nat)
    : block F * list F :=
  let '(sc, lv) := scattering q_index (fst s) in
  (lv, upd (snd s) q_index (nth q_index (snd s) f0 + weight0 * sc)%ar).

Definition q_loop (weight0 : F) (lv : block F) (result : list F)
    : block F * list F :=
  fold_left (q_step weight0) (seq 0 nq) (lv, result).

(** The statements between the loop headers and [++step], on the
    accumulators [(pd_norm, result)]. *)
Definition kernel_body (weight0 : F) (st : loop_state F (F * list F))
    : block F * (F * list F) :=
  let lv := local_values st in
  if is_invalid lv then (lv, acc st)
  else if fgtb weight0 cutoff then
    let pd_norm := (fst (acc st) + weight0 * CALL_VOLUME model lv)%ar in
    let '(lv', result) := q_loop weight0 lv (snd (acc st)) in
    (lv', (pd_norm, result))
  else (lv, acc st).

(** [for (q_index=0; q_index<nq; q_index++) result[q_index] = 0.0;] *)
Definition zero_result (result : list F) : list F :=
  fold_left (fun r q_index => upd r q_index f0) (seq 0 nq) result.

(** [KERNEL_NAME]: the new contents of the [nq+1] entries of [result]. *)
Definition kernel (result : list F) : list F :=
  let pd_norm := if pd_start =? 0 then f0 else nth nq result f0 in
  let result0 := if pd_start =? 0 then zero_result result else result in
  let st := run_loops kernel_body (pd_norm, result0) in
  upd (snd (acc st)) nq (fst (acc st)).

End PolydispersityLoops.

(** ** Orientation and magnetism *)

(** Which of [CALL_IQ], [CALL_IQ_A], [CALL_IQ_AC], [CALL_IQ_ABC] the model
    defines. *)
Inductive dispatch : Type :=
  | D_IQ       (* 1d *)
  | D_IQ_A     (* unoriented *)
  | D_IQ_AC    (* oriented symmetric *)
  | D_IQ_ABC.  (* oriented asymmetric *)

Section Dressings.
Context {F : Type} `{Arith F}.

(** [SINCOS(angle, s, c)] sets [s = sin(angle)] and [c = cos(angle)]; the
    macro and the math library are not part of the sources, so the pair is
    a parameter. *)
Variable SINCOS : F -> F * F.

Variable model : ModelKernel F.

(** Return value restricted between low and high. *)
Definition clip (value low high : F) : F :=
  if fltb value low then low else if fgtb value high then high else value.

(** Compute spin cross sections given in_spin and out_spin:
    [dd; du; ud; uu]. *)
Definition set_spins (in_spin out_spin : F) : list F :=
  let in_spin := clip in_spin f0 f1 in
  let out_spin := clip out_spin f0 f1 in
  [ fsqrt (fsqrt ((f1 - in_spin) * (f1 - out_spin)));
    fsqrt (fsqrt ((f1 - in_spin) * out_spin));
    fsqrt (fsqrt (in_spin * (f1 - out_spin)));
    fsqrt (fsqrt (in_spin * out_spin)) ]%ar.

Definition mag_sld (qx qy p mx my sld : F) : F :=
  let perp := (qy * mx - qx * my)%ar in
  (sld + perp * p)%ar.

(** [view_direct], oriented symmetric. *)
Definition view_direct_ac (qx qy theta phi : F) (table : block F) : F :=
  (* reverse view *)
  let '(sin_theta, cos_theta) := SINCOS (theta * M_PI_180)%ar in
  let '(sin_phi, cos_phi) := SINCOS (phi * M_PI_180)%ar in
  let qa := (qx * cos_phi * cos_theta + qy * sin_phi * cos_theta)%ar in
  let qb := (- qx * sin_phi + qy * cos_phi)%ar in
  let qc := (qx * sin_theta * cos_phi + qy * sin_phi * sin_theta)%ar in
  (* reverse jitter after view *)
  let '(sin_theta, cos_theta) := SINCOS (table_theta model table * M_PI_180)%ar in
  let '(sin_phi, cos_phi) := SINCOS (table_phi model table * M_PI_180)%ar in
  let dqc := (qa * sin_theta - qb * sin_phi * cos_theta
              + qc * cos_phi * cos_theta)%ar in
  (* Indirect calculation of qab, from qab^2 = |q|^2 - qc^2 *)
  let dqa := fsqrt (- dqc * dqc + qx * qx + qy * qy)%ar in
  CALL_IQ_AC model dqa dqc table.

(** The value [dqc] of [view_direct_ac] and the argument of its [sqrt],
    named so that statements can speak about them. *)
Definition view_dqc (qx qy theta phi : F) (table : block F) : F :=
  let '(sin_theta, cos_theta) := SINCOS (theta * M_PI_180)%ar in
  let '(sin_phi, cos_phi) := SINCOS (phi * M_PI_180)%ar in
  let qa := (qx * cos_phi * cos_theta + qy * sin_phi * cos_theta)%ar in
  let qb := (- qx * sin_phi + qy * cos_phi)%ar in
  let qc := (qx * sin_theta * cos_phi + qy * sin_phi * sin_theta)%ar in
  let '(sin_theta, cos_theta) := SINCOS (table_theta model table * M_PI_180)%ar in
  let '(sin_phi, cos_phi) := SINCOS (table_phi model table * M_PI_180)%ar in
  (qa * sin_theta - qb * sin_phi * cos_theta + qc * cos_phi * cos_theta)%ar.

Definition view_radicand (qx qy theta phi : F) (table : block F) : F :=
  let dqc := view_dqc qx qy theta phi table in
  (- dqc * dqc + qx * qx + qy * qy)%ar.

(** [view_direct], oriented asymmetric. *)
Definition view_direct_abc (qx qy theta phi psi : F) (table : block F) : F :=
  let '(sin_theta, cos_theta) := SINCOS (theta * M_PI_180)%ar in
  let '(sin_phi, cos_phi) := SINCOS (phi * M_PI_180)%ar in
  let '(sin_psi, cos_psi) := SINCOS (psi * M_PI_180)%ar in
  let qa := (qx * (sin_phi * sin_psi + cos_phi * cos_psi * cos_theta)
             + qy * (sin_phi * cos_psi * cos_theta - sin_psi * cos_phi))%ar in
  let qb := (qx * (- sin_phi * cos_psi + sin_psi * cos_phi * cos_theta)
             + qy * (sin_phi * sin_psi * cos_theta + cos_phi * cos_psi))%ar in
  let qc := (qx * sin_theta * cos_phi + qy * sin_phi * sin_theta)%ar in
  let '(sin_theta, cos_theta) := SINCOS (table_theta model table * M_PI_180)%ar in
  let '(sin_phi, cos_phi) := SINCOS (table_phi model table * M_PI_180)%ar in
  let '(sin_psi, cos_psi) := SINCOS (table_psi model table * M_PI_180)%ar in
  let dqa := (qa * cos_psi * cos_theta
              + qb * (sin_phi * sin_theta * cos_psi - sin_psi * cos_phi)
              + qc * (- sin_phi * sin_psi - sin_theta * cos_phi * cos_psi))%ar in
  let dqb := (qa * sin_psi * cos_theta
              + qb * (sin_phi * sin_psi * sin_theta + cos_phi * cos_psi)
              + qc * (sin_phi * cos_psi - sin_psi * sin_theta * cos_phi))%ar in
  let dqc := (qa * sin_theta - qb * sin_phi * cos_theta
              + qc * cos_phi * cos_theta)%ar in
  CALL_IQ_ABC model dqa dqb dqc table.

(** *** The per-q evaluation, one variant per preprocessor configuration *)

Variable NUM_PARS : nat.
Variable details : ProblemDetails.
Variable values : memory F.
Variable q : memory F.
Variable dsp : dispatch.

(** The mean orientation, read once from [values]. *)
Definition mean_theta : F := values (theta_par details + 2).
Definition mean_phi : F := values (theta_par details + 3).
Definition mean_psi : F := values (theta_par details + 4).

(** The form factor at [(qx, qy)] in the 2d and magnetic kernels. *)
Definition call_2d (qx qy qsq : F) (table : block F) : F :=
  match dsp with
  | D_IQ => f0
  | D_IQ_A => CALL_IQ_A model (fsqrt qsq) table
  | D_IQ_AC => view_direct_ac qx qy mean_theta mean_phi table
  | D_IQ_ABC => view_direct_abc qx qy mean_theta mean_phi mean_psi table
  end.

(** Not [MAGNETIC]: the parameter block is only read. *)
Definition scattering_plain (q_index : nat) (lv : block F) : F * block F :=
  match dsp with
  | D_IQ => (CALL_IQ model (q (Z.of_nat q_index)) lv, lv)
  | _ =>
      let qx := q (2 * Z.of_nat q_index) in
      let qy := q (2 * Z.of_nat q_index + 1) in
      (call_2d qx qy (qx * qx + qy * qy)%ar lv, lv)
  end.

(** [MAGNETIC] with [NUM_MAGNETIC > 0].  [slds] lists [MAGNETIC_PAR1 ..]
    (the table [slds[]] when there are more than three). *)
Variable NUM_MAGNETIC : nat.
Variable slds : list Z.

Definition M1 : Z := Z.of_nat NUM_PARS + 5.
Definition M2 : Z := Z.of_nat NUM_PARS + 8.
Definition M3 : Z := Z.of_nat NUM_PARS + 13.

(** The pairs [(_M_offset, _sld_offset)] of the [SLD(...)] statements that
    the [#if NUM_MAGNETIC==...] ladder expands to, in order. *)
Definition magnetic_slots : list (Z * Z) :=
  match NUM_MAGNETIC with
  | 1%nat => [(M1, ix slds 0)]
  | 2%nat => [(M1, ix slds 0); (M2, ix slds 1)]
  | 3%nat => [(M1, ix slds 0); (M2, ix slds 1); (M3, ix slds 2)]
  | n => map (fun sk => (M1 + 3 * Z.of_nat sk, ix slds sk)) (seq 0 n)
  end.

(** [spins] and the sine and cosine of the polarisation angle, computed
    once per call. *)
Definition spins : list F :=
  set_spins (values (Z.of_nat NUM_PARS + 2)) (values (Z.of_nat NUM_PARS + 3)).
Definition sincos_mspin : F * F :=
  SINCOS (- values (Z.of_nat NUM_PARS + 4)%Z * M_PI_180)%ar.

(** One expansion of the macro [SLD(_M_offset, _sld_offset)]. *)
Definition sld_rewrite (qx qy xs pk : F) (index axis : nat)
    (lv : block F) (slot : Z * Z) : block F :=
  let '(M_offset, sld_offset) := slot in
  let spin_flip := (index =? 1)%nat || (index =? 2)%nat in
  updZ lv sld_offset
    (xs * (if (axis =? 0)%nat
           then mag_sld qx qy pk (values M_offset) (values (M_offset + 1)%Z)
                  (if spin_flip then f0 else values (sld_offset + 2)%Z)
           else if (index =? 1)%nat then (- values (M_offset + 2)%Z)
                else values (M_offset + 2)%Z))%ar.

(** The body of [for (axis=0; axis<=spin_flip; axis++)]. *)
Definition axis_step (qx qy qsq xs pk : F) (index : nat)
    (s : F * block F) (axis : nat) : F * block F :=
  let lv := fold_left (sld_rewrite qx qy xs pk index axis) magnetic_slots
                      (snd s) in
  match dsp with
  | D_IQ => (fst s, lv)
  | _ => ((fst s + call_2d qx qy qsq lv)%ar, lv)
  end.

(** The statements under [if (xs > 1.e-8)]: the spin cross-section
    [index] is evaluated. *)
Definition spin_section (qx qy qsq : F) (p : list F)
    (s : F * block F) (index : nat) : F * block F :=
  let xs := nth index spins f0 in
  let spin_flip := (index =? 1)%nat || (index =? 2)%nat in
  let pk := nth index p f0 in
  fold_left (axis_step qx qy qsq xs pk index)
            (seq 0 (if spin_flip then 2 else 1)) s.

(** The body of [for (index=0; index<4; index++)]. *)
Definition spin_step (qx qy qsq : F) (p : list F)
    (s : F * block F) (index : nat) : F * block F :=
  let xs := nth index spins f0 in
  if fgtb xs lit_1em8 then spin_section qx qy qsq p s index else s.

(** The array [p] of [dd, du, ud, uu]. *)
Definition polarization (qx qy qsq : F) : list F :=
  let '(sin_mspin, cos_mspin) := sincos_mspin in
  let p0 := ((qy * cos_mspin + qx * sin_mspin) / qsq)%ar in
  let p3 := (- p0)%ar in
  let p12 := ((qy * sin_mspin - qx * cos_mspin) / qsq)%ar in
  [p0; p12; p12; p3].

Definition scattering_magnetic (q_index : nat) (lv : block F) : F * block F :=
  let qx := q (2 * Z.of_nat q_index) in
  let qy := q (2 * Z.of_nat q_index + 1) in
  let qsq := (qx * qx + qy * qy)%ar in
  if fgtb qsq lit_1em16 then
    fold_left (spin_step qx qy qsq (polarization qx qy qsq)) (seq 0 4)
              (f0, lv)
  else (f0, lv).

(** The spin cross-sections whose weight passes the test
    [spins[index] > 1.e-8]. *)
Definition evaluated_spins : list nat :=
  filter (fun index => fgtb (nth index spins f0) lit_1em8) (seq 0 4).

(** The slots of the parameter block that the [SLD(...)] statements
    rewrite. *)
Definition magnetic_slot (j : nat) : Prop :=
  In (Z.of_nat j) (map snd magnetic_slots).

(** The evaluation selected by [#if defined(MAGNETIC) && NUM_MAGNETIC > 0]. *)
Definition scattering_of (magnetic : bool) : nat -> block F -> F * block F :=
  if magnetic && (0 <? NUM_MAGNETIC)%nat then scattering_magnetic
  else scattering_plain.

End Dressings.

(** ** The multilayer vesicle model *)

Module Vesicle.
Section Model.
Context {F : Type} `{Arith F}.

(** [sph_j1c] comes from the model library, which is not part of the
    sources. *)
Variable sph_j1c : F -> F.

(** The body of the [do ... while] loop, two layers at a time, on
    [(ii, fval, voli)]. *)
Definition pair_step (q radius thick_shell thick_solvent sldi : F)
    (s : Z * F * F) : Z * F * F :=
  let '(ii, fval, voli) := s in
  let ri := (radius + of_int ii * (thick_shell + thick_solvent))%ar in
  (* layer 1 *)
  let voli := (M_4PI_3 * ri * ri * ri)%ar in
  let fval := (fval + voli * sldi * sph_j1c (ri * q))%ar in
  let ri := (ri + thick_shell)%ar in
  (* layer 2 *)
  let voli := (M_4PI_3 * ri * ri * ri)%ar in
  let fval := (fval - voli * sldi * sph_j1c (ri * q))%ar in
  (ii + 1, fval, voli).

(** [do { ... } while (ii <= n_pairs-1)]; [fuel] bounds the number of
    repetitions after the first pass. *)
Fixpoint pair_loop (q radius thick_shell thick_solvent sldi : F)
    (n_pairs : Z) (fuel : nat) (s : Z * F * F) : Z * F * F :=
  let s' := pair_step q radius thick_shell thick_solvent sldi s in
  match fuel with
  | O => s'
  | S fuel' =>
      if fst (fst s') <=? n_pairs - 1
      then pair_loop q radius thick_shell thick_solvent sldi n_pairs fuel' s'
      else s'
  end.

(** The state of the loop on exit. *)
Definition layers (q radius thick_shell thick_solvent sld_solvent sld : F)
    (n_pairs : Z) : Z * F * F :=
  let sldi := (sld_solvent - sld)%ar in
  pair_loop q radius thick_shell thick_solvent sldi n_pairs
            (Z.to_nat (n_pairs - 1)) (0, f0, f0).

Definition multilayer_vesicle_kernel
    (q volfraction radius thick_shell thick_solvent sld_solvent sld : F)
    (n_pairs : Z) : F :=
  let '(_, fval, voli) :=
    layers q radius thick_shell thick_solvent sld_solvent sld n_pairs in
  (fval * (volfraction * lit_1em4 * fval / voli))%ar.

Definition Iq
    (q volfraction radius thick_shell thick_solvent sld_solvent sld
       fp_n_pairs : F) : F :=
  let n_pairs := to_int (fp_n_pairs + lit_0p5)%ar in
  multilayer_vesicle_kernel q volfraction radius thick_shell thick_solvent
                            sld_solvent sld n_pairs.

(** The volume of the sphere of radius [r], the inner radius of the shell
    pair [i], what the pair [i] adds to [fval], and the sum over the first
    [n] pairs, as the loop forms them. *)
Definition layer_volume (r : F) : F := (M_4PI_3 * r * r * r)%ar.

Definition inner_radius (radius thick_shell thick_solvent : F) (i : Z) : F :=
  (radius + of_int i * (thick_shell + thick_solvent))%ar.

Definition add_pair (q radius thick_shell thick_solvent sldi : F)
    (fval : F) (i : Z) : F :=
  let ri := inner_radius radius thick_shell thick_solvent i in
  let ro := (ri + thick_shell)%ar in
  (fval + layer_volume ri * sldi * sph_j1c (ri * q)
   - layer_volume ro * sldi * sph_j1c (ro * q))%ar.

Definition shell_sum (q radius thick_shell thick_solvent sldi : F) (n : Z) : F :=
  fold_left (add_pair q radius thick_shell thick_solvent sldi) (range 0 n) f0.

End Model.
End Vesicle.

(** ** The entry point *)

Section Entry.
Context {F : Type} `{Arith F}.

Variable SINCOS : F -> F * F.
Variable model : ModelKernel F.
Variable NUM_PARS : nat.
Variable NUM_VALUES : Z.
Variable MAX_PD : nat.
Variable NUM_MAGNETIC : nat.
Variable slds : list Z.
Variable dsp : dispatch.
Variable magnetic : bool.

(** [KERNEL_NAME(nq, pd_start, pd_stop, details, values, q, result, cutoff)]
    for the configuration given by the section variables. *)
Definition KERNEL_NAME (nq : nat) (pd_start pd_stop : Z)
    (details : ProblemDetails) (values q : memory F) (result : list F)
    (cutoff : F) : list F :=
  kernel NUM_PARS NUM_VALUES MAX_PD details values pd_start pd_stop model
    (scattering_of SINCOS model NUM_PARS details values q dsp
                   NUM_MAGNETIC slds magnetic)
    nq cutoff result.

End Entry.

(** ** Sines and cosines

    In exact arithmetic [SINCOS] is the pair of the real sine and cosine.
    For binary64, [libm_sincos] tabulates the correctly rounded sine and
    cosine at the three arguments that the example below uses: [0],
    [45 * M_PI_180] and [90 * M_PI_180]. *)

Definition real_sincos (x : R) : R * R := (sin x, cos x).

Definition libm_sincos (x : float) : float * float :=
  if PrimFloat.eqb x 0x1.921fb54442d18p-1
  then (0x1.6a09e667f3bccp-1, 0x1.6a09e667f3bcdp-1)%float
  else if PrimFloat.eqb x 0x1.921fb54442d18p+0
  then (1, 0x1.1a62633145c07p-54)%float
  else (0, 1)%float.

(** ** Scenario E2: one polydisperse parameter *)

(** Memory holding the given doubles from index 0 on. *)
Definition pool {F : Type} `{Arith F} (l : list F) : memory F :=
  fun i => if i <? 0 then f0 else nth (Z.to_nat i) l f0.

(** [Iq(q,p) = p], [form_volume(p) = 1], no [INVALID]. *)
Definition e2_model : ModelKernel float :=
  {| CALL_IQ := fun _ table => nth 0 table 0%float;
     CALL_IQ_A := fun _ _ => 0%float;
     CALL_IQ_AC := fun _ _ _ => 0%float;
     CALL_IQ_ABC := fun _ _ _ _ => 0%float;
     CALL_VOLUME := fun _ => 1%float;
     INVALID := None;
     table_theta := fun _ => 0%float;
     table_phi := fun _ => 0%float;
     table_psi := fun _ => 0%float |}.

(** One dimension of length 3 driving parameter 0. *)
Definition e2_details : ProblemDetails :=
  {| pd_par := [0]; pd_length := [3]; pd_offset := [0]; pd_stride := [1];
     num_eval := 3; num_weights := 3; num_active := 1; theta_par := -1 |}.

(** [scale; background; p] followed by the values and the weights. *)
Definition e2_values (scale background p : float) : memory float :=
  pool [scale; background; p; 1; 2; 3; 0.25; 0.5; 0.25]%float.

Definition e2_kernel (nq : nat) (pd_start pd_stop : Z)
    (scale background p : float) (q : memory float) (result : list float)
    (cutoff : float) : list float :=
  KERNEL_NAME (fun _ => (0, 1)%float) e2_model 1 3 1 0 [] D_IQ false
    nq pd_start pd_stop e2_details (e2_values scale background p) q result
    cutoff.

(** ** Scenario E2 with scaled weights

    The grid values [0.3, 0.6, 0.9] (the nearest doubles) and the weights
    of E2 multiplied by [c]; [3 * 0.25] and [3 * 0.5] are exact. *)

Definition scaled_values (c : float) : memory float :=
  pool [1; 0; 2;
        0x1.3333333333333p-2; 0x1.3333333333333p-1; 0x1.ccccccccccccdp-1;
        c * 0.25; c * 0.5; c * 0.25]%float.

Definition scaled_kernel (c : float) : list float :=
  KERNEL_NAME (fun _ => (0, 1)%float) e2_model 1 3 1 0 [] D_IQ false
    1 0 3 e2_details (scaled_values c) (pool [1%float]) [0; 0]%float
    0.125%float.

(** The same scenario in exact arithmetic, for the weights [w]. *)
Definition exact_model : ModelKernel R :=
  {| CALL_IQ := fun _ table => nth 0 table 0%R;
     CALL_IQ_A := fun _ _ => 0%R;
     CALL_IQ_AC := fun _ _ _ => 0%R;
     CALL_IQ_ABC := fun _ _ _ _ => 0%R;
     CALL_VOLUME := fun _ => 1%R;
     INVALID := None;
     table_theta := fun _ => 0%R;
     table_phi := fun _ => 0%R;
     table_psi := fun _ => 0%R |}.

Definition exact_values (w0 w1 w2 : R) : memory R :=
  pool [1; 0; 2; 1; 2; 3; w0; w1; w2]%R.

Definition exact_scattering : nat -> block R -> R * block R :=
  scattering_plain real_sincos exact_model e2_details (exact_values 1 2 1)
                   (pool [1%R]) D_IQ.

Definition exact_kernel (w0 w1 w2 : R) : list R :=
  kernel 1 3 1 e2_details (exact_values w0 w1 w2) 0 3 exact_model
         exact_scattering 1 0%R [0; 0]%R.

(** ** A two-dimensional example

    Two polydisperse parameters with grids of lengths 2 and 3; the model
    multiplies them, takes the second as volume and rejects a first
    parameter above 15. *)

Definition demo_details : ProblemDetails :=
  {| pd_par := [0; 1]; pd_length := [2; 3]; pd_offset := [0; 2];
     pd_stride := [1; 2]; num_eval := 6; num_weights := 5; num_active := 2;
     theta_par := -1 |}.

Definition demo_values : memory float :=
  pool [1; 0; 5; 7; 10; 20; 1; 2; 3; 0.5; 0.5; 0.25; 0.5; 0.25]%float.

Definition demo_model : ModelKernel float :=
  {| CALL_IQ := fun q table =>
       (q + nth 0 table 0%float * nth 1 table 0%float)%float;
     CALL_IQ_A := fun _ _ => 0%float;
     CALL_IQ_AC := fun _ _ _ => 0%float;
     CALL_IQ_ABC := fun _ _ _ _ => 0%float;
     CALL_VOLUME := fun table => nth 1 table 0%float;
     INVALID := Some (fun table => PrimFloat.ltb 15 (nth 0 table 0%float));
     table_theta := fun _ => 0%float;
     table_phi := fun _ => 0%float;
     table_psi := fun _ => 0%float |}.

Definition demo_q : memory float := pool [0.5; 1.5]%float.

Definition demo_scattering : nat -> block float -> float * block float :=
  scattering_plain (fun _ => (0, 1)%float) demo_model demo_details
                   demo_values demo_q D_IQ.

Definition demo_kernel (pd_start pd_stop : Z) (result : list float)
    : list float :=
  kernel 2 4 2 demo_details demo_values pd_start pd_stop demo_model
         demo_scattering 2 0.125%float result.

(** ** A probe of the oriented symmetric view *)

(** A model whose [Iqac] returns its first argument, with the jitter
    angles in slots 0 and 1 of the parameter block. *)
Definition first_argument_model : ModelKernel float :=
  {| CALL_IQ := fun _ _ => 0%float;
     CALL_IQ_A := fun _ _ => 0%float;
     CALL_IQ_AC := fun dqa _ _ => dqa;
     CALL_IQ_ABC := fun _ _ _ _ => 0%float;
     CALL_VOLUME := fun _ => 1%float;
     INVALID := None;
     table_theta := fun table => nth 0 table 0%float;
     table_phi := fun table => nth 1 table 0%float;
     table_psi := fun table => nth 2 table 0%float |}.

(** ** A magnetic example

    Two parameters: a magnetic scattering length density in slot 0 and a
    polydisperse radius in slot 1, with grid [10, 20] and weights
    [0.5, 0.5].  The unoriented form factor returns [q + sld * radius] and
    the volume is the radius.  The q vector holds the points [(0, 0)] and
    [(0.5, 0.25)]; half of the neutrons are polarised up before and after
    the sample, and the magnetisation is [(1, 2, 3)]. *)

Definition mag_model : ModelKernel float :=
  {| CALL_IQ := fun _ _ => 0%float;
     CALL_IQ_A := fun q table =>
       (q + nth 0 table 0%float * nth 1 table 0%float)%float;
     CALL_IQ_AC := fun _ _ _ => 0%float;
     CALL_IQ_ABC := fun _ _ _ _ => 0%float;
     CALL_VOLUME := fun table => nth 1 table 0%float;
     INVALID := None;
     table_theta := fun _ => 0%float;
     table_phi := fun _ => 0%float;
     table_psi := fun _ => 0%float |}.

Definition mag_details : ProblemDetails :=
  {| pd_par := [1]; pd_length := [2]; pd_offset := [0]; pd_stride := [1];
     num_eval := 2; num_weights := 2; num_active := 1; theta_par := -1 |}.

Definition mag_values : memory float :=
  pool [1; 0; 4; 10; 0.5; 0.5; 0; 1; 2; 3; 10; 20; 0.5; 0.5]%float.

Definition mag_q : memory float := pool [0; 0; 0.5; 0.25]%float.

Definition mag_scattering : nat -> block float -> float * block float :=
  scattering_magnetic libm_sincos mag_model 2 mag_details mag_values mag_q
                      D_IQ_A 1 [0].

Definition mag_kernel (pd_start pd_stop : Z) (result : list float)
    : list float :=
  KERNEL_NAME libm_sincos mag_model 2 10 1 1 [0] D_IQ_A true
    2 pd_start pd_stop mag_details mag_values mag_q result 0.125%float.

(** ** Cube points

    The notions in which the enumeration of the hypercube is stated: the
    mixed-radix digits of a linear index, the parameter block and the
    cumulative weight at a cube point, and the well-formedness of a problem
    descriptor. *)

Section CubePoints.
Context {F : Type} `{Arith F}.
Variable NUM_PARS : nat.
Variable NUM_VALUES : Z.
Variable MAX_PD : nat.
Variable details : ProblemDetails.
Variable values : memory F.

(** The number of points of the sub-cube of the dimensions below [k]. *)
Fixpoint cube (k : nat) : Z :=
  match k with
  | O => 1
  | S d => cube d * level_length details d
  end.

(** The index [i_d] of the cube point with linear index [u]. *)
Definition digit (d : nat) (u : Z) : Z :=
  (u / cube d) mod level_length details d.

Definition point_index (u : Z) : list Z :=
  map (fun d => digit d u) (seq 0 MAX_PD).

(** The linear index of an index tuple: the sum of [i_d * pd_stride[d]]. *)
Definition linear_index (i : list Z) : Z :=
  fold_right Z.add 0
    (map (fun d => ix i d * ix (pd_stride details) d) (seq 0 MAX_PD)).

(** The stores [local_values.vector[p_d] = v_d[i_d]] of the dimensions
    [ds], in that order, at the cube point [u]. *)
Definition write_levels (ds : list nat) (u : Z) (lv : block F) : block F :=
  fold_left
    (fun b d => updZ b (level_par details d)
                     (level_value NUM_VALUES details values d (digit d u)))
    ds lv.

(** The parameter block at the cube point [u]: the initial parameters with
    the stores of the dimensions [MAX_PD-1 .. 0]. *)
Definition block_at (u : Z) : block F :=
  write_levels (rev (seq 0 MAX_PD)) u (load_params NUM_PARS values).

(** The cumulative weight of the dimensions below [k] at [u], under the
    weight [w] of the dimensions above:
    [w_0[i_0] * (... * (w_{k-1}[i_{k-1}] * w))]. *)
Fixpoint point_weight (k : nat) (u : Z) (w : F) : F :=
  match k with
  | O => w
  | S d =>
      point_weight d u
        (level_weight NUM_VALUES details values d (digit d u) * w)%ar
  end.

(** The loop variables at the visit of the cube point [u]. *)
Definition point_state {A : Type} (u : Z) (a : A) : loop_state F A :=
  {| idx := point_index u; step := u; local_values := block_at u; acc := a |}.

(** The end of the block of [cube k] consecutive linear indices that
    holds [t]. *)
Definition block_end (k : nat) (t : Z) : Z := (t / cube k + 1) * cube k.

(** The loop indices once the loops below level [k] have finished, in the
    block of [t]: [i_d = 0] below [k]. *)
Definition idx_after (k : nat) (t : Z) : list Z :=
  map (fun d => if (d <? k)%nat then 0 else digit d t) (seq 0 MAX_PD).

(** The accumulators after the body has run at the cube point [u], under
    the weight [w] of the dimensions from [k] on. *)
Definition visit_acc {A : Type} (body : F -> loop_state F A -> block F * A)
    (k : nat) (w : F) (a : A) (u : Z) : A :=
  snd (body (point_weight k u w) (point_state u a)).

(** A body that only records the loop variables, the parameter block and
    the cumulative weight it is run with; the nest run with it lists the
    cube points that [KERNEL_NAME] visits, in the order of the visits. *)
Definition record_point (weight0 : F)
    (st : loop_state F (list (Z * list Z * block F * F)))
    : block F * list (Z * list Z * block F * F) :=
  (local_values st,
   acc st ++ [(step st, idx st, local_values st, weight0)]).

Definition visited_points (pd_start pd_stop : Z)
    : list (Z * list Z * block F * F) :=
  acc (run_loops NUM_PARS NUM_VALUES MAX_PD details values pd_start pd_stop
         record_point []).

(** The cube point [u] as it is visited. *)
Definition cube_point (u : Z) : Z * list Z * block F * F :=
  (u, point_index u, block_at u, point_weight MAX_PD u f1).

(** A problem descriptor is well formed when every dimension has a
    positive length, the strides are the mixed-radix strides of the
    lengths, and [num_eval] is the number of cube points. *)
Record well_formed : Prop := {
  wf_length : forall d, (d < MAX_PD)%nat -> 1 <= level_length details d;
  wf_stride0 : (0 < MAX_PD)%nat -> ix (pd_stride details) 0 = 1;
  wf_stride : forall d, (S d < MAX_PD)%nat ->
      ix (pd_stride details) (S d)
      = ix (pd_stride details) d * level_length details d;
  wf_num_eval : num_eval details = cube MAX_PD
}.

(** The polydisperse parameters are distinct slots of the parameter
    block. *)
Record distinct_slots : Prop := {
  ds_range : forall d, (d < MAX_PD)%nat ->
      0 <= level_par details d < Z.of_nat NUM_PARS;
  ds_inj : forall d e, (d < MAX_PD)%nat -> (e < MAX_PD)%nat ->
      level_par details d = level_par details e -> d = e
}.

End CubePoints.

(** ** The integrator in the words of the specification *)

Section Integrator.
Context {F : Type} `{Arith F}.
Variable NUM_PARS : nat.
Variable NUM_VALUES : Z.
Variable MAX_PD : nat.
Variable details : ProblemDetails.
Variable values : memory F.
Variable model : ModelKernel F.
Variable scattering : nat -> block F -> F * block F.
Variable nq : nat.
Variable cutoff : F.

(** [result[k] += w * s_k] for every q index [k]. *)
Definition accumulate (w : F) (lv : block F) (result : list F) : list F :=
  map (fun kx => if (fst kx <? nq)%nat
                 then (snd kx + w * fst (scattering (fst kx) lv))%ar
                 else snd kx)
      (combine (seq 0 (length result)) result).

(** The skip policy at a cube point with parameter block [lv] and
    cumulative weight [w], on [(pd_norm, result)]: the point contributes if
    and only if it is valid and [w > cutoff]. *)
Definition skip_policy (lv : block F) (w : F) (a : F * list F) : F * list F :=
  if negb (is_invalid model lv) && fgtb w cutoff
  then ((fst a + w * CALL_VOLUME model lv)%ar, accumulate w lv (snd a))
  else a.

(** The product of the weights of all the dimensions at the cube point
    [u]. *)
Definition product_weight (u : Z) : F :=
  fold_right fmul f1
    (map (fun d => level_weight NUM_VALUES details values d
                     (digit details d u))
         (seq 0 MAX_PD)).

(** The sum over the cube points [lo .. hi-1], in increasing order, on
    [(pd_norm, result)]. *)
Definition integrate (lo hi : Z) (a : F * list F) : F * list F :=
  fold_left
    (fun a u =>
       skip_policy (block_at NUM_PARS NUM_VALUES MAX_PD details values u)
                   (product_weight u) a)
    (range lo hi) a.

(** [pd_norm] and [result] before the loops: zero when [pd_start = 0], and
    otherwise what the previous call left in the result buffer. *)
Definition seed (pd_start : Z) (result : list F) : F * list F :=
  (if pd_start =? 0 then f0 else nth nq result f0,
   if pd_start =? 0 then zero_result nq result else result).

(** [result[nq] = pd_norm] on exit. *)
Definition store_norm (a : F * list F) : list F := upd (snd a) nq (fst a).

(** The caller's loop over the slices [(lo, s_1), (s_1, s_2), ...], on the
    same result buffer. *)
Fixpoint run_slices (lo : Z) (stops : list Z) (result : list F) : list F :=
  match stops with
  | [] => result
  | hi :: rest =>
      run_slices hi rest
        (kernel NUM_PARS NUM_VALUES MAX_PD details values lo hi model
                scattering nq cutoff result)
  end.

(** [lo < s_1 < ... < s_m = hi]. *)
Fixpoint is_partition (lo : Z) (stops : list Z) (hi : Z) : Prop :=
  match stops with
  | [] => lo = hi
  | s :: rest => lo < s /\ is_partition s rest hi
  end.

(** The evaluation at a q index only reads the parameter block (every
    variant but the magnetic one). *)
Definition reads_only : Prop :=
  forall (q_index : nat) (lv : block F), snd (scattering q_index lv) = lv.

(** Two parameter blocks that agree outside the slots in [scratch]. *)
Definition agree_outside (scratch : nat -> Prop) (lv lv' : block F) : Prop :=
  length lv = length lv'
  /\ forall j, ~ scratch j -> nth j lv f0 = nth j lv' f0.

(** The evaluation at a q index rewrites only the slots in [scratch], and
    neither its value nor [CALL_VOLUME] nor [INVALID] depends on what these
    slots hold on entry.  The magnetic variant is of this kind, with the
    magnetic scattering length densities as scratch slots. *)
Record scratch_only (scratch : nat -> Prop) : Prop := {
  so_writes : forall q_index lv,
      agree_outside scratch (snd (scattering q_index lv)) lv;
  so_reads : forall q_index lv lv',
      agree_outside scratch lv lv' ->
      fst (scattering q_index lv) = fst (scattering q_index lv');
  so_volume : forall lv lv',
      agree_outside scratch lv lv' ->
      CALL_VOLUME model lv = CALL_VOLUME model lv';
  so_invalid : forall lv lv',
      agree_outside scratch lv lv' ->
      is_invalid model lv = is_invalid model lv'
}.

End Integrator.

(** ** A probe of the oriented asymmetric view *)

(** A model whose [Iqabc] returns the squared length of its q vector. *)
Definition squared_length_model : ModelKernel R :=
  {| CALL_IQ := fun _ _ => 0%R;
     CALL_IQ_A := fun _ _ => 0%R;
     CALL_IQ_AC := fun _ _ _ => 0%R;
     CALL_IQ_ABC := fun a b c _ => (a * a + b * b + c * c)%R;
     CALL_VOLUME := fun _ => 1%R;
     INVALID := None;
     table_theta := fun table => nth 0 table 0%R;
     table_phi := fun table => nth 1 table 0%R;
     table_psi := fun table => nth 2 table 0%R |}.

(** ** Doubles that are a zero or NaN *)

Definition zero_or_nan (x : float) : Prop :=
  match Prim2SF x with
  | S754_zero _ | S754_nan => True
  | _ => False
  end.

(** ** Doubles that are not negative *)

(** A binary64 value that is a zero, a positive finite number or
    [+infinity]; in particular not NaN. *)
Definition nonneg_sf (x : spec_float) : Prop :=
  match x with
  | S754_zero _ | S754_infinity false | S754_finite false _ _ => True
  | _ => False
  end.

(** ** Binary64 values of the unit interval *)

(** A binary64 value, as the specification of the primitive floats
    represents it, that is a zero or a positive finite number
    [m * 2^e <= 1]. *)
Definition unit_sf (x : spec_float) : Prop :=
  match x with
  | S754_zero _ => True
  | S754_finite false m e => e <= 0 /\ Z.pos m <= 2 ^ (- e)
  | _ => False
  end.

(** A mantissa with its round and sticky bits, at exponent [e], of a value
    of the unit interval: [m * 2^e <= 1], strictly when bits were shifted
    out. *)
Definition unit_shr (mrs : shr_record) (e : Z) : Prop :=
  0 <= shr_m mrs <= 2 ^ (- e)
  /\ (orb (shr_r mrs) (shr_s mrs) = true -> shr_m mrs < 2 ^ (- e)).

(** A double in [0, 1]; in particular not NaN. *)
Definition in_unit_interval (x : float) : Prop :=
  PrimFloat.leb 0 x = true /\ PrimFloat.leb x 1 = true
  /\ PrimFloat.is_nan x = false.

(** * Properties *)

(** ** Stores into arrays *)

Lemma upd_length {A : Type} (l : list A) (i : nat) (v : A) :
  length (upd l i v) = length l.
Proof.
  revert i; induction l as [|h t IH]; intros [|j]; simpl; auto.
Qed.

Lemma nth_upd {A : Type} (l : list A) (i j : nat) (v dflt : A) :
  nth j (upd l i v) dflt
  = if ((j =? i) && (i <? length l))%nat then v else nth j l dflt.
Proof.
  revert i j; induction l as [|h t IH]; intros i j.
  - simpl. rewrite andb_false_r. destruct i; reflexivity.
  - destruct i as [|i], j as [|j]; simpl; auto.
Qed.

Lemma nth_upd_same {A : Type} (l : list A) (i : nat) (v dflt : A) :
  (i < length l)%nat -> nth i (upd l i v) dflt = v.
Proof.
  intros Hi. rewrite nth_upd, Nat.eqb_refl.
  apply Nat.ltb_lt in Hi. now rewrite Hi.
Qed.

Lemma nth_upd_other {A : Type} (l : list A) (i j : nat) (v dflt : A) :
  j <> i -> nth j (upd l i v) dflt = nth j l dflt.
Proof.
  intros Hne. rewrite nth_upd.
  apply Nat.eqb_neq in Hne. now rewrite Hne.
Qed.

Lemma upd_upd_same {A : Type} (l : list A) (i : nat) (a b : A) :
  upd (upd l i a) i b = upd l i b.
Proof.
  revert i; induction l as [|h t IH]; intros [|j]; simpl; auto.
  now rewrite IH.
Qed.

Lemma upd_comm {A : Type} (l : list A) (i j : nat) (a b : A) :
  i <> j -> upd (upd l i a) j b = upd (upd l j b) i a.
Proof.
  revert i j; induction l as [|h t IH]; intros [|i] [|j] Hne; simpl; auto.
  - congruence.
  - rewrite IH; auto.
Qed.

Lemma updZ_length {A : Type} (l : list A) (i : Z) (v : A) :
  length (updZ l i v) = length l.
Proof.
  unfold updZ. destruct (i <? 0); auto using upd_length.
Qed.

Lemma nth_updZ {A : Type} (l : list A) (i : Z) (j : nat) (v dflt : A) :
  nth j (updZ l i v) dflt
  = if (i =? Z.of_nat j) && (j <? length l)%nat then v else nth j l dflt.
Proof.
  unfold updZ. destruct (Z.ltb_spec i 0) as [Hneg|Hpos].
  - replace (i =? Z.of_nat j) with false; [reflexivity|].
    symmetry. apply Z.eqb_neq. lia.
  - rewrite nth_upd.
    destruct (Z.eqb_spec i (Z.of_nat j)) as [->|Hne].
    + rewrite Nat2Z.id, Nat.eqb_refl. reflexivity.
    + replace (j =? Z.to_nat i)%nat with false; [reflexivity|].
      symmetry. apply Nat.eqb_neq. lia.
Qed.

Lemma list_eq_nth {A : Type} (l l' : list A) (dflt : A) :
  length l = length l' ->
  (forall j, (j < length l)%nat -> nth j l dflt = nth j l' dflt) ->
  l = l'.
Proof.
  intros Hlen Hnth. apply (nth_ext l l' dflt dflt); auto.
Qed.

Lemma nth_map_in {A B : Type} (f : A -> B) (l : list A) (j : nat)
    (d : B) (d' : A) :
  (j < length l)%nat -> nth j (map f l) d = f (nth j l d').
Proof.
  revert j; induction l as [|a l IH]; intros [|j] Hj; simpl in *;
    try lia; auto.
  apply IH. lia.
Qed.

Lemma fold_left_ext_in {A B : Type} (f g : A -> B -> A) (l : list B) (a : A) :
  (forall x b, In b l -> f x b = g x b) ->
  fold_left f l a = fold_left g l a.
Proof.
  revert a; induction l as [|b l IH]; intros a Hfg; simpl; auto.
  rewrite Hfg by (left; reflexivity).
  apply IH. intros x b' Hin. apply Hfg. now right.
Qed.

(** ** Ranges of linear indices *)

Lemma range_nil (lo hi : Z) : hi <= lo -> range lo hi = [].
Proof.
  intros Hle. unfold range.
  replace (Z.to_nat (hi - lo)) with 0%nat by lia. reflexivity.
Qed.

Lemma range_one (lo : Z) : range lo (lo + 1) = [lo].
Proof.
  unfold range. replace (Z.to_nat (lo + 1 - lo)) with 1%nat by lia.
  simpl. f_equal. lia.
Qed.

Lemma range_app (lo mid hi : Z) :
  lo <= mid -> mid <= hi -> range lo hi = range lo mid ++ range mid hi.
Proof.
  intros H1 H2. unfold range.
  replace (Z.to_nat (hi - lo))
    with (Z.to_nat (mid - lo) + Z.to_nat (hi - mid))%nat by lia.
  rewrite seq_app, map_app. f_equal.
  rewrite Nat.add_0_l.
  generalize (Z.to_nat (hi - mid)) as n.
  assert (Hgen : forall n k,
            map (fun i => lo + Z.of_nat i) (seq (Z.to_nat (mid - lo) + k) n)
            = map (fun i => mid + Z.of_nat i) (seq k n)).
  { induction n as [|n IH]; intros k; simpl; auto.
    f_equal; [lia|]. rewrite <- IH. f_equal. f_equal. lia. }
  intros n. rewrite <- (Hgen n 0%nat). now rewrite Nat.add_0_r.
Qed.

Lemma in_range (lo hi u : Z) : In u (range lo hi) <-> lo <= u < hi.
Proof.
  unfold range. rewrite in_map_iff. split.
  - intros [i [<- Hin]]. apply in_seq in Hin. lia.
  - intros Hu. exists (Z.to_nat (u - lo)). split; [lia|].
    apply in_seq. lia.
Qed.

(** ** Mixed-radix arithmetic *)

Section Radix.
Variables c n : Z.
Hypothesis Hc : 0 < c.
Hypothesis Hn : 0 < n.

Lemma block_bounds (t : Z) : t / c * c <= t < (t / c + 1) * c.
Proof.
  pose proof (Z.div_mod t c ltac:(lia)) as E.
  pose proof (Z.mod_pos_bound t c Hc) as B. nia.
Qed.

Lemma block_div (t u : Z) :
  t / c * c <= u < (t / c + 1) * c -> u / c = t / c.
Proof.
  intros Hu. symmetry. apply (Z.div_unique u c (t / c) (u - t / c * c)); lia.
Qed.

Lemma block_div_inv (t u : Z) :
  u / c = t / c -> t / c * c <= u < (t / c + 1) * c.
Proof. intros <-. apply block_bounds. Qed.

Lemma div_coarser (t u : Z) : u / c = t / c -> u / (c * n) = t / (c * n).
Proof.
  intros E. rewrite <- !Z.div_div by lia. now rewrite E.
Qed.

Lemma next_block_digit (t : Z) :
  (t / c) mod n + 1 < n ->
  ((t / c + 1) * c) / c = t / c + 1
  /\ ((t / c + 1) * c / c) mod n = (t / c) mod n + 1
  /\ ((t / c + 1) * c) / (c * n) = t / (c * n).
Proof.
  intros Hd.
  assert (E1 : ((t / c + 1) * c) / c = t / c + 1) by (apply Z.div_mul; lia).
  pose proof (Z.div_mod (t / c) n ltac:(lia)) as E.
  pose proof (Z.mod_pos_bound (t / c) n Hn) as B.
  split; [exact E1|]. rewrite E1. split.
  - symmetry. apply (Z.mod_unique (t / c + 1) n (t / c / n)); lia.
  - rewrite <- !Z.div_div by lia. rewrite E1.
    symmetry. apply (Z.div_unique (t / c + 1) n (t / c / n) ((t / c) mod n + 1)); lia.
Qed.

Lemma last_block_end (t : Z) :
  (t / c) mod n + 1 = n -> (t / c + 1) * c = (t / (c * n) + 1) * (c * n).
Proof.
  intros Hd. rewrite <- Z.div_div by lia.
  pose proof (Z.div_mod (t / c) n ltac:(lia)) as E. nia.
Qed.

Lemma block_end_le (t : Z) : (t / c + 1) * c <= (t / (c * n) + 1) * (c * n).
Proof.
  rewrite <- Z.div_div by lia.
  pose proof (Z.div_mod (t / c) n ltac:(lia)) as E.
  pose proof (Z.mod_pos_bound (t / c) n Hn) as B. nia.
Qed.

Lemma block_end_bound (t m : Z) :
  0 <= t < c * m -> (t / c + 1) * c <= c * m.
Proof.
  intros Ht.
  assert (t / c < m) by (apply Z.div_lt_upper_bound; lia). nia.
Qed.

End Radix.

(** ** Cube points *)

Section CubeFacts.
Variable MAX_PD : nat.
Variable details : ProblemDetails.
Hypothesis Hlen : forall d, (d < MAX_PD)%nat -> 1 <= level_length details d.

Local Abbreviation cb := (cube details).
Local Abbreviation dg := (digit details).
Local Abbreviation bend := (block_end details).
Local Abbreviation len := (level_length details).

Lemma cube_pos (k : nat) : (k <= MAX_PD)%nat -> 0 < cb k.
Proof.
  induction k as [|k IH]; intros Hk; simpl; [lia|].
  specialize (IH ltac:(lia)). specialize (Hlen k ltac:(lia)). nia.
Qed.

Lemma cube_split (j k : nat) :
  (j <= k)%nat -> (k <= MAX_PD)%nat -> exists m, 0 < m /\ cb k = cb j * m.
Proof.
  intros Hjk Hk. induction Hjk as [|k Hjk IH].
  - exists 1. lia.
  - destruct (IH ltac:(lia)) as [m [Hm E]].
    exists (m * len k). simpl. rewrite E.
    specialize (Hlen k ltac:(lia)). split; [nia|ring].
Qed.

Lemma digit_bounds (d : nat) (u : Z) :
  (d < MAX_PD)%nat -> 0 <= dg d u < len d.
Proof.
  intros Hd. unfold digit. apply Z.mod_pos_bound.
  specialize (Hlen d Hd). lia.
Qed.

Lemma same_block_up (k e : nat) (t u : Z) :
  (k <= e)%nat -> (e <= MAX_PD)%nat ->
  u / cb k = t / cb k -> u / cb e = t / cb e.
Proof.
  intros Hke He E. induction Hke as [|e Hke IH]; [exact E|].
  simpl. apply div_coarser.
  - apply cube_pos. lia.
  - specialize (Hlen e ltac:(lia)). lia.
  - apply IH. lia.
Qed.

Lemma digit_same_block (k d : nat) (t u : Z) :
  (k <= d)%nat -> (d < MAX_PD)%nat ->
  u / cb k = t / cb k -> dg d u = dg d t.
Proof.
  intros Hkd Hd E. unfold digit.
  now rewrite (same_block_up k d t u) by (auto; lia).
Qed.

Lemma digit_block_start (d k : nat) (a : Z) :
  (d < k)%nat -> (k <= MAX_PD)%nat -> dg d (a * cb k) = 0.
Proof.
  intros Hdk Hk. unfold digit.
  destruct (cube_split (S d) k ltac:(lia) Hk) as [m [Hm E]].
  rewrite E. simpl.
  pose proof (cube_pos d ltac:(lia)) as Hc.
  replace (a * (cb d * len d * m)) with (a * m * len d * cb d) by ring.
  rewrite Z.div_mul by lia.
  apply Z.mod_mul. specialize (Hlen d ltac:(lia)). lia.
Qed.

Lemma block_end_gt (k : nat) (t : Z) :
  (k <= MAX_PD)%nat -> t < bend k t.
Proof.
  intros Hk. unfold block_end.
  apply (block_bounds (cb k) (cube_pos k Hk) t).
Qed.

Lemma block_end_S (k : nat) (t : Z) :
  (k < MAX_PD)%nat -> bend k t <= bend (S k) t.
Proof.
  intros Hk. unfold block_end. simpl.
  apply block_end_le; [apply cube_pos; lia|].
  specialize (Hlen k Hk). lia.
Qed.

Lemma block_end_cube (k : nat) (t : Z) :
  (k <= MAX_PD)%nat -> 0 <= t < cb MAX_PD -> bend k t <= cb MAX_PD.
Proof.
  intros Hk Ht. unfold block_end.
  destruct (cube_split k MAX_PD Hk (le_n _)) as [m [Hm E]].
  rewrite E in *. apply block_end_bound; auto. now apply cube_pos.
Qed.

Lemma in_block (k : nat) (t u : Z) :
  (k <= MAX_PD)%nat -> t <= u < bend k t -> u / cb k = t / cb k.
Proof.
  intros Hk Hu. apply block_div.
  pose proof (block_bounds (cb k) (cube_pos k Hk) t).
  unfold block_end in Hu. lia.
Qed.

Lemma block_end_same (k : nat) (t u : Z) :
  u / cb k = t / cb k -> bend k u = bend k t.
Proof. unfold block_end. now intros ->. Qed.

Lemma cube0_block_end (t : Z) : bend 0 t = t + 1.
Proof. unfold block_end. simpl. rewrite Z.div_1_r. lia. Qed.

(** The digits of the first index of the next block of level [k]. *)
Lemma next_block (k : nat) (t : Z) :
  (k < MAX_PD)%nat -> dg k t + 1 < len k ->
  bend k t / cb (S k) = t / cb (S k)
  /\ dg k (bend k t) = dg k t + 1
  /\ forall d, (d < k)%nat -> dg d (bend k t) = 0.
Proof.
  intros Hk Hd.
  pose proof (cube_pos k ltac:(lia)) as Hc.
  pose proof (Hlen k Hk) as Hn.
  destruct (next_block_digit (cb k) (len k) Hc ltac:(lia) t Hd)
    as [E1 [E2 E3]].
  unfold block_end, digit in *. simpl. repeat split; auto.
  intros d Hdk. apply (digit_block_start d k); lia.
Qed.

Lemma last_block (k : nat) (t : Z) :
  (k < MAX_PD)%nat -> dg k t + 1 = len k ->
  bend k t = bend (S k) t.
Proof.
  intros Hk Hd. unfold block_end, digit in *. simpl.
  apply last_block_end; auto.
  - apply cube_pos. lia.
  - specialize (Hlen k Hk). lia.
Qed.

End CubeFacts.

(** ** The parameter block at a cube point *)

Section BlockFacts.
Context {F : Type} `{Arith F}.
Variable NUM_PARS : nat.
Variable NUM_VALUES : Z.
Variable MAX_PD : nat.
Variable details : ProblemDetails.
Variable values : memory F.
Hypothesis Hlen : forall d, (d < MAX_PD)%nat -> 1 <= level_length details d.

Local Abbreviation cb := (cube details).
Local Abbreviation dg := (digit details).
Local Abbreviation par := (level_par details).
Local Abbreviation wl := (write_levels NUM_VALUES details values).
Local Abbreviation blk := (block_at NUM_PARS NUM_VALUES MAX_PD details values).

Lemma write_levels_app (a b : list nat) (u : Z) (X : block F) :
  wl (a ++ b) u X = wl b u (wl a u X).
Proof. unfold write_levels. apply fold_left_app. Qed.

Lemma write_levels_length (ds : list nat) (u : Z) (X : block F) :
  length (wl ds u X) = length X.
Proof.
  revert X; induction ds as [|d ds IH]; intros X; simpl; auto.
  unfold write_levels in *. simpl. rewrite IH. apply updZ_length.
Qed.

Lemma write_levels_untouched (ds : list nat) (u : Z) (X : block F) (j : nat) :
  (forall d, In d ds -> par d <> Z.of_nat j) ->
  nth j (wl ds u X) f0 = nth j X f0.
Proof.
  revert X; induction ds as [|d ds IH]; intros X Hds; [reflexivity|].
  unfold write_levels in *. simpl. rewrite IH.
  - rewrite nth_updZ.
    destruct (Z.eqb_spec (par d) (Z.of_nat j)) as [E|_]; [|reflexivity].
    exfalso. apply (Hds d); [now left|exact E].
  - intros e He. apply Hds. now right.
Qed.

Lemma write_levels_frame (ds : list nat) (u : Z) (X X' : block F) :
  length X = length X' ->
  (forall j, (forall d, In d ds -> par d <> Z.of_nat j) ->
             nth j X f0 = nth j X' f0) ->
  wl ds u X = wl ds u X'.
Proof.
  revert X X'; induction ds as [|d ds IH]; intros X X' Hlen' Hout.
  - simpl. apply (list_eq_nth X X' f0); [exact Hlen'|].
    intros j _. apply Hout. intros d [].
  - unfold write_levels in *. simpl. apply IH.
    + now rewrite !updZ_length.
    + intros j Hj. rewrite !nth_updZ, Hlen'.
      destruct ((par d =? Z.of_nat j) && (j <? length X')%nat) eqn:E;
        [reflexivity|].
      destruct (Z.eqb_spec (par d) (Z.of_nat j)) as [Ed|Ed].
      * simpl in E. apply Nat.ltb_ge in E.
        rewrite !nth_overflow by lia. reflexivity.
      * apply Hout. intros e [->|He]; auto.
Qed.

Lemma write_levels_overwrite (ds : list nat) (u v : Z) (X : block F) :
  wl ds u (wl ds v X) = wl ds u X.
Proof.
  apply write_levels_frame.
  - apply write_levels_length.
  - intros j Hj. now apply write_levels_untouched.
Qed.

Lemma write_levels_digits (ds : list nat) (u v : Z) (X : block F) :
  (forall d, In d ds -> dg d u = dg d v) -> wl ds u X = wl ds v X.
Proof.
  intros Hd. unfold write_levels. apply fold_left_ext_in.
  intros b d Hin. now rewrite Hd.
Qed.

Lemma rev_seq_split (k n : nat) :
  (k <= n)%nat -> rev (seq 0 n) = rev (seq k (n - k)) ++ rev (seq 0 k).
Proof.
  intros Hk. rewrite <- rev_app_distr. f_equal.
  replace n with (k + (n - k))%nat at 1 by lia.
  now rewrite seq_app.
Qed.

(** Storing the values of the dimensions below [k] at [u] into the block of
    a point of the same block of level [k] gives the block at [u]. *)
Lemma block_at_rewrite (k : nat) (u v : Z) :
  (k <= MAX_PD)%nat -> u / cb k = v / cb k ->
  wl (rev (seq 0 k)) u (blk v) = blk u.
Proof.
  intros Hk E. unfold block_at.
  rewrite (rev_seq_split k MAX_PD Hk), !write_levels_app.
  rewrite write_levels_overwrite. f_equal.
  apply write_levels_digits. intros d Hd.
  apply in_rev, in_seq in Hd.
  symmetry. apply (digit_same_block MAX_PD details Hlen k d v u); auto; lia.
Qed.

(** With distinct slots, the slot of every dimension holds its value. *)
Lemma write_levels_holds (ds : list nat) (u : Z) (X : block F) (d : nat) :
  In d ds ->
  (forall e e', In e ds -> In e' ds -> par e = par e' -> e = e') ->
  NoDup ds ->
  0 <= par d < Z.of_nat (length X) ->
  nth (Z.to_nat (par d)) (wl ds u X) f0
  = level_value NUM_VALUES details values d (dg d u).
Proof.
  revert X; induction ds as [|e ds IH]; intros X Hin Hinj Hnd Hr; [easy|].
  unfold write_levels in *. simpl.
  inversion Hnd as [|? ? Hnotin Hnd']; subst.
  destruct Hin as [->|Hin].
  - fold (wl ds u (updZ X (par d)
                     (level_value NUM_VALUES details values d (dg d u)))).
    rewrite write_levels_untouched.
    + rewrite nth_updZ. rewrite Z2Nat.id by lia. rewrite Z.eqb_refl.
      replace (Z.to_nat (par d) <? length X)%nat with true; [reflexivity|].
      symmetry. apply Nat.ltb_lt. lia.
    + intros e He Epar. rewrite Z2Nat.id in Epar by lia.
      assert (e = d) by (apply Hinj; [now right|now left|exact Epar]).
      subst. contradiction.
  - apply IH; auto.
    + intros a b Ha Hb. apply Hinj; now right.
    + now rewrite updZ_length.
Qed.

(** *** Loop indices *)

Lemma nth_map_seq (f : nat -> Z) (n j : nat) (dflt : Z) :
  (j < n)%nat -> nth j (map f (seq 0 n)) dflt = f j.
Proof.
  intros Hj.
  rewrite (nth_indep _ dflt (f 0%nat)) by (now rewrite length_map, length_seq).
  rewrite map_nth, seq_nth by lia. reflexivity.
Qed.

Lemma upd_map_seq (f : nat -> Z) (n k : nat) (v : Z) :
  upd (map f (seq 0 n)) k v
  = map (fun d => if (d =? k)%nat then v else f d) (seq 0 n).
Proof.
  apply (list_eq_nth _ _ 0).
  - now rewrite upd_length, !length_map.
  - intros j Hj. rewrite upd_length, length_map, length_seq in Hj.
    rewrite nth_upd, length_map, length_seq.
    rewrite !nth_map_seq by lia.
    destruct (Nat.eqb_spec j k) as [->|Hne]; simpl; auto.
    apply Nat.ltb_lt in Hj. now rewrite Hj.
Qed.

Lemma ix_map_seq (f : nat -> Z) (n d : nat) :
  (d < n)%nat -> ix (map f (seq 0 n)) d = f d.
Proof.
  intros Hd. unfold ix. now apply nth_map_seq.
Qed.

Lemma map_seq_ext (f g : nat -> Z) (n : nat) :
  (forall d, (d < n)%nat -> f d = g d) -> map f (seq 0 n) = map g (seq 0 n).
Proof.
  intros Hfg. apply map_ext_in. intros d Hd. apply in_seq in Hd.
  apply Hfg. lia.
Qed.

End BlockFacts.

(** ** The loop nest enumerates the cube points *)

Section LoopNest.
Context {F : Type} `{Arith F} {A : Type}.
Variable NUM_PARS : nat.
Variable NUM_VALUES : Z.
Variable MAX_PD : nat.
Variable details : ProblemDetails.
Variable values : memory F.
Variable pd_stop : Z.
Variable body : F -> loop_state F A -> block F * A.

Hypothesis Hlen : forall d, (d < MAX_PD)%nat -> 1 <= level_length details d.
(** The body does not rewrite the parameter block. *)
Hypothesis Hbody : forall w st, fst (body w st) = local_values st.

Local Abbreviation cb := (cube details).
Local Abbreviation dg := (digit details).
Local Abbreviation len := (level_length details).
Local Abbreviation bend := (block_end details).
Local Abbreviation wl := (write_levels NUM_VALUES details values).
Local Abbreviation blk := (block_at NUM_PARS NUM_VALUES MAX_PD details values).
Local Abbreviation pidx := (point_index MAX_PD details).
Local Abbreviation after := (idx_after MAX_PD details).
Local Abbreviation loops := (pd_loops NUM_VALUES details values pd_stop body).
Local Abbreviation while :=
  (while_level (A:=A) NUM_VALUES details values pd_stop).
Local Abbreviation visit :=
  (visit_acc NUM_PARS NUM_VALUES MAX_PD details values body).

Lemma while_level_done (d : nat) inner (w : F) (fuel : nat)
    (st : loop_state F A) :
  len d <= ix (idx st) d -> while d inner w fuel st = st.
Proof.
  intros Hge. destruct fuel as [|fuel]; [reflexivity|]. simpl.
  destruct (Z.ltb_spec (ix (idx st) d) (len d)); [lia|reflexivity].
Qed.

Lemma ix_point_index (d : nat) (t : Z) :
  (d < MAX_PD)%nat -> ix (pidx t) d = dg d t.
Proof. intros Hd. unfold point_index. now rewrite ix_map_seq. Qed.

Lemma ix_idx_after (k : nat) (t : Z) :
  (k < MAX_PD)%nat -> ix (after k t) k = dg k t.
Proof.
  intros Hk. unfold idx_after. rewrite ix_map_seq by auto.
  now rewrite Nat.ltb_irrefl.
Qed.

Lemma idx_after_0 (t : Z) : after 0 t = pidx t.
Proof. reflexivity. Qed.

Lemma idx_after_reset (k : nat) (t : Z) :
  upd (after k t) k 0 = after (S k) t.
Proof.
  unfold idx_after. rewrite upd_map_seq. apply map_seq_ext. intros d Hd.
  destruct (Nat.eqb_spec d k) as [->|Hne].
  - replace (k <? S k)%nat with true; [reflexivity|].
    symmetry. apply Nat.ltb_lt. lia.
  - destruct (Nat.ltb_spec d k), (Nat.ltb_spec d (S k)); auto; lia.
Qed.

Lemma idx_after_same (k : nat) (t u : Z) :
  (k <= MAX_PD)%nat -> u / cb k = t / cb k -> after k u = after k t.
Proof.
  intros Hk E. unfold idx_after. apply map_seq_ext. intros d Hd.
  destruct (Nat.ltb_spec d k); auto.
  apply (digit_same_block MAX_PD details Hlen k d t u); auto.
Qed.

Lemma idx_after_next (k : nat) (t : Z) :
  (k < MAX_PD)%nat -> dg k t + 1 < len k ->
  upd (after k t) k (dg k t + 1) = pidx (bend k t).
Proof.
  intros Hk Hd.
  destruct (next_block MAX_PD details Hlen k t Hk Hd) as [E1 [E2 E3]].
  unfold idx_after, point_index. rewrite upd_map_seq.
  apply map_seq_ext. intros d Hdn.
  destruct (Nat.eqb_spec d k) as [->|Hne]; [now rewrite E2|].
  destruct (Nat.ltb_spec d k) as [Hlt|Hge].
  - now rewrite E3.
  - symmetry.
    apply (digit_same_block MAX_PD details Hlen (S k) d t (bend k t));
      auto; lia.
Qed.

Section OneLevel.
Variable k : nat.
Hypothesis Hk : (k < MAX_PD)%nat.

(** The nest of the loops below level [k] visits the points from [step]
    to the end of the block of level [k], or to [pd_stop]. *)
Hypothesis IHk : forall (w : F) (st : loop_state F A),
  0 <= step st < cb MAX_PD ->
  idx st = pidx (step st) ->
  (forall u, u / cb k = step st / cb k ->
             wl (rev (seq 0 k)) u (local_values st) = blk u) ->
  loops k w st
  = {| idx := after k (step st);
       step := Z.max (step st + 1) (Z.min pd_stop (bend k (step st)));
       local_values :=
         blk (Z.max (step st + 1) (Z.min pd_stop (bend k (step st))) - 1);
       acc := fold_left (visit k w)
                (range (step st)
                   (Z.max (step st + 1) (Z.min pd_stop (bend k (step st)))))
                (acc st) |}.

Lemma while_level_spec (w : F) (fuel : nat) :
  forall st : loop_state F A,
  0 <= step st < cb MAX_PD ->
  idx st = pidx (step st) ->
  (forall u, u / cb (S k) = step st / cb (S k) ->
             wl (rev (seq 0 (S k))) u (local_values st) = blk u) ->
  (Z.to_nat (len k - dg k (step st)) <= fuel)%nat ->
  exists X,
    upd X k 0 = after (S k) (step st) /\
    while k (loops k) w fuel st
    = {| idx := X;
         step := Z.max (step st + 1) (Z.min pd_stop (bend (S k) (step st)));
         local_values :=
           blk (Z.max (step st + 1)
                  (Z.min pd_stop (bend (S k) (step st))) - 1);
         acc := fold_left (visit (S k) w)
                  (range (step st)
                     (Z.max (step st + 1)
                        (Z.min pd_stop (bend (S k) (step st)))))
                  (acc st) |}.
Proof.
  induction fuel as [|fuel IHf]; intros st Ht Hidx Hpre Hfuel.
  - pose proof (digit_bounds MAX_PD details Hlen k (step st) Hk). lia.
  - pose proof (digit_bounds MAX_PD details Hlen k (step st) Hk) as Hdig.
    pose proof (block_end_gt MAX_PD details Hlen k (step st) ltac:(lia))
      as Hgt.
    pose proof (block_end_S MAX_PD details Hlen k (step st) Hk) as HleS.
    pose proof (block_end_cube MAX_PD details Hlen (S k) (step st)
                  ltac:(lia) Ht) as Hcube.
    simpl while_level.
    rewrite Hidx, ix_point_index by exact Hk.
    destruct (Z.ltb_spec (dg k (step st)) (len k)) as [_|]; [|lia].
    set (w' := (level_weight NUM_VALUES details values k (dg k (step st))
                * w)%ar).
    set (st1 := {| idx := pidx (step st); step := step st;
                   local_values := updZ (local_values st)
                     (level_par details k)
                     (level_value NUM_VALUES details values k
                        (dg k (step st)));
                   acc := acc st |}).
    assert (Hst1 : loops k w' st1 = _) by
      (apply (IHk w' st1); subst st1; simpl; auto;
       intros u Hu;
       rewrite <- (Hpre u)
         by (apply (same_block_up MAX_PD details Hlen k (S k)); auto; lia);
       rewrite <- Nat.add_1_r, seq_app, rev_app_distr; simpl;
       unfold write_levels; simpl;
       now rewrite (digit_same_block MAX_PD details Hlen k k (step st) u)
         by (auto; lia)).
    change (pd_loops NUM_VALUES details values pd_stop body k) with (loops k).
    rewrite Hst1. subst st1. cbn [step idx local_values acc].
    set (h1 := Z.max (step st + 1) (Z.min pd_stop (bend k (step st)))).
    assert (Hfold :
      fold_left (visit k w') (range (step st) h1) (acc st)
      = fold_left (visit (S k) w) (range (step st) h1) (acc st)).
    { apply fold_left_ext_in. intros a u Hu. apply in_range in Hu.
      unfold visit_acc. simpl. subst w'.
      rewrite (digit_same_block MAX_PD details Hlen k k (step st) u);
        auto.
      apply in_block with (MAX_PD := MAX_PD); auto; lia. }
    rewrite Hfold.
    destruct (Z.geb_spec h1 pd_stop) as [Hbreak|Hcont].
    + (* break *)
      exists (after k (step st)). split; [apply idx_after_reset|].
      assert (Hhi : Z.max (step st + 1)
                      (Z.min pd_stop (bend (S k) (step st))) = h1)
        by (subst h1; lia).
      now rewrite Hhi.
    + (* ++i_k *)
      assert (Hh1 : h1 = bend k (step st)) by (subst h1; lia).
      rewrite ix_idx_after by exact Hk.
      destruct (Z.eq_dec (dg k (step st) + 1) (len k)) as [Hlast|Hmore].
      * (* the loop ends *)
        rewrite while_level_done
          by (simpl; unfold ix; rewrite nth_upd_same;
              [lia|unfold idx_after; rewrite length_map, length_seq; lia]).
        pose proof (last_block MAX_PD details Hlen k (step st) Hk Hlast)
          as Elast.
        exists (upd (after k (step st)) k (dg k (step st) + 1)). split.
        { rewrite upd_upd_same. apply idx_after_reset. }
        assert (Hhi : Z.max (step st + 1)
                        (Z.min pd_stop (bend (S k) (step st))) = h1)
          by (rewrite <- Elast; subst h1; lia).
        now rewrite Hhi.
      * (* the next iteration *)
        destruct (next_block MAX_PD details Hlen k (step st) Hk
                    ltac:(lia)) as [E1 [E2 E3]].
        rewrite idx_after_next by (auto; lia).
        set (st3 := {| idx := pidx (bend k (step st)); step := h1;
                       local_values := blk (h1 - 1);
                       acc := fold_left (visit (S k) w)
                                (range (step st) h1) (acc st) |}).
        destruct (IHf st3) as [X [HX Hw]].
        { subst st3; cbn [step idx local_values acc]. rewrite Hh1.
          pose proof (block_end_gt MAX_PD details Hlen (S k)
                        (bend k (step st)) ltac:(lia)) as Hlt.
          rewrite (block_end_same details (S k) (step st)
                     (bend k (step st)) E1) in Hlt. lia. }
        { subst st3; cbn [step idx local_values acc]. now rewrite Hh1. }
        { subst st3; cbn [step idx local_values acc]. intros u Hu.
          apply block_at_rewrite; auto.
          rewrite Hu, Hh1, E1. symmetry.
          apply (same_block_up MAX_PD details Hlen k (S k)); auto.
          apply in_block with (MAX_PD := MAX_PD); auto; lia. }
        { subst st3; cbn [step idx local_values acc]. rewrite Hh1, E2. lia. }
        exists X. split.
        { rewrite HX. subst st3; cbn [step idx local_values acc]. rewrite Hh1.
          apply idx_after_same; auto. }
        rewrite Hw. subst st3; cbn [step idx local_values acc].
        assert (Ebend : bend (S k) h1 = bend (S k) (step st))
          by (rewrite Hh1; now apply block_end_same).
        rewrite Ebend.
        assert (Hhi : Z.max (h1 + 1)
                        (Z.min pd_stop (bend (S k) (step st)))
                      = Z.max (step st + 1)
                          (Z.min pd_stop (bend (S k) (step st)))).
        { pose proof (block_end_gt MAX_PD details Hlen (S k) h1
                        ltac:(lia)). lia. }
        rewrite Hhi. rewrite <- fold_left_app.
        rewrite <- range_app by lia. reflexivity.
Qed.

End OneLevel.

(** The nest of the loops below level [k], entered at the cube point
    [step] with the indices of that point, runs the body at the points
    from [step] to the end of the block of level [k] or to [pd_stop],
    whichever comes first, and at [step] in any case. *)
Lemma pd_loops_spec (k : nat) :
  (k <= MAX_PD)%nat ->
  forall (w : F) (st : loop_state F A),
  0 <= step st < cb MAX_PD ->
  idx st = pidx (step st) ->
  (forall u, u / cb k = step st / cb k ->
             wl (rev (seq 0 k)) u (local_values st) = blk u) ->
  loops k w st
  = {| idx := after k (step st);
       step := Z.max (step st + 1) (Z.min pd_stop (bend k (step st)));
       local_values :=
         blk (Z.max (step st + 1) (Z.min pd_stop (bend k (step st))) - 1);
       acc := fold_left (visit k w)
                (range (step st)
                   (Z.max (step st + 1) (Z.min pd_stop (bend k (step st)))))
                (acc st) |}.
Proof.
  induction k as [|k IH]; intros Hk w st Ht Hidx Hpre.
  - rewrite cube0_block_end.
    replace (Z.max (step st + 1) (Z.min pd_stop (step st + 1)))
      with (step st + 1) by lia.
    rewrite range_one. replace (step st + 1 - 1) with (step st) by lia.
    assert (Hlv : local_values st = blk (step st))
      by (rewrite <- (Hpre (step st) eq_refl); reflexivity).
    assert (Hst : st = point_state NUM_PARS NUM_VALUES MAX_PD details values
                         (step st) (acc st))
      by (destruct st; unfold point_state; cbn in *; congruence).
    cbn [pd_loops fold_left]. unfold innermost, visit_acc.
    cbn [point_weight]. rewrite <- Hst.
    pose proof (Hbody w st) as Hb.
    destruct (body w st) as [lv a]. cbn [fst snd] in *.
    rewrite Hb, Hlv, idx_after_0, Hidx. reflexivity.
  - cbn [pd_loops]. unfold level.
    destruct (while_level_spec k ltac:(lia) (IH ltac:(lia)) w
                (Z.to_nat (len k - ix (idx st) k)) st Ht Hidx Hpre)
      as [X [HX Hw]].
    { rewrite Hidx, ix_point_index by lia. lia. }
    change (pd_loops NUM_VALUES details values pd_stop body k) with (loops k).
    rewrite Hw. cbn [step idx local_values acc]. now rewrite HX.
Qed.

End LoopNest.

(** *** Bodies that rewrite scratch slots *)

Section Simulation.
Context {F : Type} `{Arith F} {A : Type}.
Variable NUM_VALUES : Z.
Variable details : ProblemDetails.
Variable values : memory F.
Variable pd_stop : Z.

(** A relation on parameter blocks that the stores of the loops respect,
    and two bodies that agree on related blocks. *)
Variable E : block F -> block F -> Prop.
Hypothesis E_upd : forall a b p v, E a b -> E (updZ a p v) (updZ b p v).
Variables body body' : F -> loop_state F A -> block F * A.
Hypothesis Hbodies : forall w st st',
  idx st = idx st' -> step st = step st' -> acc st = acc st' ->
  E (local_values st) (local_values st') ->
  snd (body w st) = snd (body' w st')
  /\ E (fst (body w st)) (fst (body' w st')).

Local Abbreviation loops := (pd_loops NUM_VALUES details values pd_stop body).
Local Abbreviation loops' :=
  (pd_loops NUM_VALUES details values pd_stop body').
Local Abbreviation while :=
  (while_level (A:=A) NUM_VALUES details values pd_stop).

Lemma while_level_sim (d : nat) inner inner' (w : F) (fuel : nat) :
  (forall w st st',
     idx st = idx st' -> step st = step st' -> acc st = acc st' ->
     E (local_values st) (local_values st') ->
     idx (inner w st) = idx (inner' w st')
     /\ step (inner w st) = step (inner' w st')
     /\ acc (inner w st) = acc (inner' w st')
     /\ E (local_values (inner w st)) (local_values (inner' w st'))) ->
  forall st st',
  idx st = idx st' -> step st = step st' -> acc st = acc st' ->
  E (local_values st) (local_values st') ->
  idx (while d inner w fuel st) = idx (while d inner' w fuel st')
  /\ step (while d inner w fuel st) = step (while d inner' w fuel st')
  /\ acc (while d inner w fuel st) = acc (while d inner' w fuel st')
  /\ E (local_values (while d inner w fuel st))
       (local_values (while d inner' w fuel st')).
Proof.
  intros Hinner. induction fuel as [|fuel IH]; intros st st' Hi Hs Ha He.
  - cbn [while_level]. auto.
  - destruct st as [i s lv a], st' as [i' s' lv' a'].
    cbn [idx step acc local_values] in Hi, Hs, Ha, He. subst i' s' a'.
    cbn [while_level idx step acc local_values].
    destruct (ix i d <? level_length details d); [|auto].
    pose proof (Hinner
                  (level_weight NUM_VALUES details values d (ix i d) * w)%ar
                  {| idx := i; step := s;
                     local_values :=
                       updZ lv (level_par details d)
                         (level_value NUM_VALUES details values d (ix i d));
                     acc := a |}
                  {| idx := i; step := s;
                     local_values :=
                       updZ lv' (level_par details d)
                         (level_value NUM_VALUES details values d (ix i d));
                     acc := a |}
                  eq_refl eq_refl eq_refl (E_upd _ _ _ _ He))
      as [Hi2 [Hs2 [Ha2 He2]]].
    rewrite <- Hs2.
    match goal with
    | |- context [step ?st2 >=? pd_stop] => destruct (step st2 >=? pd_stop)
    end; [auto|].
    apply IH; cbn [idx step acc local_values]; auto.
    now rewrite Hi2.
Qed.

Lemma pd_loops_sim (k : nat) :
  forall w st st',
  idx st = idx st' -> step st = step st' -> acc st = acc st' ->
  E (local_values st) (local_values st') ->
  idx (loops k w st) = idx (loops' k w st')
  /\ step (loops k w st) = step (loops' k w st')
  /\ acc (loops k w st) = acc (loops' k w st')
  /\ E (local_values (loops k w st)) (local_values (loops' k w st')).
Proof.
  induction k as [|k IH]; intros w st st' Hi Hs Ha He.
  - cbn [pd_loops]. unfold innermost.
    destruct (Hbodies w st st' Hi Hs Ha He) as [Hsnd Hfst].
    destruct (body w st) as [lv a], (body' w st') as [lv' a'].
    cbn [fst snd idx step acc local_values] in *.
    repeat split; auto. now rewrite Hs.
  - cbn [pd_loops]. unfold level. rewrite <- Hi.
    destruct (while_level_sim k (loops k) (loops' k) w
                (Z.to_nat (level_length details k - ix (idx st) k))
                IH st st' Hi Hs Ha He) as [Hi2 [Hs2 [Ha2 He2]]].
    cbn [idx step acc local_values]. repeat split; auto.
    now rewrite Hi2.
Qed.

End Simulation.

Section WholeNest.
Context {F : Type} `{Arith F}.
Variable NUM_PARS : nat.
Variable NUM_VALUES : Z.
Variable MAX_PD : nat.
Variable details : ProblemDetails.
Variable values : memory F.

Hypothesis Hwf : well_formed MAX_PD details.

Local Abbreviation cb := (cube details).
Local Abbreviation dg := (digit details).
Local Abbreviation len := (level_length details).
Local Abbreviation blk := (block_at NUM_PARS NUM_VALUES MAX_PD details values).
Local Abbreviation pidx := (point_index MAX_PD details).

Lemma stride_cube (d : nat) :
  (d < MAX_PD)%nat -> ix (pd_stride details) d = cb d.
Proof.
  induction d as [|d IH]; intros Hd.
  - now apply (wf_stride0 _ _ Hwf).
  - rewrite (wf_stride _ _ Hwf) by exact Hd. rewrite IH by lia. reflexivity.
Qed.

Lemma start_index_digit (pd_start : Z) (d : nat) :
  (d < MAX_PD)%nat -> 0 <= pd_start ->
  start_index details pd_start d = dg d pd_start.
Proof.
  intros Hd Hs. unfold start_index, digit. rewrite stride_cube by exact Hd.
  pose proof (cube_pos MAX_PD details (wf_length _ _ Hwf) d ltac:(lia)) as Hc.
  pose proof (wf_length _ _ Hwf d Hd) as Hn.
  rewrite Z.quot_div_nonneg by lia.
  rewrite Z.rem_mod_nonneg; auto; try lia.
  apply Z.div_pos; lia.
Qed.

Lemma start_indices (pd_start : Z) :
  0 <= pd_start -> map (start_index details pd_start) (seq 0 MAX_PD)
                   = pidx pd_start.
Proof.
  intros Hs. unfold point_index. apply map_seq_ext.
  intros d Hd. now apply start_index_digit.
Qed.

Lemma fold_right_add_init (l : list Z) (x : Z) :
  fold_right Z.add x l = fold_right Z.add 0 l + x.
Proof. induction l as [|a l IH]; simpl; lia. Qed.

(** The digits of [u] are in range and [u] is their mixed-radix value. *)
Lemma sum_digits (k : nat) (u : Z) :
  (k <= MAX_PD)%nat -> 0 <= u ->
  fold_right Z.add 0 (map (fun d => dg d u * cb d) (seq 0 k)) = u mod cb k.
Proof.
  intros Hk Hu. induction k as [|k IH].
  - simpl. now rewrite Z.mod_1_r.
  - rewrite seq_S, map_app, fold_right_app. simpl.
    pose proof (cube_pos MAX_PD details (wf_length _ _ Hwf) k ltac:(lia))
      as Hc.
    pose proof (wf_length _ _ Hwf k ltac:(lia)) as Hn.
    rewrite Z.rem_mul_r by lia.
    rewrite <- IH by lia. rewrite fold_right_add_init.
    unfold digit. lia.
Qed.

Lemma linear_index_point (u : Z) :
  0 <= u < cb MAX_PD -> linear_index MAX_PD details (pidx u) = u.
Proof.
  intros Hu. unfold linear_index.
  transitivity (u mod cb MAX_PD); [|apply Z.mod_small; lia].
  rewrite <- (sum_digits MAX_PD u) by lia.
  f_equal. apply map_ext_in. intros d Hd. apply in_seq in Hd.
  unfold point_index. rewrite ix_map_seq by lia.
  now rewrite stride_cube by lia.
Qed.

Section Body.
Context {A : Type}.
Variable body : F -> loop_state F A -> block F * A.
Hypothesis Hbody : forall w st, fst (body w st) = local_values st.

(** The whole nest runs the body at the cube points
    [pd_start .. pd_stop-1], in increasing order, and at [pd_start] even
    when the slice is empty. *)
Lemma run_loops_spec (pd_start pd_stop : Z) (a : A) :
  0 <= pd_start < cb MAX_PD ->
  acc (run_loops NUM_PARS NUM_VALUES MAX_PD details values pd_start pd_stop
         body a)
  = fold_left (visit_acc NUM_PARS NUM_VALUES MAX_PD details values body
                 MAX_PD f1)
      (range pd_start (Z.max (pd_start + 1) (Z.min pd_stop (cb MAX_PD)))) a.
Proof.
  intros Hs. unfold run_loops.
  rewrite (pd_loops_spec NUM_PARS NUM_VALUES MAX_PD details values pd_stop
             body (wf_length _ _ Hwf) Hbody MAX_PD (le_n _)).
  - cbn [acc initial_state step].
    assert (E : block_end details MAX_PD pd_start = cb MAX_PD).
    { unfold block_end. rewrite Z.div_small by lia. lia. }
    now rewrite E.
  - exact Hs.
  - cbn [idx initial_state step]. apply start_indices. lia.
  - intros u _. reflexivity.
Qed.

End Body.

Section ScratchBody.
Context {A : Type}.
Variable E : block F -> block F -> Prop.
Hypothesis E_refl : forall a, E a a.
Hypothesis E_trans : forall a b c, E a b -> E b c -> E a c.
Hypothesis E_upd : forall a b p v, E a b -> E (updZ a p v) (updZ b p v).
Variable body : F -> loop_state F A -> block F * A.
(** The body leaves the block in its class, and what it accumulates
    depends on the class of the block only. *)
Hypothesis Hkeeps : forall w st, E (fst (body w st)) (local_values st).
Hypothesis Hclass : forall w st st',
  idx st = idx st' -> step st = step st' -> acc st = acc st' ->
  E (local_values st) (local_values st') ->
  snd (body w st) = snd (body w st').

Lemma run_loops_spec_scratch (pd_start pd_stop : Z) (a : A) :
  0 <= pd_start < cb MAX_PD ->
  acc (run_loops NUM_PARS NUM_VALUES MAX_PD details values pd_start pd_stop
         body a)
  = fold_left (visit_acc NUM_PARS NUM_VALUES MAX_PD details values body
                 MAX_PD f1)
      (range pd_start (Z.max (pd_start + 1) (Z.min pd_stop (cb MAX_PD)))) a.
Proof.
  intros Hs.
  destruct (pd_loops_sim NUM_VALUES details values pd_stop E E_upd body
              (fun w st => (local_values st, snd (body w st)))) with
    (k := MAX_PD) (w := f1)
    (st := initial_state NUM_PARS MAX_PD details values pd_start a)
    (st' := initial_state NUM_PARS MAX_PD details values pd_start a)
    as [_ [_ [Hacc _]]]; auto.
  - intros w st st' Hi Hst Ha He. cbn [fst snd]. split.
    + now apply Hclass.
    + apply (E_trans _ (local_values st)); auto.
  - unfold run_loops. rewrite Hacc.
    apply (run_loops_spec (fun w st => (local_values st, snd (body w st))));
      auto.
Qed.

End ScratchBody.

End WholeNest.

(** ** The body of the nest *)

Section KernelBody.
Context {F : Type} `{Arith F}.
Variable model : ModelKernel F.
Variable scattering : nat -> block F -> F * block F.
Variable cutoff : F.
Variable scratch : nat -> Prop.
Hypothesis Hscratch : scratch_only model scattering scratch.

Lemma nth_combine_seq (l : list F) (j : nat) (dflt : nat * F) :
  (j < length l)%nat ->
  nth j (combine (seq 0 (length l)) l) dflt = (j, nth j l f0).
Proof.
  intros Hj.
  rewrite (nth_indep _ dflt (0%nat, f0))
    by (rewrite length_combine, length_seq; lia).
  rewrite combine_nth by (now rewrite length_seq).
  now rewrite seq_nth.
Qed.

Lemma accumulate_length (nq : nat) (w : F) (lv : block F) (res : list F) :
  length (accumulate scattering nq w lv res) = length res.
Proof.
  unfold accumulate. rewrite length_map, length_combine, length_seq. lia.
Qed.

Lemma nth_accumulate (nq : nat) (w : F) (lv : block F) (res : list F)
    (j : nat) :
  nth j (accumulate scattering nq w lv res) f0
  = if ((j <? nq) && (j <? length res))%nat
    then (nth j res f0 + w * fst (scattering j lv))%ar
    else nth j res f0.
Proof.
  destruct (Nat.ltb_spec j (length res)) as [Hj|Hj].
  - unfold accumulate.
    rewrite (nth_map_in _ _ _ _ (0%nat, f0))
      by (rewrite length_combine, length_seq; lia).
    rewrite nth_combine_seq by exact Hj. cbn [fst snd].
    now rewrite andb_true_r.
  - rewrite andb_false_r.
    rewrite !nth_overflow; auto. now rewrite accumulate_length.
Qed.

Lemma q_loop_S (nq : nat) (w : F) (lv : block F) (res : list F) :
  q_loop scattering (S nq) w lv res
  = q_step scattering w (q_loop scattering nq w lv res) nq.
Proof.
  unfold q_loop. now rewrite seq_S, fold_left_app.
Qed.

Lemma agree_outside_refl (lv : block F) : agree_outside scratch lv lv.
Proof. split; auto. Qed.

Lemma agree_outside_trans (a b c : block F) :
  agree_outside scratch a b -> agree_outside scratch b c ->
  agree_outside scratch a c.
Proof.
  intros [Hl1 Hn1] [Hl2 Hn2]. split; [congruence|].
  intros j Hj. rewrite Hn1, Hn2; auto.
Qed.

Lemma agree_outside_upd (a b : block F) (p : Z) (v : F) :
  agree_outside scratch a b ->
  agree_outside scratch (updZ a p v) (updZ b p v).
Proof.
  intros [Hl Hn]. split; [now rewrite !updZ_length|].
  intros j Hj. rewrite !nth_updZ, Hl, (Hn j Hj). reflexivity.
Qed.

Lemma accumulate_agree (nq : nat) (w : F) (lv lv' : block F)
    (res : list F) :
  agree_outside scratch lv lv' ->
  accumulate scattering nq w lv res = accumulate scattering nq w lv' res.
Proof.
  intros He. unfold accumulate. apply map_ext. intros [k x].
  cbn [fst snd]. now rewrite (so_reads _ _ _ Hscratch k lv lv' He).
Qed.

(** The q loop adds [weight0 * scattering] to every [result[q_index]] and
    leaves the parameter block as it was outside the scratch slots. *)
Lemma q_loop_accumulate (nq : nat) (w : F) (lv : block F) (res : list F) :
  snd (q_loop scattering nq w lv res) = accumulate scattering nq w lv res
  /\ agree_outside scratch (fst (q_loop scattering nq w lv res)) lv.
Proof.
  induction nq as [|nq [IHr IHl]].
  - unfold q_loop. cbn [seq fold_left fst snd].
    split; [|apply agree_outside_refl].
    apply (list_eq_nth _ _ f0); [now rewrite accumulate_length|].
    intros j Hj. now rewrite nth_accumulate.
  - rewrite q_loop_S. unfold q_step.
    destruct (q_loop scattering nq w lv res) as [lv1 res1].
    cbn [fst snd] in *. subst res1.
    pose proof (so_writes _ _ _ Hscratch nq lv1) as Hw.
    pose proof (so_reads _ _ _ Hscratch nq lv1 lv IHl) as Hr.
    destruct (scattering nq lv1) as [sc lv2]. cbn [fst snd] in *.
    split; [|now apply (agree_outside_trans _ lv1)].
    apply (list_eq_nth _ _ f0);
      [now rewrite upd_length, !accumulate_length|].
    intros j Hj. rewrite upd_length, accumulate_length in Hj.
    rewrite nth_upd, !nth_accumulate, accumulate_length.
    apply Nat.ltb_lt in Hj. rewrite Hj.
    destruct (Nat.eqb_spec j nq) as [->|Hne].
    + rewrite Nat.ltb_irrefl, Hr, Hj.
      replace (nq <? S nq)%nat with true
        by (symmetry; apply Nat.ltb_lt; lia).
      reflexivity.
    + destruct (Nat.ltb_spec j nq), (Nat.ltb_spec j (S nq));
        auto; lia.
Qed.

Lemma kernel_body_policy (nq : nat) (w : F) (st : loop_state F (F * list F)) :
  snd (kernel_body model scattering nq cutoff w st)
  = skip_policy model scattering nq cutoff (local_values st) w (acc st)
  /\ agree_outside scratch
       (fst (kernel_body model scattering nq cutoff w st)) (local_values st).
Proof.
  unfold kernel_body, skip_policy.
  destruct (is_invalid model (local_values st)); cbn [negb andb fst snd];
    [split; [reflexivity|apply agree_outside_refl]|].
  destruct (fgtb w cutoff); cbn [fst snd];
    [|split; [reflexivity|apply agree_outside_refl]].
  destruct (q_loop_accumulate nq w (local_values st) (snd (acc st)))
    as [Hr Hl].
  destruct (q_loop scattering nq w (local_values st) (snd (acc st)))
    as [lv' res']. cbn [fst snd] in *. now subst res'.
Qed.

Lemma skip_policy_agree (nq : nat) (w : F) (lv lv' : block F)
    (a : F * list F) :
  agree_outside scratch lv lv' ->
  skip_policy model scattering nq cutoff lv w a
  = skip_policy model scattering nq cutoff lv' w a.
Proof.
  intros He. unfold skip_policy.
  rewrite (so_invalid _ _ _ Hscratch lv lv' He),
    (so_volume _ _ _ Hscratch lv lv' He),
    (accumulate_agree nq w lv lv' (snd a) He).
  reflexivity.
Qed.

Lemma zero_result_length (nq : nat) (res : list F) :
  length (zero_result nq res) = length res.
Proof.
  unfold zero_result. generalize (seq 0 nq). intros l. revert res.
  induction l as [|a l IH]; intros res; simpl; auto.
  now rewrite IH, upd_length.
Qed.

Lemma nth_zero_result (nq : nat) (res : list F) (j : nat) :
  nth j (zero_result nq res) f0
  = if (j <? nq)%nat then f0 else nth j res f0.
Proof.
  unfold zero_result. induction nq as [|nq IH].
  - reflexivity.
  - rewrite seq_S, fold_left_app. cbn [fold_left Nat.add].
    rewrite nth_upd, IH.
    destruct (Nat.eqb_spec j nq) as [->|Hne].
    + rewrite Nat.ltb_irrefl.
      replace (nq <? S nq)%nat with true
        by (symmetry; apply Nat.ltb_lt; lia).
      cbn [andb].
      destruct (Nat.ltb_spec nq
                  (length (fold_left (fun r q_index => upd r q_index f0)
                             (seq 0 nq) res))) as [|Hge]; auto.
      fold (zero_result nq res) in Hge. rewrite zero_result_length in Hge.
      now rewrite nth_overflow.
    + cbn [andb].
      destruct (Nat.ltb_spec j nq), (Nat.ltb_spec j (S nq)); auto; lia.
Qed.

Lemma skip_policy_length (nq : nat) (lv : block F) (w : F)
    (a : F * list F) :
  length (snd (skip_policy model scattering nq cutoff lv w a))
  = length (snd a).
Proof.
  unfold skip_policy.
  destruct (negb (is_invalid model lv) && fgtb w cutoff); auto.
  cbn [snd]. apply accumulate_length.
Qed.

(** The body does not look at [result[nq]]. *)
Lemma skip_policy_frame (nq : nat) (lv : block F) (w x : F)
    (norm : F) (res : list F) :
  skip_policy model scattering nq cutoff lv w (norm, upd res nq x)
  = (fst (skip_policy model scattering nq cutoff lv w (norm, res)),
     upd (snd (skip_policy model scattering nq cutoff lv w (norm, res)))
         nq x).
Proof.
  unfold skip_policy.
  destruct (negb (is_invalid model lv) && fgtb w cutoff); cbn [fst snd]; auto.
  f_equal. apply (list_eq_nth _ _ f0).
  - now rewrite accumulate_length, !upd_length, accumulate_length.
  - intros j Hj. rewrite accumulate_length, upd_length in Hj.
    rewrite nth_accumulate, !nth_upd, nth_accumulate, upd_length,
      accumulate_length.
    apply Nat.ltb_lt in Hj. rewrite Hj, !andb_true_r.
    destruct (Nat.eqb_spec j nq) as [->|Hne]; cbn [andb].
    + now rewrite Nat.ltb_irrefl.
    + reflexivity.
Qed.

End KernelBody.

(** ** The kernel as a sum over cube points *)

Section KernelSpec.
Context {F : Type} `{Arith F}.
Variable NUM_PARS : nat.
Variable NUM_VALUES : Z.
Variable MAX_PD : nat.
Variable details : ProblemDetails.
Variable values : memory F.
Variable model : ModelKernel F.
Variable scattering : nat -> block F -> F * block F.
Variable nq : nat.
Variable cutoff : F.

Hypothesis Hwf : well_formed MAX_PD details.
Variable scratch : nat -> Prop.
Hypothesis Hscratch : scratch_only model scattering scratch.

Local Abbreviation cb := (cube details).
Local Abbreviation blk := (block_at NUM_PARS NUM_VALUES MAX_PD details values).
Local Abbreviation policy := (skip_policy model scattering nq cutoff).
Local Abbreviation integ :=
  (integrate NUM_PARS NUM_VALUES MAX_PD details values model scattering nq
             cutoff).
Local Abbreviation kern lo hi :=
  (kernel NUM_PARS NUM_VALUES MAX_PD details values lo hi model
          scattering nq cutoff).

Lemma point_weight_fold (k : nat) (u : Z) (w : F) :
  point_weight NUM_VALUES details values k u w
  = fold_right fmul w
      (map (fun d => level_weight NUM_VALUES details values d
                       (digit details d u)) (seq 0 k)).
Proof.
  revert w; induction k as [|k IH]; intros w; [reflexivity|].
  cbn [point_weight]. rewrite IH, seq_S, map_app, fold_right_app.
  reflexivity.
Qed.

Lemma point_weight_product (u : Z) :
  point_weight NUM_VALUES details values MAX_PD u f1
  = product_weight NUM_VALUES MAX_PD details values u.
Proof. apply point_weight_fold. Qed.

Lemma kernel_spec (pd_start pd_stop : Z) (result : list F) :
  0 <= pd_start < cb MAX_PD ->
  kern pd_start pd_stop result
  = store_norm nq
      (integ pd_start (Z.max (pd_start + 1) (Z.min pd_stop (cb MAX_PD)))
             (seed nq pd_start result)).
Proof.
  intros Hs. unfold kernel, store_norm, integrate, seed.
  rewrite (run_loops_spec_scratch NUM_PARS NUM_VALUES MAX_PD details values
             Hwf (agree_outside scratch) (agree_outside_refl scratch)
             (agree_outside_trans scratch) (agree_outside_upd scratch)
             (kernel_body model scattering nq cutoff)).
  - f_equal; f_equal; apply fold_left_ext_in; intros a u _;
      unfold visit_acc;
      rewrite (proj1 (kernel_body_policy model scattering cutoff scratch
                        Hscratch nq _ _));
      cbn [point_state local_values acc];
      now rewrite point_weight_product.
  - intros w st.
    apply (kernel_body_policy model scattering cutoff scratch Hscratch).
  - intros w st st' _ _ Ha He.
    rewrite !(proj1 (kernel_body_policy model scattering cutoff scratch
                       Hscratch nq _ _)).
    rewrite Ha. now apply (skip_policy_agree model scattering cutoff scratch).
  - exact Hs.
Qed.

Lemma integrate_app (lo mid hi : Z) (a : F * list F) :
  lo <= mid -> mid <= hi -> integ lo hi a = integ mid hi (integ lo mid a).
Proof.
  intros H1 H2. unfold integrate.
  now rewrite (range_app lo mid hi), fold_left_app.
Qed.

Lemma integrate_length (lo hi : Z) (a : F * list F) :
  length (snd (integ lo hi a)) = length (snd a).
Proof.
  unfold integrate. generalize (range lo hi). intros l. revert a.
  induction l as [|u l IH]; intros a; [reflexivity|].
  cbn [fold_left]. rewrite IH. apply skip_policy_length.
Qed.

Lemma integrate_frame (lo hi : Z) (x norm : F) (res : list F) :
  integ lo hi (norm, upd res nq x)
  = (fst (integ lo hi (norm, res)), upd (snd (integ lo hi (norm, res))) nq x).
Proof.
  unfold integrate. generalize (range lo hi). intros l. revert norm res.
  induction l as [|u l IH]; intros norm res; [reflexivity|].
  cbn [fold_left]. rewrite skip_policy_frame.
  rewrite IH. now rewrite <- surjective_pairing.
Qed.

Lemma seed_length (pd_start : Z) (result : list F) :
  length (snd (seed nq pd_start result)) = length result.
Proof.
  unfold seed. cbn [snd].
  destruct (pd_start =? 0); auto using zero_result_length.
Qed.

Lemma kernel_length (pd_start pd_stop : Z) (result : list F) :
  0 <= pd_start < cb MAX_PD ->
  length (kern pd_start pd_stop result) = length result.
Proof.
  intros Hs. rewrite kernel_spec by exact Hs. unfold store_norm.
  now rewrite upd_length, integrate_length, seed_length.
Qed.

(** A call on [(b, c)] after a call on [(a, b)] is a call on [(a, c)]. *)
Lemma kernel_merge (a b c : Z) (result : list F) :
  0 <= a -> a < b -> b < c -> c <= cb MAX_PD ->
  length result = S nq ->
  kern b c (kern a b result) = kern a c result.
Proof.
  intros Ha Hab Hbc Hc Hlen.
  rewrite (kernel_spec a b), (kernel_spec a c), (kernel_spec b c) by lia.
  replace (Z.max (a + 1) (Z.min b (cb MAX_PD))) with b by lia.
  replace (Z.max (a + 1) (Z.min c (cb MAX_PD))) with c by lia.
  replace (Z.max (b + 1) (Z.min c (cb MAX_PD))) with c by lia.
  rewrite (integrate_app a b c) by lia.
  set (s := integ a b (seed nq a result)).
  assert (Hs : length (snd s) = S nq)
    by (subst s; now rewrite integrate_length, seed_length).
  assert (Eseed : seed nq b (store_norm nq s)
                  = (fst s, upd (snd s) nq (fst s))).
  { unfold seed, store_norm.
    destruct (Z.eqb_spec b 0) as [|_]; [lia|].
    now rewrite nth_upd_same by lia. }
  rewrite Eseed, integrate_frame. unfold store_norm. cbn [fst snd].
  now rewrite upd_upd_same, <- surjective_pairing.
Qed.

Lemma is_partition_le (stops : list Z) (lo hi : Z) :
  is_partition lo stops hi -> lo <= hi.
Proof.
  revert lo; induction stops as [|s rest IH]; intros lo; simpl.
  - lia.
  - intros [Hlt Hrest]. specialize (IH s Hrest). lia.
Qed.

Lemma run_slices_merge (stops : list Z) :
  forall (a s : Z) (result : list F),
  0 <= a -> a < s -> length result = S nq ->
  is_partition s stops (cb MAX_PD) ->
  run_slices NUM_PARS NUM_VALUES MAX_PD details values model scattering nq
    cutoff s stops (kern a s result)
  = kern a (cb MAX_PD) result.
Proof.
  induction stops as [|s' rest IH]; intros a s result Ha Has Hlen Hpart.
  - simpl in *. now subst s.
  - destruct Hpart as [Hlt Hrest].
    pose proof (is_partition_le rest s' _ Hrest) as Hle.
    cbn [run_slices]. rewrite kernel_merge by lia.
    apply IH; auto; lia.
Qed.

End KernelSpec.

(** ** The examples are well formed *)

Lemma scattering_plain_reads_only {F : Type} `{Arith F} SINCOS
    (model : ModelKernel F) details values q dsp :
  reads_only (scattering_plain SINCOS model details values q dsp).
Proof. intros q_index lv. unfold scattering_plain. now destruct dsp. Qed.

(** A per-q evaluation that only reads the parameter block has no scratch
    slots, whatever the model. *)
Lemma reads_only_scratch {F : Type} `{Arith F} (model : ModelKernel F)
    (scattering : nat -> block F -> F * block F) :
  reads_only scattering ->
  scratch_only model scattering (fun _ => False).
Proof.
  intros Hpure.
  assert (Heq : forall lv lv' : block F,
            agree_outside (fun _ => False) lv lv' -> lv = lv').
  { intros lv lv' [Hl Hn]. apply (list_eq_nth _ _ f0); auto. }
  split.
  - intros k lv. rewrite Hpure. split; auto.
  - intros k lv lv' He. now rewrite (Heq lv lv' He).
  - intros lv lv' He. now rewrite (Heq lv lv' He).
  - intros lv lv' He. now rewrite (Heq lv lv' He).
Qed.

Lemma plain_scratch {F : Type} `{Arith F} SINCOS
    (model : ModelKernel F) details values q dsp :
  scratch_only model (scattering_plain SINCOS model details values q dsp)
               (fun _ => False).
Proof. apply reads_only_scratch, scattering_plain_reads_only. Qed.

Lemma demo_well_formed : well_formed 2 demo_details.
Proof.
  split.
  - intros [|[|d]] Hd; cbv; try discriminate; lia.
  - reflexivity.
  - intros [|d] Hd; [reflexivity|lia].
  - reflexivity.
Qed.

Lemma demo_distinct_slots : distinct_slots 2 2 demo_details.
Proof.
  split.
  - intros [|[|d]] Hd; cbv; try lia; split; congruence.
  - intros [|[|d]] [|[|e]] Hd He; cbv; try lia; try congruence; auto.
Qed.

(** * The kernel and its specification *)

(** C2: for a well-formed problem descriptor (positive lengths, mixed-radix
    strides, [num_eval] the product of the lengths, distinct parameter
    slots) and a slice [0 <= pd_start < pd_stop <= num_eval], the loop nest
    runs its body exactly at the cube points with linear index in
    [pd_start, pd_stop), once each and in increasing order, whatever the
    body does with what it is given (as long as it leaves the parameter
    block alone); the first point has the indices
    [(pd_start / pd_stride[d]) % pd_length[d]]; every visited point is the
    mixed-radix value of its indices (so [i_0] varies fastest), its indices
    are in range, and slot [pd_par[d]] of the parameter block holds
    [pd_value[d][i_d]] for every dimension [d]. *)
Theorem hypercube_enumeration {F : Type} `{Arith F}
    (NUM_PARS : nat) (NUM_VALUES : Z) (MAX_PD : nat)
    (details : ProblemDetails) (values : memory F) (pd_start pd_stop : Z) :
  well_formed MAX_PD details ->
  distinct_slots NUM_PARS MAX_PD details ->
  0 <= pd_start /\ pd_start < pd_stop <= num_eval details ->
  (forall (A : Type) (body : F -> loop_state F A -> block F * A) (a : A),
     (forall w st, fst (body w st) = local_values st) ->
     acc (run_loops NUM_PARS NUM_VALUES MAX_PD details values pd_start
            pd_stop body a)
     = fold_left
         (fun a u =>
            snd (body (point_weight NUM_VALUES details values MAX_PD u f1)
                      (point_state NUM_PARS NUM_VALUES MAX_PD details values
                                   u a)))
         (range pd_start pd_stop) a)
  /\ visited_points NUM_PARS NUM_VALUES MAX_PD details values pd_start
                    pd_stop
     = map (cube_point NUM_PARS NUM_VALUES MAX_PD details values)
           (range pd_start pd_stop)
  /\ (forall d, (d < MAX_PD)%nat ->
        ix (point_index MAX_PD details pd_start) d
        = Z.rem (Z.quot pd_start (ix (pd_stride details) d))
                (ix (pd_length details) d))
  /\ (forall u, pd_start <= u < pd_stop ->
        linear_index MAX_PD details (point_index MAX_PD details u) = u
        /\ forall d, (d < MAX_PD)%nat ->
             0 <= ix (point_index MAX_PD details u) d
               < ix (pd_length details) d
             /\ nth (Z.to_nat (ix (pd_par details) d))
                    (block_at NUM_PARS NUM_VALUES MAX_PD details values u) f0
                = pd_value NUM_VALUES values
                    (ix (pd_offset details) d
                     + ix (point_index MAX_PD details u) d)).
Proof.
  intros Hwf Hds Hslice.
  pose proof (wf_num_eval _ _ Hwf) as Hne. rewrite Hne in Hslice.
  split; [|split; [|split]].
  - intros A body a Hbody.
    rewrite (run_loops_spec NUM_PARS NUM_VALUES MAX_PD details values Hwf)
      by (auto; lia).
    now replace (Z.max (pd_start + 1) (Z.min pd_stop (cube details MAX_PD)))
      with pd_stop by lia.
  - unfold visited_points.
    rewrite (run_loops_spec NUM_PARS NUM_VALUES MAX_PD details values Hwf)
      by (auto; lia).
    replace (Z.max (pd_start + 1) (Z.min pd_stop (cube details MAX_PD)))
      with pd_stop by lia.
    generalize (range pd_start pd_stop). intros l.
    rewrite <- (app_nil_l (map _ l)).
    generalize (@nil (Z * list Z * block F * F)).
    induction l as [|u l IH]; intros a; cbn [fold_left map].
    + now rewrite app_nil_r.
    + rewrite IH. unfold visit_acc, record_point, cube_point.
      cbn [snd point_state step idx local_values acc].
      now rewrite <- app_assoc.
  - intros d Hd. rewrite ix_point_index by exact Hd.
    symmetry. apply (start_index_digit MAX_PD details Hwf); auto; lia.
  - intros u Hu. split.
    + apply linear_index_point; auto; lia.
    + intros d Hd. rewrite ix_point_index by exact Hd. split.
      * apply (digit_bounds MAX_PD details (wf_length _ _ Hwf)); auto.
      * unfold block_at.
        apply (write_levels_holds NUM_VALUES details values).
        -- rewrite <- in_rev. apply in_seq. lia.
        -- intros e e' He He'. apply in_rev, in_seq in He.
           apply in_rev, in_seq in He'.
           apply (ds_inj _ _ _ Hds); lia.
        -- apply NoDup_rev, seq_NoDup.
        -- unfold load_params. rewrite length_map, length_seq.
           apply (ds_range _ _ _ Hds); auto.
Qed.

Lemma hypercube_enumeration_witness :
  visited_points 2 4 2 demo_details demo_values 1 5
  = map (cube_point 2 4 2 demo_details demo_values) [1; 2; 3; 4]
  /\ map fst (map fst (map fst
       (visited_points 2 4 2 demo_details demo_values 1 5)))
     = [1; 2; 3; 4].
Proof.
  split.
  - assert (Hslice : 0 <= 1 /\ 1 < 5 <= num_eval demo_details)
      by (cbv; repeat split; congruence).
    apply (proj1 (proj2
             (hypercube_enumeration 2 4 2 demo_details demo_values 1 5
                demo_well_formed demo_distinct_slots Hslice))).
  - vm_compute. reflexivity.
Defined.

(** ** The magnetic evaluation rewrites scratch slots only *)

Section MagneticScratch.
Context {F : Type} `{Arith F}.
Variable SINCOS : F -> F * F.
Variable model : ModelKernel F.
Variable NUM_PARS : nat.
Variable details : ProblemDetails.
Variable values : memory F.
Variable q : memory F.
Variable dsp : dispatch.
Variable NUM_MAGNETIC : nat.
Variable slds : list Z.

Local Abbreviation slot := (magnetic_slot NUM_PARS NUM_MAGNETIC slds).

Lemma agree_outside_weaken (S1 S2 : nat -> Prop) (a b : block F) :
  (forall j, S1 j -> S2 j) -> agree_outside S1 a b -> agree_outside S2 a b.
Proof.
  intros Hsub [Hl Hn]. split; auto.
Qed.

Section OneRewrite.
Variables qx qy xs pk : F.
Variables index axis : nat.

Local Abbreviation rewrite_all :=
  (fold_left (sld_rewrite values qx qy xs pk index axis)).

Lemma sld_rewrite_keeps (lv : block F) (s : Z * Z) :
  agree_outside (fun j => Z.of_nat j = snd s)
    (sld_rewrite values qx qy xs pk index axis lv s) lv.
Proof.
  destruct s as [M o]. unfold sld_rewrite. cbn [snd].
  split; [apply updZ_length|].
  intros j Hj. rewrite nth_updZ.
  destruct (Z.eqb_spec o (Z.of_nat j)); [congruence|reflexivity].
Qed.

Lemma rewrite_all_keeps (slots : list (Z * Z)) (lv : block F) :
  agree_outside (fun j => In (Z.of_nat j) (map snd slots))
    (rewrite_all slots lv) lv.
Proof.
  revert lv; induction slots as [|s slots IH]; intros lv.
  - apply agree_outside_refl.
  - cbn [fold_left map].
    apply (agree_outside_trans _ _
             (sld_rewrite values qx qy xs pk index axis lv s)).
    + apply (agree_outside_weaken
               (fun j => In (Z.of_nat j) (map snd slots))); [|apply IH].
      intros j Hj. now right.
    + apply (agree_outside_weaken (fun j => Z.of_nat j = snd s));
        [|apply sld_rewrite_keeps].
      intros j Hj. left. now symmetry.
Qed.

(** The rewritten block does not depend on what the rewritten slots
    held. *)
Lemma rewrite_all_determined (slots : list (Z * Z)) (lv lv' : block F) :
  agree_outside (fun j => In (Z.of_nat j) (map snd slots)) lv lv' ->
  rewrite_all slots lv = rewrite_all slots lv'.
Proof.
  revert lv lv'; induction slots as [|s slots IH]; intros lv lv' [Hl Hn].
  - cbn [fold_left]. apply (list_eq_nth _ _ f0); auto.
  - cbn [fold_left]. apply IH. destruct s as [M o]. unfold sld_rewrite.
    split; [now rewrite !updZ_length|].
    intros j Hj. rewrite !nth_updZ, Hl.
    destruct (Z.eqb_spec o (Z.of_nat j)) as [Ho|Ho]; cbn [andb].
    + destruct (j <? length lv')%nat eqn:Hlt; [reflexivity|].
      apply Nat.ltb_ge in Hlt. rewrite !nth_overflow; auto; lia.
    + apply Hn. cbn [map snd In]. intros [Hin|Hin]; auto.
Qed.

End OneRewrite.

Lemma axis_step_keeps (qx qy qsq xs pk : F) (index : nat)
    (s : F * block F) (axis : nat) :
  agree_outside slot
    (snd (axis_step SINCOS model NUM_PARS details values dsp NUM_MAGNETIC
            slds qx qy qsq xs pk index s axis)) (snd s).
Proof.
  unfold axis_step.
  pose proof (rewrite_all_keeps qx qy xs pk index axis
                (magnetic_slots NUM_PARS NUM_MAGNETIC slds) (snd s)) as Hk.
  destruct dsp; exact Hk.
Qed.

Lemma axis_step_determined (qx qy qsq xs pk : F) (index : nat)
    (s s' : F * block F) (axis : nat) :
  fst s = fst s' -> agree_outside slot (snd s) (snd s') ->
  axis_step SINCOS model NUM_PARS details values dsp NUM_MAGNETIC slds
            qx qy qsq xs pk index s axis
  = axis_step SINCOS model NUM_PARS details values dsp NUM_MAGNETIC slds
              qx qy qsq xs pk index s' axis.
Proof.
  intros Hf He. unfold axis_step.
  rewrite (rewrite_all_determined qx qy xs pk index axis _ (snd s) (snd s')
             He), Hf.
  reflexivity.
Qed.

Lemma axes_keep (qx qy qsq xs pk : F) (index : nat) (axes : list nat) :
  forall s s' : F * block F,
  fst s = fst s' -> agree_outside slot (snd s) (snd s') ->
  let r := fold_left (axis_step SINCOS model NUM_PARS details values dsp
                        NUM_MAGNETIC slds qx qy qsq xs pk index) axes s in
  let r' := fold_left (axis_step SINCOS model NUM_PARS details values dsp
                         NUM_MAGNETIC slds qx qy qsq xs pk index) axes s' in
  fst r = fst r' /\ agree_outside slot (snd r) (snd r')
  /\ agree_outside slot (snd r) (snd s).
Proof.
  induction axes as [|axis axes IH]; intros s s' Hf He; cbn [fold_left].
  - split; [exact Hf|]. split; [exact He|]. apply agree_outside_refl.
  - rewrite (axis_step_determined qx qy qsq xs pk index s s' axis Hf He).
    destruct (IH (axis_step SINCOS model NUM_PARS details values dsp
                    NUM_MAGNETIC slds qx qy qsq xs pk index s' axis)
                 (axis_step SINCOS model NUM_PARS details values dsp
                    NUM_MAGNETIC slds qx qy qsq xs pk index s' axis)
                 eq_refl (agree_outside_refl _ _)) as [_ [_ Hk]].
    split; [reflexivity|]. split; [apply agree_outside_refl|].
    apply (agree_outside_trans _ _ _ _ Hk).
    apply (agree_outside_trans _ _ (snd s')).
    + apply axis_step_keeps.
    + destruct He as [Hl Hn]. split; auto.
      intros j Hj. symmetry. now apply Hn.
Qed.

Lemma spins_keep (qx qy qsq : F) (p : list F) (indices : list nat) :
  forall s s' : F * block F,
  fst s = fst s' -> agree_outside slot (snd s) (snd s') ->
  let r := fold_left (spin_step SINCOS model NUM_PARS details values dsp
                        NUM_MAGNETIC slds qx qy qsq p) indices s in
  let r' := fold_left (spin_step SINCOS model NUM_PARS details values dsp
                         NUM_MAGNETIC slds qx qy qsq p) indices s' in
  fst r = fst r' /\ agree_outside slot (snd r) (snd r')
  /\ agree_outside slot (snd r) (snd s).
Proof.
  induction indices as [|index indices IH]; intros s s' Hf He;
    cbn [fold_left].
  - split; [exact Hf|]. split; [exact He|]. apply agree_outside_refl.
  - assert (Hstep :
      fst (spin_step SINCOS model NUM_PARS details values dsp NUM_MAGNETIC
             slds qx qy qsq p s index)
      = fst (spin_step SINCOS model NUM_PARS details values dsp NUM_MAGNETIC
               slds qx qy qsq p s' index)
      /\ agree_outside slot
           (snd (spin_step SINCOS model NUM_PARS details values dsp
                   NUM_MAGNETIC slds qx qy qsq p s index))
           (snd (spin_step SINCOS model NUM_PARS details values dsp
                   NUM_MAGNETIC slds qx qy qsq p s' index))
      /\ agree_outside slot
           (snd (spin_step SINCOS model NUM_PARS details values dsp
                   NUM_MAGNETIC slds qx qy qsq p s index)) (snd s)).
    { unfold spin_step.
      destruct (fgtb (nth index (spins NUM_PARS values) f0) lit_1em8).
      - unfold spin_section. now apply axes_keep.
      - split; [exact Hf|]. split; [exact He|]. apply agree_outside_refl. }
    destruct Hstep as [Hf1 [He1 Hk1]].
    destruct (IH _ _ Hf1 He1) as [Hf2 [He2 Hk2]].
    split; [exact Hf2|]. split; [exact He2|].
    now apply (agree_outside_trans _ _ _ _ Hk2).
Qed.

(** The magnetic evaluation qualifies when [CALL_VOLUME] and [INVALID] do
    not read the magnetic scattering length densities. *)
Lemma scattering_magnetic_scratch :
  (forall lv lv', agree_outside slot lv lv' ->
     CALL_VOLUME model lv = CALL_VOLUME model lv') ->
  (forall lv lv', agree_outside slot lv lv' ->
     is_invalid model lv = is_invalid model lv') ->
  scratch_only model
    (scattering_magnetic SINCOS model NUM_PARS details values q dsp
                         NUM_MAGNETIC slds) slot.
Proof.
  intros Hvol Hinv. split; auto.
  - intros q_index lv. unfold scattering_magnetic.
    destruct (fgtb _ lit_1em16); [|apply agree_outside_refl].
    apply (spins_keep _ _ _ _ (seq 0 4) (f0, lv) (f0, lv) eq_refl
             (agree_outside_refl _ _)).
  - intros q_index lv lv' He. unfold scattering_magnetic.
    destruct (fgtb _ lit_1em16); [|reflexivity].
    apply (spins_keep _ _ _ _ (seq 0 4) (f0, lv) (f0, lv') eq_refl He).
Qed.

End MagneticScratch.

Lemma mag_well_formed : well_formed 1 mag_details.
Proof.
  split.
  - intros [|d] Hd; cbv; [discriminate|lia].
  - reflexivity.
  - intros d Hd. lia.
  - reflexivity.
Qed.

(** In the magnetic example the volume is read from slot 1, which is not
    rewritten. *)
Lemma mag_scratch :
  scratch_only mag_model mag_scattering (magnetic_slot 2 1 [0]).
Proof.
  apply scattering_magnetic_scratch.
  - intros lv lv' [_ Hn]. cbn [CALL_VOLUME mag_model].
    apply (Hn 1%nat). unfold magnetic_slot. cbn. intros [E|[]].
    discriminate E.
  - reflexivity.
Qed.

(** C1: for every partition [0 = s_0 < s_1 < ... < s_m = num_eval],
    calling the kernel once per slice [(s_j, s_j+1)] in increasing order on
    the same result buffer of [nq+1] entries gives exactly the result array
    of the single call [(0, num_eval)].  Nothing is assumed of the
    arithmetic, so the equality is bitwise.  The evaluation at a q index
    may rewrite scratch slots of the parameter block, as the magnetic
    variant does, as long as [CALL_VOLUME] and [INVALID] do not read
    them; the other variants have no scratch slots. *)
Theorem resumability {F : Type} `{Arith F}
    (NUM_PARS : nat) (NUM_VALUES : Z) (MAX_PD : nat)
    (details : ProblemDetails) (values : memory F) (model : ModelKernel F)
    (scattering : nat -> block F -> F * block F) (nq : nat) (cutoff : F)
    (scratch : nat -> Prop) (stops : list Z) (result : list F) :
  well_formed MAX_PD details ->
  scratch_only model scattering scratch ->
  length result = S nq ->
  is_partition 0 stops (num_eval details) ->
  run_slices NUM_PARS NUM_VALUES MAX_PD details values model scattering nq
             cutoff 0 stops result
  = kernel NUM_PARS NUM_VALUES MAX_PD details values 0 (num_eval details)
           model scattering nq cutoff result.
Proof.
  intros Hwf Hpure Hlen Hpart.
  rewrite (wf_num_eval _ _ Hwf) in *.
  pose proof (cube_pos MAX_PD details (wf_length _ _ Hwf) MAX_PD (le_n _))
    as Hpos.
  destruct stops as [|s rest]; simpl in Hpart; [lia|].
  destruct Hpart as [Hs Hrest]. cbn [run_slices].
  apply (run_slices_merge NUM_PARS NUM_VALUES MAX_PD details values model
           scattering nq cutoff Hwf scratch); auto; lia.
Qed.

Lemma resumability_witness :
  run_slices 2 4 2 demo_details demo_values demo_model demo_scattering 2
             0.125%float 0 [1; 4; 6] [9; 9; 9]%float
  = demo_kernel 0 6 [9; 9; 9]%float
  /\ run_slices 2 10 1 mag_details mag_values mag_model mag_scattering 2
                0.125%float 0 [1; 2] [9; 9; 9]%float
     = mag_kernel 0 2 [9; 9; 9]%float.
Proof.
  split.
  - apply (resumability 2 4 2 demo_details demo_values demo_model
             demo_scattering 2 0.125%float (fun _ => False) [1; 4; 6]
             [9; 9; 9]%float demo_well_formed).
    + apply plain_scratch.
    + reflexivity.
    + cbv. repeat split.
  - apply (resumability 2 10 1 mag_details mag_values mag_model
             mag_scattering 2 0.125%float (magnetic_slot 2 1 [0]) [1; 2]
             [9; 9; 9]%float mag_well_formed mag_scratch).
    + reflexivity.
    + cbv. repeat split.
Defined.

(** C3: for a well-formed descriptor, a per-q evaluation that rewrites at
    most scratch slots of the parameter block, and a slice
    [0 <= pd_start < pd_stop <= num_eval], the kernel is the sum of the
    skip policy over the visited cube points, applied to the parameter
    block of the point and to the product of the weights of all its
    dimensions.  A point with block [lv] and cumulative weight [w]
    contributes if and only if [invalid(lv)] is false and [w > cutoff]; it
    then adds [w * form_volume(lv)] to [pd_norm] and [w * s_k] to
    [result[k]] for every q index [k]; otherwise it changes neither. *)
Theorem skip_policy_of_kernel {F : Type} `{Arith F}
    (NUM_PARS : nat) (NUM_VALUES : Z) (MAX_PD : nat)
    (details : ProblemDetails) (values : memory F) (model : ModelKernel F)
    (scattering : nat -> block F -> F * block F) (nq : nat) (cutoff : F)
    (scratch : nat -> Prop) (pd_start pd_stop : Z) (result : list F) :
  well_formed MAX_PD details ->
  scratch_only model scattering scratch ->
  0 <= pd_start /\ pd_start < pd_stop <= num_eval details ->
  kernel NUM_PARS NUM_VALUES MAX_PD details values pd_start pd_stop model
         scattering nq cutoff result
  = store_norm nq
      (integrate NUM_PARS NUM_VALUES MAX_PD details values model scattering
                 nq cutoff pd_start pd_stop (seed nq pd_start result))
  /\ forall (lv : block F) (w pd_norm : F) (res : list F),
       (is_invalid model lv = false /\ fgtb w cutoff = true ->
        skip_policy model scattering nq cutoff lv w (pd_norm, res)
        = ((pd_norm + w * CALL_VOLUME model lv)%ar,
           accumulate scattering nq w lv res)
        /\ length (accumulate scattering nq w lv res) = length res
        /\ forall k, (k < nq)%nat -> (k < length res)%nat ->
             nth k (accumulate scattering nq w lv res) f0
             = (nth k res f0 + w * fst (scattering k lv))%ar)
       /\ (is_invalid model lv = true \/ fgtb w cutoff = false ->
           skip_policy model scattering nq cutoff lv w (pd_norm, res)
           = (pd_norm, res)).
Proof.
  intros Hwf Hpure Hslice. split.
  - rewrite (kernel_spec NUM_PARS NUM_VALUES MAX_PD details values model
               scattering nq cutoff Hwf scratch Hpure)
      by (rewrite <- (wf_num_eval _ _ Hwf); lia).
    rewrite <- (wf_num_eval _ _ Hwf).
    now replace (Z.max (pd_start + 1) (Z.min pd_stop (num_eval details)))
      with pd_stop by lia.
  - intros lv w pd_norm res. unfold skip_policy. split.
    + intros [Hv Hw]. rewrite Hv, Hw. cbn [negb andb fst snd].
      split; [reflexivity|]. split; [apply accumulate_length|].
      intros k Hk Hk'. rewrite nth_accumulate.
      apply Nat.ltb_lt in Hk, Hk'. now rewrite Hk, Hk'.
    + intros [Hv|Hw]; [now rewrite Hv|].
      rewrite Hw. now rewrite andb_false_r.
Qed.

Lemma skip_policy_of_kernel_witness :
  demo_kernel 0 6 [9; 9; 9]%float
  = store_norm 2
      (integrate 2 4 2 demo_details demo_values demo_model demo_scattering
                 2 0.125%float 0 6 (seed 2 0 [9; 9; 9]%float)).
Proof.
  apply (skip_policy_of_kernel 2 4 2 demo_details demo_values demo_model
           demo_scattering 2 0.125%float (fun _ => False) 0 6
           [9; 9; 9]%float demo_well_formed).
  - apply plain_scratch.
  - cbv. repeat split; congruence.
Defined.

(** C10: with an empty slice [pd_start = pd_stop < num_eval] the loop nest
    still visits the cube point [pd_start], and only that one: the kernel
    applies the skip policy to it, so its weight and scattering are
    accumulated. *)
Theorem empty_slice_visits_one_point {F : Type} `{Arith F}
    (NUM_PARS : nat) (NUM_VALUES : Z) (MAX_PD : nat)
    (details : ProblemDetails) (values : memory F) (model : ModelKernel F)
    (scattering : nat -> block F -> F * block F) (nq : nat) (cutoff : F)
    (scratch : nat -> Prop) (pd_start : Z) (result : list F) :
  well_formed MAX_PD details ->
  scratch_only model scattering scratch ->
  0 <= pd_start < num_eval details ->
  visited_points NUM_PARS NUM_VALUES MAX_PD details values pd_start pd_start
  = [cube_point NUM_PARS NUM_VALUES MAX_PD details values pd_start]
  /\ kernel NUM_PARS NUM_VALUES MAX_PD details values pd_start pd_start
            model scattering nq cutoff result
     = store_norm nq
         (skip_policy model scattering nq cutoff
            (block_at NUM_PARS NUM_VALUES MAX_PD details values pd_start)
            (product_weight NUM_VALUES MAX_PD details values pd_start)
            (seed nq pd_start result)).
Proof.
  intros Hwf Hpure Hs. rewrite (wf_num_eval _ _ Hwf) in Hs.
  assert (Hhi : Z.max (pd_start + 1)
                  (Z.min pd_start (cube details MAX_PD)) = pd_start + 1)
    by lia.
  split.
  - unfold visited_points.
    rewrite (run_loops_spec NUM_PARS NUM_VALUES MAX_PD details values Hwf)
      by (auto; lia).
    rewrite Hhi, range_one. reflexivity.
  - rewrite (kernel_spec NUM_PARS NUM_VALUES MAX_PD details values model
               scattering nq cutoff Hwf scratch Hpure) by lia.
    rewrite Hhi. unfold integrate. now rewrite range_one.
Qed.

Lemma empty_slice_visits_one_point_witness :
  visited_points 2 4 2 demo_details demo_values 2 2
  = [cube_point 2 4 2 demo_details demo_values 2]
  /\ demo_kernel 2 2 [1; 2; 3]%float = [6.125; 7.375; 3.5]%float.
Proof.
  destruct (empty_slice_visits_one_point 2 4 2 demo_details demo_values
              demo_model demo_scattering 2 0.125%float (fun _ => False) 2
              [1; 2; 3]%float demo_well_formed
              (plain_scratch _ _ _ _ _ _)) as [Hv Hk].
  - cbv. split; congruence.
  - split; [exact Hv|]. vm_compute. reflexivity.
Defined.

(** ** Scenario E2 *)

Lemma e2_well_formed : well_formed 1 e2_details.
Proof.
  split.
  - intros [|d] Hd; cbv; [discriminate|lia].
  - reflexivity.
  - intros d Hd. lia.
  - reflexivity.
Qed.

(** A cutoff below 0.25 is below 0.5. *)
Lemma below_quarter_below_half (c : float) :
  PrimFloat.ltb c 0.25 = true -> PrimFloat.ltb c 0.5 = true.
Proof.
  rewrite !ltb_spec.
  replace (Prim2SF 0.25) with (S754_finite false 4503599627370496 (-54))
    by reflexivity.
  replace (Prim2SF 0.5) with (S754_finite false 4503599627370496 (-53))
    by reflexivity.
  unfold SFltb, SFcompare.
  destruct (Prim2SF c) as [s|s| |s m e]; auto.
  destruct s; auto.
  destruct (Z.compare_spec e (-54)) as [He|He|He];
    destruct (Z.compare_spec e (-53)) as [He'|He'|He']; auto; try lia.
  all: discriminate.
Qed.

(** C4 (scenario E2): [Iq(q,p) = p], one dimension of length 3 with values
    [1, 2, 3] and weights [0.25, 0.5, 0.25], [form_volume(p) = 1], no
    [INVALID], a cutoff below 0.25 and the full slice [(0, 3)]: in binary64
    arithmetic the kernel leaves [result[k] = 2.0] for every [k < nq] and
    [result[nq] = 1.0], for every [nq], every q vector and every previous
    content of the result buffer. *)
Theorem e2_polydisperse_sum (nq : nat) (scale background p : float)
    (q : memory float) (result : list float) (cutoff : float) :
  length result = S nq ->
  PrimFloat.ltb cutoff 0.25 = true ->
  e2_kernel nq 0 3 scale background p q result cutoff
  = repeat 2%float nq ++ [1%float].
Proof.
  intros Hlen Hcut.
  pose proof (below_quarter_below_half cutoff Hcut) as Hcut'.
  unfold e2_kernel, KERNEL_NAME, scattering_of. cbn [andb].
  rewrite (kernel_spec 1 3 1 e2_details (e2_values scale background p)
             e2_model _ nq cutoff e2_well_formed (fun _ => False)
             (plain_scratch _ _ _ _ _ _))
    by (cbv; split; congruence).
  replace (Z.max (0 + 1) (Z.min 3 (cube e2_details 1))) with 3
    by reflexivity.
  unfold integrate. replace (range 0 3) with [0; 1; 2] by reflexivity.
  cbn [fold_left]. unfold skip_policy, is_invalid.
  cbn [INVALID e2_model negb andb].
  replace (product_weight 3 1 e2_details (e2_values scale background p) 0)
    with 0.25%float by reflexivity.
  replace (product_weight 3 1 e2_details (e2_values scale background p) 1)
    with 0.5%float by reflexivity.
  replace (product_weight 3 1 e2_details (e2_values scale background p) 2)
    with 0.25%float by reflexivity.
  unfold fgtb. cbn [fltb float_arith]. rewrite Hcut, Hcut'.
  cbn [fst snd seed Z.eqb].
  replace (block_at 1 3 1 e2_details (e2_values scale background p) 0)
    with [1%float] by reflexivity.
  replace (block_at 1 3 1 e2_details (e2_values scale background p) 1)
    with [2%float] by reflexivity.
  replace (block_at 1 3 1 e2_details (e2_values scale background p) 2)
    with [3%float] by reflexivity.
  unfold store_norm. cbn [fst snd].
  apply (list_eq_nth _ _ f0).
  - rewrite upd_length, !accumulate_length, zero_result_length.
    rewrite length_app, repeat_length. simpl. lia.
  - intros j Hj.
    rewrite upd_length, !accumulate_length, zero_result_length in Hj.
    rewrite nth_upd, !accumulate_length, zero_result_length.
    destruct (Nat.eqb_spec j nq) as [->|Hne].
    + replace (nq <? length result)%nat with true
        by (symmetry; apply Nat.ltb_lt; lia).
      rewrite app_nth2 by (rewrite repeat_length; lia).
      rewrite repeat_length, Nat.sub_diag. reflexivity.
    + cbn [andb].
      rewrite !nth_accumulate, !accumulate_length, zero_result_length,
        nth_zero_result.
      replace (j <? nq)%nat with true by (symmetry; apply Nat.ltb_lt; lia).
      replace (j <? length result)%nat with true
        by (symmetry; apply Nat.ltb_lt; lia).
      cbn [andb].
      rewrite app_nth1 by (rewrite repeat_length; lia).
      rewrite nth_repeat_lt by lia. reflexivity.
Qed.

Lemma e2_polydisperse_sum_witness :
  e2_kernel 2 0 3 1 0 2.5 (pool [1; 2]%float) [7; 7; 7]%float 0.125
  = [2; 2; 1]%float.
Proof.
  apply (e2_polydisperse_sum 2 1 0 2.5 (pool [1; 2]%float) [7; 7; 7]%float
           0.125); reflexivity.
Defined.

(** ** The oriented symmetric view *)

(** [view_direct] hands [sqrt] of the radicand, as computed, to
    [CALL_IQ_AC]: there is no clamp in between. *)
Lemma view_direct_ac_unfold {F : Type} `{Arith F} (SINCOS : F -> F * F)
    (model : ModelKernel F) (qx qy theta phi : F) (table : block F) :
  view_direct_ac SINCOS model qx qy theta phi table
  = CALL_IQ_AC model
      (fsqrt (view_radicand SINCOS model qx qy theta phi table))
      (view_dqc SINCOS model qx qy theta phi table) table.
Proof.
  unfold view_direct_ac, view_radicand, view_dqc.
  destruct (SINCOS (theta * M_PI_180)%ar) as [s1 c1].
  destruct (SINCOS (phi * M_PI_180)%ar) as [s2 c2].
  destruct (SINCOS (table_theta model table * M_PI_180)%ar) as [s3 c3].
  destruct (SINCOS (table_phi model table * M_PI_180)%ar) as [s4 c4].
  reflexivity.
Qed.

(** C5, as stated, fails: at [(qx, qy) = (3, 3)], mean angles
    [(theta, phi) = (90, 45)] and zero jitter, the radicand computed in
    binary64 is negative, it is not clamped, and [Iqac] receives NaN as its
    first argument. *)
Lemma view_direct_passes_nan :
  PrimFloat.ltb
    (view_radicand libm_sincos first_argument_model 3%float 3%float
                   90%float 45%float [0; 0]%float) 0%float = true
  /\ PrimFloat.is_nan
       (view_direct_ac libm_sincos first_argument_model 3%float 3%float
                       90%float 45%float [0; 0]%float) = true.
Proof. split; vm_compute; reflexivity. Qed.

Section ExactView.
Local Open Scope R_scope.

Lemma sincos_square (x : R) : sin x * sin x + cos x * cos x = 1.
Proof. pose proof (sin2_cos2 x) as E. unfold Rsqr in E. exact E. Qed.

(** The radicand as a sum of squares. *)
Lemma radicand_sum_of_squares (qx qy s1 c1 s2 c2 s3 c3 s4 c4 : R) :
  s1 * s1 + c1 * c1 = 1 -> s2 * s2 + c2 * c2 = 1 ->
  s3 * s3 + c3 * c3 = 1 -> s4 * s4 + c4 * c4 = 1 ->
  let qa := qx * c2 * c1 + qy * s2 * c1 in
  let qb := - qx * s2 + qy * c2 in
  let qc := qx * s1 * c2 + qy * s2 * s1 in
  let dqc := qa * s3 - qb * s4 * c3 + qc * c4 * c3 in
  let A := qx * c2 + qy * s2 in
  - dqc * dqc + qx * qx + qy * qy
  = (A * A + qb * qb) * ((c1 * c4 * c3 - s1 * s3) * (c1 * c4 * c3 - s1 * s3))
    + (A * (s4 * c3) + qb * (c1 * s3 + s1 * c4 * c3))
      * (A * (s4 * c3) + qb * (c1 * s3 + s1 * c4 * c3)).
Proof.
  intros H1 H2 H3 H4 qa qb qc dqc A.
  assert (Eq : qx * qx + qy * qy = A * A + qb * qb).
  { subst A qb.
    transitivity ((qx * qx + qy * qy) * (s2 * s2 + c2 * c2));
      [rewrite H2; ring|ring]. }
  assert (Eone : (c1 * c1 + s1 * s1) * (s3 * s3 + c3 * c3 * (c4 * c4))
                 + c3 * c3 * (s4 * s4) = 1).
  { replace (c1 * c1 + s1 * s1) with 1 by (rewrite <- H1; ring).
    transitivity (s3 * s3 + c3 * c3 * (s4 * s4 + c4 * c4)); [ring|].
    rewrite H4, Rmult_1_r. exact H3. }
  assert (Edqc : dqc = A * (c1 * s3 + s1 * c4 * c3) - qb * (s4 * c3))
    by (subst dqc qa qc A qb; ring).
  transitivity ((A * A + qb * qb)
                * ((c1 * c1 + s1 * s1) * (s3 * s3 + c3 * c3 * (c4 * c4))
                   + c3 * c3 * (s4 * s4))
                - dqc * dqc).
  - rewrite Eone, <- Eq. ring.
  - rewrite Edqc. ring.
Qed.

(** C5, amended: [view_direct] computes [dqa] as
    [sqrt(-dqc*dqc + qx*qx + qy*qy)] and passes it, with no clamp, as the
    first argument of [Iqac].  In exact arithmetic, for every [(qx, qy)],
    mean angles and jitter angles, the radicand is not negative and [dqa]
    is the non-negative root with [dqa^2 + dqc^2 = qx^2 + qy^2]. *)
Theorem view_direct_radicand (model : ModelKernel R)
    (qx qy theta phi : R) (table : block R) :
  let dqc := view_dqc real_sincos model qx qy theta phi table in
  let radicand := view_radicand real_sincos model qx qy theta phi table in
  view_direct_ac real_sincos model qx qy theta phi table
  = CALL_IQ_AC model (sqrt radicand) dqc table
  /\ radicand = qx * qx + qy * qy - dqc * dqc
  /\ 0 <= radicand
  /\ 0 <= sqrt radicand
  /\ sqrt radicand * sqrt radicand + dqc * dqc = qx * qx + qy * qy.
Proof.
  intros dqc radicand.
  assert (Hrad : radicand = qx * qx + qy * qy - dqc * dqc)
    by (subst radicand dqc; unfold view_radicand; cbn [fadd fmul fneg real_arith]; ring).
  assert (Hpos : 0 <= radicand).
  { subst radicand. unfold view_radicand, view_dqc, real_sincos.
    cbn [fadd fsub fmul fneg M_PI_180 real_arith].
    rewrite (radicand_sum_of_squares qx qy
               (sin (theta * (PI / 180))) (cos (theta * (PI / 180)))
               (sin (phi * (PI / 180))) (cos (phi * (PI / 180)))
               (sin (table_theta model table * (PI / 180)))
               (cos (table_theta model table * (PI / 180)))
               (sin (table_phi model table * (PI / 180)))
               (cos (table_phi model table * (PI / 180))))
      by apply sincos_square.
    apply Rplus_le_le_0_compat.
    - apply Rmult_le_pos; [|apply Rle_0_sqr].
      apply Rplus_le_le_0_compat; apply Rle_0_sqr.
    - apply Rle_0_sqr. }
  split; [subst radicand dqc; rewrite view_direct_ac_unfold; reflexivity|].
  split; [exact Hrad|]. split; [exact Hpos|].
  split; [apply sqrt_pos|].
  rewrite sqrt_sqrt by exact Hpos. rewrite Hrad. ring.
Qed.

End ExactView.

(** ** Comparisons of binary64 values *)

Lemma SFcompare_antisym (x y : spec_float) :
  SFcompare y x = option_map CompOpp (SFcompare x y).
Proof.
  destruct x as [sx|sx| |sx mx ex], y as [sy|sy| |sy my ey];
    simpl; auto;
    try (destruct sx; reflexivity); try (destruct sy; reflexivity);
    try (destruct sx, sy; reflexivity).
  pose proof (Pos.compare_cont_antisym mx my Eq) as Hm. simpl in Hm.
  destruct sx, sy; simpl; auto;
    destruct (Z.compare_spec ex ey), (Z.compare_spec ey ex);
    simpl; auto; try lia;
    rewrite <- Hm; try rewrite CompOpp_involutive; reflexivity.
Qed.

(** [x <= y] excludes [y < x], on every pair of doubles. *)
Lemma leb_not_gt (x y : float) :
  PrimFloat.leb x y = true -> PrimFloat.ltb y x = false.
Proof.
  rewrite leb_spec, ltb_spec. unfold SFleb, SFltb.
  rewrite (SFcompare_antisym (Prim2SF x) (Prim2SF y)).
  destruct (SFcompare (Prim2SF x) (Prim2SF y)) as [[ | | ]|];
    simpl; congruence.
Qed.

Lemma not_lt_ge (x y : float) :
  PrimFloat.is_nan x = false -> PrimFloat.is_nan y = false ->
  PrimFloat.ltb x y = false -> PrimFloat.leb y x = true.
Proof.
  unfold PrimFloat.is_nan. rewrite !eqb_spec, leb_spec, ltb_spec.
  unfold SFleb, SFltb, SFeqb. rewrite (SFcompare_antisym (Prim2SF x) (Prim2SF y)).
  intros Hx Hy.
  assert (Hc : SFcompare (Prim2SF x) (Prim2SF y) <> None).
  { destruct (Prim2SF x) as [sx|sx| |sx mx ex],
             (Prim2SF y) as [sy|sy| |sy my ey];
      simpl in *; congruence. }
  destruct (SFcompare (Prim2SF x) (Prim2SF y)) as [[ | | ]|];
    simpl; congruence.
Qed.

(** ** Rounding inside the unit interval

    The operations of [set_spins] after the clamp, [1 - x], [x * y] and
    [sqrt x], keep a binary64 value in [0, 1]: rounding to nearest cannot
    leave the interval, whose ends are representable. *)

Ltac hide_powers :=
  repeat match goal with
  | |- context [2 ^ ?x] =>
      let a := fresh "a" in set (a := 2 ^ x) in *; clearbody a
  | H : context [2 ^ ?x] |- _ =>
      let a := fresh "a" in set (a := 2 ^ x) in *; clearbody a
  end.

Lemma digits2_pos_bounds (p : positive) :
  2 ^ (Z.pos (digits2_pos p) - 1) <= Z.pos p < 2 ^ Z.pos (digits2_pos p).
Proof.
  induction p as [p IH|p IH|]; cbn [digits2_pos].
  - rewrite Pos2Z.inj_succ, (Pos2Z.inj_xI p).
    replace (Z.succ (Z.pos (digits2_pos p)) - 1)
      with (Z.succ (Z.pos (digits2_pos p) - 1)) by lia.
    rewrite !Z.pow_succ_r by lia. hide_powers. lia.
  - rewrite Pos2Z.inj_succ, (Pos2Z.inj_xO p).
    replace (Z.succ (Z.pos (digits2_pos p)) - 1)
      with (Z.succ (Z.pos (digits2_pos p) - 1)) by lia.
    rewrite !Z.pow_succ_r by lia. hide_powers. lia.
  - simpl. lia.
Qed.

Lemma Zdigits2_le (m k : Z) :
  0 <= k -> 0 <= m <= 2 ^ k -> Zdigits2 m <= k + 1.
Proof.
  intros Hk [H0 Hm]. destruct m as [|p|p]; simpl; try lia.
  destruct (digits2_pos_bounds p) as [Hlo _].
  destruct (Z_le_gt_dec (Z.pos (digits2_pos p)) (k + 1)) as [|Hgt]; [assumption|].
  assert (H : 2 ^ (k + 1) <= 2 ^ (Z.pos (digits2_pos p) - 1))
    by (apply Z.pow_le_mono_r; lia).
  rewrite Z.pow_add_r in H by lia.
  assert (0 < 2 ^ k) by (apply Z.pow_pos_nonneg; lia). lia.
Qed.

Lemma fexp_unit (m e : Z) :
  e <= 0 -> 0 <= m <= 2 ^ (- e) ->
  fexp prec emax (Zdigits2 m + e) <= -52.
Proof.
  intros He Hm. pose proof (Zdigits2_le m (- e) ltac:(lia) Hm).
  unfold fexp, SpecFloat.emin, prec, emax. lia.
Qed.

Lemma shr_1_unit (mrs : shr_record) (e : Z) :
  e < 0 -> unit_shr mrs e -> unit_shr (shr_1 mrs) (e + 1).
Proof.
  intros He [Hm Hrs]. unfold unit_shr in *.
  replace (- e) with (Z.succ (- (e + 1))) in Hm, Hrs by lia.
  rewrite Z.pow_succ_r in Hm, Hrs by lia.
  assert (HB : 0 < 2 ^ (- (e + 1))) by (apply Z.pow_pos_nonneg; lia).
  destruct mrs as [m r s]. cbn [shr_m shr_r shr_s] in *.
  destruct m as [|[p|p|]|[p|p|]]; cbn [shr_1 shr_m shr_r shr_s];
    try rewrite (Pos2Z.inj_xI p) in *; try rewrite (Pos2Z.inj_xO p) in *;
    hide_powers; try lia; (split; [lia|]); intros Hor.
  rewrite orb_false_l in Hor. specialize (Hrs Hor). lia.
Qed.

Lemma iter_pos_nat {A : Type} (f : A -> A) (p : positive) (x : A) :
  SpecFloat.iter_pos f p x = Nat.iter (Pos.to_nat p) f x.
Proof.
  revert x; induction p as [p IH|p IH|]; intros x; cbn [SpecFloat.iter_pos].
  - rewrite !IH, Pos2Nat.inj_xI. 
    replace (S (2 * Pos.to_nat p))%nat with (Pos.to_nat p + S (Pos.to_nat p))%nat by lia.
    rewrite Nat.iter_add. f_equal. now rewrite Nat.iter_succ_r.
  - rewrite !IH, Pos2Nat.inj_xO.
    replace (2 * Pos.to_nat p)%nat with (Pos.to_nat p + Pos.to_nat p)%nat by lia.
    now rewrite Nat.iter_add.
  - reflexivity.
Qed.

Lemma iter_shr_1_unit (n : nat) (mrs : shr_record) (e : Z) :
  e + Z.of_nat n <= 0 -> unit_shr mrs e ->
  unit_shr (Nat.iter n shr_1 mrs) (e + Z.of_nat n).
Proof.
  induction n as [|n IH]; intros He H.
  - now rewrite Z.add_0_r.
  - cbn [Nat.iter nat_rect]. 
    replace (e + Z.of_nat (S n)) with (e + Z.of_nat n + 1) by lia.
    apply shr_1_unit; [lia|]. apply IH; [lia|assumption].
Qed.

Lemma shr_record_of_loc_m (m : Z) (l : location) :
  shr_m (shr_record_of_loc m l) = m.
Proof. destruct l as [|[ | | ]]; reflexivity. Qed.

Lemma shr_fexp_unit (m e : Z) (l : location) :
  e <= 0 -> unit_shr (shr_record_of_loc m l) e ->
  unit_shr (fst (shr_fexp prec emax m e l)) (snd (shr_fexp prec emax m e l))
  /\ snd (shr_fexp prec emax m e l) <= 0.
Proof.
  intros He H. unfold shr_fexp, shr.
  assert (Hm : 0 <= m <= 2 ^ (- e))
    by (destruct H as [H _]; now rewrite shr_record_of_loc_m in H).
  pose proof (fexp_unit m e He Hm) as Hf.
  destruct (fexp prec emax (Zdigits2 m + e) - e) as [|p|p] eqn:En;
    cbn [fst snd]; try (split; assumption).
  split; [|lia].
  rewrite iter_pos_nat. rewrite <- (positive_nat_Z p).
  apply iter_shr_1_unit; [rewrite positive_nat_Z; lia|assumption].
Qed.

Lemma round_nearest_even_unit (mrs : shr_record) (e : Z) :
  unit_shr mrs e ->
  0 <= round_nearest_even (shr_m mrs) (loc_of_shr_record mrs) <= 2 ^ (- e).
Proof.
  intros [Hm Hrs]. destruct mrs as [m [|] [|]];
    cbn [shr_m shr_r shr_s loc_of_shr_record round_nearest_even orb] in *;
    try specialize (Hrs eq_refl); try lia.
  destruct (Z.even m); lia.
Qed.

(** Rounding a value of the unit interval stays in the unit interval. *)
Lemma binary_round_aux_unit (m e : Z) (l : location) :
  e <= 0 -> 0 <= m <= 2 ^ (- e) -> (l <> loc_Exact -> m < 2 ^ (- e)) ->
  unit_sf (binary_round_aux prec emax false m e l).
Proof.
  intros He Hm Hl.
  assert (H0 : unit_shr (shr_record_of_loc m l) e).
  { split; [now rewrite shr_record_of_loc_m|].
    rewrite shr_record_of_loc_m. intros Hor. apply Hl. intros ->.
    discriminate Hor. }
  destruct (shr_fexp_unit m e l He H0) as [H1 He1].
  unfold binary_round_aux.
  destruct (shr_fexp prec emax m e l) as [mrs' e']. cbn [fst snd] in H1, He1.
  pose proof (round_nearest_even_unit mrs' e' H1) as Hr.
  set (mr := round_nearest_even (shr_m mrs') (loc_of_shr_record mrs')) in *.
  assert (H2 : unit_shr (shr_record_of_loc mr loc_Exact) e').
  { split; [exact Hr|]. intros Hor; discriminate Hor. }
  destruct (shr_fexp_unit mr e' loc_Exact He1 H2) as [[H3 _] He3].
  destruct (shr_fexp prec emax mr e' loc_Exact) as [mrs'' e''].
  cbn [fst snd] in H3, He3.
  destruct (shr_m mrs'') as [|p|p]; [exact I| |lia].
  replace (e'' <=? emax - prec) with true
    by (symmetry; apply Z.leb_le; unfold emax, prec; lia).
  split; [assumption|lia].
Qed.

Lemma pow2_pos (k : Z) : 0 <= k -> 0 < 2 ^ k.
Proof. intros; apply Z.pow_pos_nonneg; lia. Qed.

Lemma SFmul_unit (x y : spec_float) :
  unit_sf x -> unit_sf y -> unit_sf (SF64mul x y).
Proof.
  destruct x as [sx|sx| |[|] mx ex], y as [sy|sy| |[|] my ey];
    cbn [unit_sf]; try tauto.
  intros [Hex Hmx] [Hey Hmy]. unfold SF64mul, SFmul. cbn [xorb].
  apply binary_round_aux_unit; [lia| |congruence].
  replace (- (ex + ey)) with (- ex + - ey) by lia.
  rewrite Z.pow_add_r, Pos2Z.inj_mul by lia.
  split; [lia|]. apply Z.mul_le_mono_nonneg; lia.
Qed.

Lemma SFsqrt_unit (x : spec_float) : unit_sf x -> unit_sf (SF64sqrt x).
Proof.
  destruct x as [sx|sx| |[|] mx ex]; cbn [unit_sf]; try tauto.
  intros [Hex Hmx]. unfold SF64sqrt, SFsqrt, SFsqrt_core_binary.
  set (e' := Z.min (fexp prec emax (Z.div2 (Zdigits2 (Z.pos mx) + ex + 1)))
               (Z.div2 ex)).
  assert (He' : e' <= 0 /\ 2 * e' <= ex).
  { assert (Hd : Z.div2 ex <= 0 /\ 2 * Z.div2 ex <= ex).
    { rewrite Z.div2_div. pose proof (Z.div_mod ex 2 ltac:(lia)).
      pose proof (Z.mod_pos_bound ex 2 ltac:(lia)). lia. }
    unfold e'. lia. }
  set (m' := match ex - 2 * e' with
             | 0 => Z.pos mx
             | Z.pos _ => Z.shiftl (Z.pos mx) (ex - 2 * e')
             | Z.neg _ => 0
             end).
  assert (Hm' : m' = Z.pos mx * 2 ^ (ex - 2 * e')).
  { unfold m'. destruct (ex - 2 * e') as [|p|p] eqn:Es; [simpl; lia| |lia].
    rewrite Z.shiftl_mul_pow2 by lia. reflexivity. }
  assert (Hb : 0 <= m' <= 2 ^ (- e') * 2 ^ (- e')).
  { rewrite Hm', <- Z.pow_add_r by lia.
    replace (- e' + - e') with (- ex + (ex - 2 * e')) by lia.
    rewrite Z.pow_add_r by lia.
    pose proof (pow2_pos (ex - 2 * e') ltac:(lia)).
    split; [lia|]. apply Z.mul_le_mono_nonneg_r; lia. }
  pose proof (Z.sqrtrem_spec m' (proj1 Hb)) as Hs.
  pose proof (pow2_pos (- e') ltac:(lia)) as HB.
  clearbody m'. destruct (Z.sqrtrem m') as [q r]. destruct Hs as [Hq Hr].
  apply binary_round_aux_unit; [lia|nia|].
  destruct (Z.eqb_spec r 0) as [|Hr0]; [congruence|]. intros _. nia.
Qed.

Lemma iter_xO (m d : positive) :
  Z.pos (Pos.iter xO m d) = Z.pos m * 2 ^ Z.pos d.
Proof.
  induction d as [|d IH] using Pos.peano_ind.
  - simpl. lia.
  - rewrite Pos.iter_succ, Pos2Z.inj_succ, Z.pow_succ_r by lia.
    rewrite (Pos2Z.inj_xO (Pos.iter xO m d)), IH. lia.
Qed.

Lemma shl_align_spec (m : positive) (e ez : Z) :
  ez <= e ->
  Z.pos (fst (shl_align m e ez)) = Z.pos m * 2 ^ (e - ez)
  /\ snd (shl_align m e ez) = ez.
Proof.
  intros Hle. unfold shl_align.
  destruct (ez - e) as [|d|d] eqn:Ed; cbn [fst snd]; try lia.
  - replace (e - ez) with 0 by lia. simpl. lia.
  - rewrite iter_xO. replace (e - ez) with (Z.pos d) by lia. tauto.
Qed.

Lemma binary_round_unit (m : positive) (e : Z) :
  e <= 0 -> Z.pos m <= 2 ^ (- e) ->
  unit_sf (binary_round prec emax false m e).
Proof.
  intros He Hm. unfold binary_round.
  set (f := fexp prec emax (Z.pos (digits2_pos m) + e)).
  destruct (Z_le_gt_dec f e) as [Hf|Hf].
  - destruct (shl_align_spec m e f Hf) as [Hz He'].
    destruct (shl_align m e f) as [mz ez]. cbn [fst snd] in Hz, He'. subst ez.
    apply binary_round_aux_unit; [lia| |congruence].
    rewrite Hz. replace (- f) with (- e + (e - f)) by lia.
    rewrite Z.pow_add_r by lia.
    pose proof (pow2_pos (e - f) ltac:(lia)).
    split; [lia|]. apply Z.mul_le_mono_nonneg_r; lia.
  - unfold shl_align. destruct (f - e) as [|d|d] eqn:Ed; try lia;
      (apply binary_round_aux_unit; [lia|lia|congruence]).
Qed.

(** [1 - x] stays in the unit interval. *)
Lemma SFsub_unit (x : spec_float) :
  unit_sf x -> unit_sf (SF64sub (Prim2SF 1) x).
Proof.
  change (Prim2SF 1) with (S754_finite false 4503599627370496 (-52)).
  destruct x as [sx|sx| |[|] mx ex]; cbn [unit_sf]; try tauto.
  - intros _. unfold SF64sub, SFsub. cbn [unit_sf].
    split; [lia|]. vm_compute. congruence.
  - intros [Hex Hmx]. unfold SF64sub, SFsub. cbn [cond_Zopp].
    set (ez := Z.min (-52) ex).
    destruct (shl_align_spec 4503599627370496 (-52) ez ltac:(lia)) as [H1 _].
    destruct (shl_align_spec mx ex ez ltac:(lia)) as [H2 _].
    rewrite H1, H2.
    assert (Hone : 4503599627370496 * 2 ^ (-52 - ez) = 2 ^ (- ez)).
    { replace (- ez) with (52 + (-52 - ez)) by lia.
      rewrite Z.pow_add_r by lia. reflexivity. }
    assert (Hx : 0 < Z.pos mx * 2 ^ (ex - ez) <= 2 ^ (- ez)).
    { replace (- ez) with (- ex + (ex - ez)) by lia.
      rewrite Z.pow_add_r by lia.
      pose proof (pow2_pos (ex - ez) ltac:(lia)).
      split; [lia|]. apply Z.mul_le_mono_nonneg_r; lia. }
    rewrite Hone.
    destruct (2 ^ (- ez) - Z.pos mx * 2 ^ (ex - ez)) as [|d|d] eqn:Ed;
      cbn [binary_normalize unit_sf]; [exact I| |lia].
    apply binary_round_unit; lia.
Qed.

Lemma canonical_digits (m : positive) (e : Z) :
  canonical_mantissa prec emax m e = true ->
  Z.pos (digits2_pos m) <= 53
  /\ (-1074 < e -> Z.pos (digits2_pos m) = 53).
Proof.
  unfold canonical_mantissa, fexp, SpecFloat.emin, prec, emax.
  intros H. apply Z.eqb_eq in H. lia.
Qed.

Lemma compare_cont_le (m n : positive) :
  Z.pos m <= Z.pos n <->
  (Pos.compare_cont Eq m n = Lt \/ Pos.compare_cont Eq m n = Eq).
Proof.
  change (Pos.compare_cont Eq m n) with (Pos.compare m n).
  destruct (Pos.compare_spec m n); split; intros; try lia; try tauto;
    destruct H0; congruence.
Qed.

(** A double between [0.0] and [1.0] has its value in the unit interval,
    and conversely. *)
Lemma unit_of_leb (x : float) :
  PrimFloat.leb 0 x = true -> PrimFloat.leb x 1 = true ->
  unit_sf (Prim2SF x).
Proof.
  rewrite !leb_spec. pose proof (Prim2SF_valid x) as Hv.
  change (Prim2SF 1) with (S754_finite false 4503599627370496 (-52)).
  change (Prim2SF 0) with (S754_zero false).
  destruct (Prim2SF x) as [sx|sx| |sx mx ex]; unfold SFleb;
    cbn [SFcompare unit_sf]; try (destruct sx; discriminate); try discriminate;
    [tauto|].
  destruct sx; [discriminate|]. intros _.
  cbn [valid_binary] in Hv. unfold bounded in Hv.
  apply andb_true_iff in Hv. destruct Hv as [Hc _].
  destruct (canonical_digits mx ex Hc) as [Hd _].
  destruct (digits2_pos_bounds mx) as [_ Hhi].
  destruct (Z.compare_spec ex (-52)) as [He|He|He]; try discriminate.
  - subst ex. intros H. split; [lia|].
    change (2 ^ (- -52)) with (Z.pos 4503599627370496).
    apply compare_cont_le.
    destruct (Pos.compare_cont Eq mx 4503599627370496); auto; discriminate.
  - intros _. split; [lia|].
    assert (2 ^ Z.pos (digits2_pos mx) <= 2 ^ (- ex))
      by (apply Z.pow_le_mono_r; lia).
    lia.
Qed.

Lemma leb_of_unit (x : float) :
  unit_sf (Prim2SF x) -> in_unit_interval x.
Proof.
  unfold in_unit_interval, PrimFloat.is_nan. rewrite !leb_spec, eqb_spec.
  pose proof (Prim2SF_valid x) as Hv.
  change (Prim2SF 1) with (S754_finite false 4503599627370496 (-52)).
  change (Prim2SF 0) with (S754_zero false).
  destruct (Prim2SF x) as [sx|sx| |[|] mx ex]; unfold SFleb, SFeqb;
    cbn [SFcompare unit_sf]; try tauto.
  intros [Hex Hmx].
  cbn [valid_binary] in Hv. unfold bounded in Hv.
  apply andb_true_iff in Hv. destruct Hv as [Hc _].
  destruct (canonical_digits mx ex Hc) as [_ Hd].
  destruct (digits2_pos_bounds mx) as [Hlo _].
  rewrite Z.compare_refl.
  change (Pos.compare_cont Eq mx mx) with (Pos.compare mx mx).
  rewrite Pos.compare_refl.
  split; [reflexivity|]. split; [|reflexivity].
  destruct (Z.compare_spec ex (-52)) as [He|He|He]; [|reflexivity|].
  - subst ex. change (2 ^ (- -52)) with (Z.pos 4503599627370496) in Hmx.
    apply compare_cont_le in Hmx. destruct Hmx as [-> | ->]; reflexivity.
  - exfalso. rewrite Hd in Hlo by lia.
    assert (2 ^ (- ex) <= 2 ^ 51) by (apply Z.pow_le_mono_r; lia).
    change (2 ^ (53 - 1)) with (2 * 2 ^ 51) in Hlo.
    pose proof (pow2_pos 51 ltac:(lia)). lia.
Qed.

Lemma unit_one_minus (x : float) :
  unit_sf (Prim2SF x) -> unit_sf (Prim2SF (1 - x)).
Proof. intros H. rewrite sub_spec. now apply SFsub_unit. Qed.

Lemma unit_fourth_root (x y : float) :
  unit_sf (Prim2SF x) -> unit_sf (Prim2SF y) ->
  in_unit_interval (PrimFloat.sqrt (PrimFloat.sqrt (x * y))).
Proof.
  intros Hx Hy. apply leb_of_unit. rewrite !sqrt_spec, mul_spec.
  now apply SFsqrt_unit, SFsqrt_unit, SFmul_unit.
Qed.

(** ** The magnetic mixer *)

(** C6, as stated, fails: [clip] hands a NaN fraction through, since both
    of its comparisons are false on NaN, and the four weights are NaN. *)
Lemma set_spins_of_nan :
  map PrimFloat.is_nan (set_spins nan 0.5%float) = [true; true; true; true].
Proof. vm_compute. reflexivity. Qed.

(** Fractions outside [0, 1] are clamped. *)
Lemma set_spins_out_of_range :
  set_spins (-0.5)%float 1.5%float = [0; 1; 0; 0]%float.
Proof. vm_compute. reflexivity. Qed.

(** In binary64, [clip x 0 1] lies in [0, 1] unless [x] is NaN. *)
Lemma clip_unit_interval (x : float) :
  PrimFloat.is_nan x = false ->
  PrimFloat.leb 0 (clip x 0%float 1%float) = true
  /\ PrimFloat.leb (clip x 0%float 1%float) 1 = true.
Proof.
  intros Hx. unfold clip, fgtb. cbn [fltb float_arith].
  destruct (PrimFloat.ltb x 0) eqn:Hlo; [split; reflexivity|].
  destruct (PrimFloat.ltb 1 x) eqn:Hhi; [split; reflexivity|].
  split; apply not_lt_ge; auto.
Qed.

Lemma fold_left_filter {A B : Type} (P : B -> bool) (g : A -> B -> A)
    (l : list B) (a : A) :
  fold_left (fun s i => if P i then g s i else s) l a
  = fold_left g (filter P l) a.
Proof.
  revert a; induction l as [|i l IH]; intros a; [reflexivity|].
  cbn [fold_left filter]. destruct (P i); cbn [fold_left]; apply IH.
Qed.

(** C8: in the magnetic kernel, in binary64, at a q point with
    [qsq = qx^2 + qy^2 <= 1e-16] the scattering is exactly [0.0], no spin
    cross-section is evaluated and the parameter block is left as it is;
    at a q point with [qsq > 1e-16] the cross-sections that are evaluated
    are exactly those with [spins[index] > 1e-8], in increasing order of
    [index]. *)
Theorem magnetic_zero_q (SINCOS : float -> float * float)
    (model : ModelKernel float) (NUM_PARS : nat) (details : ProblemDetails)
    (values q : memory float) (dsp : dispatch) (NUM_MAGNETIC : nat)
    (slds : list Z) (q_index : nat) (lv : block float) :
  let qx := q (2 * Z.of_nat q_index) in
  let qy := q (2 * Z.of_nat q_index + 1) in
  let qsq := (qx * qx + qy * qy)%float in
  (PrimFloat.leb qsq lit_1em16 = true ->
   scattering_magnetic SINCOS model NUM_PARS details values q dsp
     NUM_MAGNETIC slds q_index lv = (0%float, lv))
  /\ (PrimFloat.ltb lit_1em16 qsq = true ->
      scattering_magnetic SINCOS model NUM_PARS details values q dsp
        NUM_MAGNETIC slds q_index lv
      = fold_left
          (spin_section SINCOS model NUM_PARS details values dsp
             NUM_MAGNETIC slds qx qy qsq
             (polarization SINCOS NUM_PARS values qx qy qsq))
          (evaluated_spins NUM_PARS values) (0%float, lv)).
Proof.
  intros qx qy qsq. unfold scattering_magnetic, fgtb.
  cbn [fltb fadd fmul f0 float_arith]. fold qx qy qsq. split.
  - intros Hle. now rewrite (leb_not_gt _ _ Hle).
  - intros Hgt. rewrite Hgt. unfold evaluated_spins.
    rewrite <- fold_left_filter. reflexivity.
Qed.

Lemma magnetic_zero_q_witness :
  mag_scattering 0 [4; 10]%float = (0%float, [4; 10]%float)
  /\ evaluated_spins 2 mag_values = [0; 1; 2; 3]%nat.
Proof.
  split.
  - apply (magnetic_zero_q libm_sincos mag_model 2 mag_details mag_values
             mag_q D_IQ_A 1 [0] 0 [4; 10]%float).
    reflexivity.
  - reflexivity.
Defined.

(** Inside [0, 1] the clamp is the identity. *)
Lemma clip_inside (x : float) :
  PrimFloat.leb 0 x = true -> PrimFloat.leb x 1 = true ->
  clip x 0%float 1%float = x.
Proof.
  intros H0 H1. unfold clip, fgtb. cbn [fltb float_arith].
  now rewrite (leb_not_gt _ _ H0), (leb_not_gt _ _ H1).
Qed.

Section ExactSpins.
Local Open Scope R_scope.

Lemma clip_real (x : R) :
  0 <= clip x 0 1 <= 1 /\ (0 <= x <= 1 -> clip x 0 1 = x).
Proof.
  unfold clip, fgtb. cbn [fltb real_arith].
  destruct (Rlt_dec x 0); [lra|]. destruct (Rlt_dec 1 x); lra.
Qed.

Lemma fourth_root_unit (x : R) : 0 <= x <= 1 -> 0 <= sqrt (sqrt x) <= 1.
Proof.
  intros [H0 H1].
  assert (Hs : 0 <= sqrt x <= 1).
  { split; [apply sqrt_pos|]. rewrite <- sqrt_1. now apply sqrt_le_1_alt. }
  split; [apply sqrt_pos|]. rewrite <- sqrt_1. apply sqrt_le_1_alt. lra.
Qed.

(** In exact arithmetic the four weights are the fourth roots of
    [(1-i)(1-f)], [(1-i)f], [i(1-f)] and [i f] of the clamped fractions
    [i] and [f], and every radicand and every weight lies in [0, 1]. *)
Lemma set_spins_exact (in_spin out_spin : R) :
  let i := clip in_spin 0 1 in
  let f := clip out_spin 0 1 in
  0 <= i <= 1 /\ 0 <= f <= 1
  /\ (0 <= in_spin <= 1 -> i = in_spin)
  /\ (0 <= out_spin <= 1 -> f = out_spin)
  /\ set_spins in_spin out_spin
     = [sqrt (sqrt ((1 - i) * (1 - f))); sqrt (sqrt ((1 - i) * f));
        sqrt (sqrt (i * (1 - f))); sqrt (sqrt (i * f))]
  /\ Forall (fun x => 0 <= x <= 1)
       [(1 - i) * (1 - f); (1 - i) * f; i * (1 - f); i * f]
  /\ Forall (fun s => 0 <= s <= 1) (set_spins in_spin out_spin).
Proof.
  intros i f.
  destruct (clip_real in_spin) as [Hi Hi'].
  destruct (clip_real out_spin) as [Hf Hf'].
  fold i in Hi, Hi'. fold f in Hf, Hf'.
  assert (Hrad : Forall (fun x => 0 <= x <= 1)
                   [(1 - i) * (1 - f); (1 - i) * f; i * (1 - f); i * f])
    by (repeat (apply Forall_cons; [nra|]); apply Forall_nil).
  split; [exact Hi|]. split; [exact Hf|]. split; [exact Hi'|].
  split; [exact Hf'|]. split; [reflexivity|]. split; [exact Hrad|].
  unfold set_spins. fold i f. cbn [fsqrt fmul fsub f1 real_arith].
  inversion Hrad as [|? ? H1 Hr1]; subst.
  inversion Hr1 as [|? ? H2 Hr2]; subst.
  inversion Hr2 as [|? ? H3 Hr3]; subst.
  inversion Hr3 as [|? ? H4 _]; subst.
  repeat (apply Forall_cons; [now apply fourth_root_unit|]).
  apply Forall_nil.
Qed.

End ExactSpins.

(** C6, amended: in binary64, for every pair of fractions that are not
    NaN, also infinite or outside [0, 1], [set_spins] first clamps both to
    [0, 1] (leaving a fraction of [0, 1] as it is) and then computes
    [dd], [du], [ud], [uu] as the fourth roots of [(1-i)(1-f)], [(1-i)f],
    [i(1-f)] and [i f] of the clamped fractions [i] and [f]; every weight
    lies in [0, 1] and none is NaN. *)
Theorem set_spins_clamped (in_spin out_spin : float) :
  PrimFloat.is_nan in_spin = false ->
  PrimFloat.is_nan out_spin = false ->
  let i := clip in_spin 0%float 1%float in
  let f := clip out_spin 0%float 1%float in
  in_unit_interval i /\ in_unit_interval f
  /\ (PrimFloat.leb 0 in_spin = true -> PrimFloat.leb in_spin 1 = true ->
      i = in_spin)
  /\ (PrimFloat.leb 0 out_spin = true -> PrimFloat.leb out_spin 1 = true ->
      f = out_spin)
  /\ set_spins in_spin out_spin
     = [PrimFloat.sqrt (PrimFloat.sqrt ((1 - i) * (1 - f)));
        PrimFloat.sqrt (PrimFloat.sqrt ((1 - i) * f));
        PrimFloat.sqrt (PrimFloat.sqrt (i * (1 - f)));
        PrimFloat.sqrt (PrimFloat.sqrt (i * f))]%float
  /\ Forall in_unit_interval (set_spins in_spin out_spin).
Proof.
  intros Hi Hf i f.
  destruct (clip_unit_interval in_spin Hi) as [Hi0 Hi1].
  destruct (clip_unit_interval out_spin Hf) as [Hf0 Hf1].
  fold i in Hi0, Hi1. fold f in Hf0, Hf1.
  pose proof (unit_of_leb i Hi0 Hi1) as Ui.
  pose proof (unit_of_leb f Hf0 Hf1) as Uf.
  pose proof (unit_one_minus i Ui) as Ui'.
  pose proof (unit_one_minus f Uf) as Uf'.
  split; [now apply leb_of_unit|]. split; [now apply leb_of_unit|].
  split; [apply clip_inside|]. split; [apply clip_inside|].
  split; [reflexivity|].
  unfold set_spins. fold i f. cbn [fsqrt fmul fsub f1 float_arith].
  repeat (apply Forall_cons; [now apply unit_fourth_root|]).
  apply Forall_nil.
Qed.

Lemma set_spins_clamped_witness :
  Forall in_unit_interval (set_spins (-0.5)%float infinity).
Proof.
  apply (set_spins_clamped (-0.5)%float infinity); reflexivity.
Defined.

(** ** The multilayer vesicle kernel *)

Lemma range_cons (lo hi : Z) : lo < hi -> range lo hi = lo :: range (lo + 1) hi.
Proof.
  intros Hlt. rewrite (range_app lo (lo + 1) hi) by lia.
  now rewrite range_one.
Qed.

Section VesicleLoop.
Context {F : Type} `{Arith F}.
Variable sph_j1c : F -> F.
Variables q radius thick_shell thick_solvent sldi : F.
Variable n_pairs : Z.

(** The [do ... while] loop adds the pairs [ii .. n_pairs-1] and leaves in
    [voli] the volume of the outer layer of the last pair; the fuel it is
    given is what it uses. *)
Lemma pair_loop_spec (fuel : nat) :
  forall (ii : Z) (fval voli : F),
  Z.of_nat fuel = n_pairs - 1 - ii ->
  Vesicle.pair_loop sph_j1c q radius thick_shell thick_solvent sldi n_pairs
    fuel (ii, fval, voli)
  = (n_pairs,
     fold_left
       (Vesicle.add_pair sph_j1c q radius thick_shell thick_solvent sldi)
       (range ii n_pairs) fval,
     Vesicle.layer_volume
       (Vesicle.inner_radius radius thick_shell thick_solvent (n_pairs - 1)
        + thick_shell)%ar).
Proof.
  induction fuel as [|fuel IH]; intros ii fval voli Hfuel.
  - cbn [Vesicle.pair_loop]. unfold Vesicle.pair_step.
    replace (n_pairs - 1) with ii by lia.
    replace n_pairs with (ii + 1) by lia.
    rewrite range_one. reflexivity.
  - cbn [Vesicle.pair_loop]. unfold Vesicle.pair_step at 1 2.
    cbn [fst].
    destruct (Z.leb_spec (ii + 1) (n_pairs - 1)) as [_|Hgt]; [|lia].
    unfold Vesicle.pair_step.
    rewrite IH by lia. rewrite (range_cons ii n_pairs) by lia.
    reflexivity.
Qed.

End VesicleLoop.

(** C9: for [n_pairs = (int)(fp_n_pairs + 0.5) >= 1], the loop leaves in
    [fval] the alternating sum [S] over the [n_pairs] shell pairs and in
    [voli] the volume of the outermost layer, whose radius is the one
    reached after the last [ri += thick_shell], and [Iq] returns
    [S * (volfraction * 1e-4 * S / voli)], in any arithmetic; in exact
    arithmetic this is [volfraction * 1e-4 * S^2 / voli] with
    [voli = (4 pi / 3) ro^3] and
    [ro = radius + n_pairs * thick_shell + (n_pairs - 1) * thick_solvent]. *)
Theorem vesicle_final_scaling :
  (forall (F : Type) (A : Arith F) (sph_j1c : F -> F)
          (q volfraction radius thick_shell thick_solvent sld_solvent sld
             fp_n_pairs : F) (n_pairs : Z),
     to_int (fp_n_pairs + lit_0p5)%ar = n_pairs ->
     1 <= n_pairs ->
     let S := Vesicle.shell_sum sph_j1c q radius thick_shell thick_solvent
                (sld_solvent - sld)%ar n_pairs in
     let voli := Vesicle.layer_volume
                   (Vesicle.inner_radius radius thick_shell thick_solvent
                      (n_pairs - 1) + thick_shell)%ar in
     Vesicle.layers sph_j1c q radius thick_shell thick_solvent sld_solvent
                    sld n_pairs = (n_pairs, S, voli)
     /\ Vesicle.Iq sph_j1c q volfraction radius thick_shell thick_solvent
                   sld_solvent sld fp_n_pairs
        = (S * (volfraction * lit_1em4 * S / voli))%ar)
  /\ (forall (sph_j1c : R -> R)
             (q volfraction radius thick_shell thick_solvent sld_solvent
                sld : R) (n_pairs : Z),
        1 <= n_pairs ->
        let S := Vesicle.shell_sum sph_j1c q radius thick_shell
                   thick_solvent (sld_solvent - sld)%R n_pairs in
        let ro := (radius + IZR n_pairs * thick_shell
                   + IZR (n_pairs - 1) * thick_solvent)%R in
        Vesicle.multilayer_vesicle_kernel sph_j1c q volfraction radius
          thick_shell thick_solvent sld_solvent sld n_pairs
        = (volfraction * (1 / 10000) * (S * S)
           / (4 * PI / 3 * (ro * ro * ro)))%R).
Proof.
  assert (Hlayers : forall (F : Type) (A : Arith F) (sph_j1c : F -> F)
            (q radius thick_shell thick_solvent sld_solvent sld : F)
            (n_pairs : Z),
            1 <= n_pairs ->
            Vesicle.layers sph_j1c q radius thick_shell thick_solvent
                           sld_solvent sld n_pairs
            = (n_pairs,
               Vesicle.shell_sum sph_j1c q radius thick_shell thick_solvent
                 (sld_solvent - sld)%ar n_pairs,
               Vesicle.layer_volume
                 (Vesicle.inner_radius radius thick_shell thick_solvent
                    (n_pairs - 1) + thick_shell)%ar)).
  { intros F A sph_j1c q radius thick_shell thick_solvent sld_solvent sld
      n_pairs Hn.
    unfold Vesicle.layers. rewrite pair_loop_spec by lia. reflexivity. }
  split.
  - intros F A sph_j1c q volfraction radius thick_shell thick_solvent
      sld_solvent sld fp_n_pairs n_pairs Hround Hn S voli.
    split; [now apply Hlayers|].
    unfold Vesicle.Iq, Vesicle.multilayer_vesicle_kernel.
    rewrite Hround, Hlayers by exact Hn. reflexivity.
  - intros sph_j1c q volfraction radius thick_shell thick_solvent
      sld_solvent sld n_pairs Hn S ro.
    unfold Vesicle.multilayer_vesicle_kernel.
    rewrite Hlayers by exact Hn. fold S.
    unfold Vesicle.layer_volume, Vesicle.inner_radius.
    cbn [fadd fmul fdiv of_int lit_1em4 M_4PI_3 real_arith].
    replace (radius + IZR (n_pairs - 1) * (thick_shell + thick_solvent)
             + thick_shell)%R with ro
      by (subst ro; rewrite minus_IZR; ring).
    unfold Rdiv.
    replace (4 * PI * / 3 * ro * ro * ro)%R
      with (4 * PI * / 3 * (ro * ro * ro))%R by ring.
    subst S. cbn [fsub real_arith]. ring.
Qed.

Lemma vesicle_final_scaling_witness :
  Vesicle.Iq (fun x : float => x) 0.5%float 1%float 2%float 0.25%float
             0.5%float 3%float 1%float 2.25%float
  = (let S := Vesicle.shell_sum (fun x : float => x) 0.5%float 2%float
               0.25%float 0.5%float (3 - 1)%float 2 in
     S * (1 * lit_1em4 * S
          / Vesicle.layer_volume
              (Vesicle.inner_radius 2%float 0.25%float 0.5%float 1
               + 0.25)%float))%float.
Proof.
  apply (proj1 vesicle_final_scaling float float_arith (fun x => x)
           0.5%float 1%float 2%float 0.25%float 0.5%float 3%float 1%float
           2.25%float 2).
  - reflexivity.
  - lia.
Defined.

(** ** Scaling the weights *)

(** C7, as stated, fails in binary64: with the weights of E2 multiplied by
    [c = 3] (exactly representable) the kernel leaves [result[0] = 1.8],
    while [3 * result[0]] of the unscaled run is [1.7999999999999998]; the
    same points pass the cutoff in both runs. *)
Lemma scaled_weights_round :
  scaled_kernel 1 = [0x1.3333333333333p-1; 1]%float
  /\ scaled_kernel 3 = [0x1.ccccccccccccdp+0; 3]%float
  /\ (3 * nth 0 (scaled_kernel 1) 0%float = 0x1.cccccccccccccp+0)%float
  /\ PrimFloat.eqb (nth 0 (scaled_kernel 3) 0%float)
                   (3 * nth 0 (scaled_kernel 1) 0%float) = false.
Proof. repeat split; vm_compute; reflexivity. Qed.

Section ExactWeights.
Local Open Scope R_scope.

Variable NUM_PARS : nat.
Variable NUM_VALUES : Z.
Variable MAX_PD : nat.
Variable details : ProblemDetails.
Variables values values' : memory R.
Variable model : ModelKernel R.
Variable scattering : nat -> block R -> R * block R.
Variable nq : nat.
Variables cutoff cutoff' : R.
Variable c : R.

Hypothesis Hwf : well_formed MAX_PD details.
Hypothesis Hactive : (0 <= num_active details <= Z.of_nat MAX_PD)%Z.
Hypothesis Hload : load_params NUM_PARS values' = load_params NUM_PARS values.
Hypothesis Hvalue : forall d i,
  (d < MAX_PD)%nat -> (0 <= i < level_length details d)%Z ->
  level_value NUM_VALUES details values' d i
  = level_value NUM_VALUES details values d i.
Hypothesis Hweight : forall d i,
  (d < MAX_PD)%nat -> (0 <= i < level_length details d)%Z ->
  level_weight NUM_VALUES details values' d i
  = if (Z.of_nat d <? num_active details)%Z
    then c * level_weight NUM_VALUES details values d i
    else level_weight NUM_VALUES details values d i.

Lemma fold_right_mult_init (l : list R) (a : R) :
  fold_right Rmult a l = fold_right Rmult 1 l * a.
Proof. induction l as [|x l IH]; simpl; [ring|]. rewrite IH. ring. Qed.

Lemma block_at_scaled (u : Z) :
  block_at NUM_PARS NUM_VALUES MAX_PD details values' u
  = block_at NUM_PARS NUM_VALUES MAX_PD details values u.
Proof.
  unfold block_at, write_levels. rewrite Hload.
  apply fold_left_ext_in. intros b d Hd.
  apply in_rev, in_seq in Hd. rewrite Hvalue; auto; [lia|].
  apply (digit_bounds MAX_PD details (wf_length _ _ Hwf)). lia.
Qed.

Lemma product_weight_scaled_upto (u : Z) (k : nat) :
  (k <= MAX_PD)%nat ->
  fold_right Rmult 1
    (map (fun d => level_weight NUM_VALUES details values' d
                     (digit details d u)) (seq 0 k))
  = c ^ Nat.min k (Z.to_nat (num_active details))
    * fold_right Rmult 1
        (map (fun d => level_weight NUM_VALUES details values d
                         (digit details d u)) (seq 0 k)).
Proof.
  induction k as [|k IH]; intros Hk; [simpl; ring|].
  rewrite !seq_S, !map_app, !fold_right_app. cbn [map fold_right Nat.add].
  rewrite (fold_right_mult_init _ (_ * 1)).
  rewrite (fold_right_mult_init _ (level_weight _ _ values _ _ * 1)).
  rewrite IH by lia.
  rewrite Hweight
    by (try lia; apply (digit_bounds MAX_PD details (wf_length _ _ Hwf));
        lia).
  destruct (Z.ltb_spec (Z.of_nat k) (num_active details)) as [Hlt|Hge].
  - replace (Nat.min (S k) (Z.to_nat (num_active details)))
      with (S (Nat.min k (Z.to_nat (num_active details)))) by lia.
    simpl. ring.
  - replace (Nat.min (S k) (Z.to_nat (num_active details)))
      with (Nat.min k (Z.to_nat (num_active details))) by lia.
    ring.
Qed.

Lemma product_weight_scaled (u : Z) :
  product_weight NUM_VALUES MAX_PD details values' u
  = c ^ Z.to_nat (num_active details)
    * product_weight NUM_VALUES MAX_PD details values u.
Proof.
  unfold product_weight. cbn [fmul f1 real_arith].
  rewrite (product_weight_scaled_upto u MAX_PD (le_n _)).
  now replace (Nat.min MAX_PD (Z.to_nat (num_active details)))
    with (Z.to_nat (num_active details)) by lia.
Qed.

Hypothesis Hcut : forall u, (0 <= u < num_eval details)%Z ->
  fgtb (product_weight NUM_VALUES MAX_PD details values' u) cutoff'
  = fgtb (product_weight NUM_VALUES MAX_PD details values u) cutoff.

Local Abbreviation scale := (c ^ Z.to_nat (num_active details)).

(** One cube point keeps the scaled accumulators scaled. *)
Lemma skip_policy_scaled (u : Z) (a a' : R * list R) :
  (0 <= u < num_eval details)%Z ->
  fst a' = scale * fst a ->
  length (snd a') = length (snd a) ->
  (forall j, (j < nq)%nat -> nth j (snd a') 0 = scale * nth j (snd a) 0) ->
  let b := skip_policy model scattering nq cutoff
             (block_at NUM_PARS NUM_VALUES MAX_PD details values u)
             (product_weight NUM_VALUES MAX_PD details values u) a in
  let b' := skip_policy model scattering nq cutoff'
              (block_at NUM_PARS NUM_VALUES MAX_PD details values' u)
              (product_weight NUM_VALUES MAX_PD details values' u) a' in
  fst b' = scale * fst b
  /\ length (snd b') = length (snd b)
  /\ (forall j, (j < nq)%nat -> nth j (snd b') 0 = scale * nth j (snd b) 0).
Proof.
  intros Hu Hn Hl Hr b b'. subst b b'. unfold skip_policy.
  rewrite block_at_scaled, (Hcut u Hu).
  destruct (negb (is_invalid model _) && fgtb _ cutoff); [|auto].
  cbn [fst snd fadd fmul real_arith].
  rewrite product_weight_scaled, Hn.
  split; [ring|]. split; [now rewrite !accumulate_length|].
  intros j Hj. specialize (Hr j Hj).
  change 0 with (f0 (F := R)) in Hr |- *.
  rewrite !nth_accumulate, Hl, Hr. cbn [f0 fadd fmul real_arith].
  destruct ((j <? nq)%nat && (j <? length (snd a))%nat); ring.
Qed.

Lemma integrate_scaled (l : list Z) :
  forall a a' : R * list R,
  (forall u, In u l -> (0 <= u < num_eval details)%Z) ->
  fst a' = scale * fst a ->
  length (snd a') = length (snd a) ->
  (forall j, (j < nq)%nat -> nth j (snd a') 0 = scale * nth j (snd a) 0) ->
  let b := fold_left
             (fun a u =>
                skip_policy model scattering nq cutoff
                  (block_at NUM_PARS NUM_VALUES MAX_PD details values u)
                  (product_weight NUM_VALUES MAX_PD details values u) a)
             l a in
  let b' := fold_left
              (fun a u =>
                 skip_policy model scattering nq cutoff'
                   (block_at NUM_PARS NUM_VALUES MAX_PD details values' u)
                   (product_weight NUM_VALUES MAX_PD details values' u) a)
              l a' in
  fst b' = scale * fst b
  /\ length (snd b') = length (snd b)
  /\ (forall j, (j < nq)%nat -> nth j (snd b') 0 = scale * nth j (snd b) 0).
Proof.
  induction l as [|u l IH]; intros a a' Hin Hn Hl Hr; [now cbn|].
  cbn [fold_left].
  destruct (skip_policy_scaled u a a' (Hin u (or_introl eq_refl)) Hn Hl Hr)
    as [Hn' [Hl' Hr']].
  apply IH; auto. intros v Hv. apply Hin. now right.
Qed.

End ExactWeights.

(** C7, amended: in exact arithmetic, multiplying every weight of the
    [num_active] active dimensions by a constant [c > 0], with cutoffs
    under which the same cube points pass the cutoff test, multiplies
    every [result[k]], [k < nq], and the denominator [result[nq]] by
    [c^num_active], and leaves the ratio [result[k] / result[nq]] as it
    is.  (In binary64 the two runs round their sums separately and agree
    up to rounding only.) *)
Theorem weight_linearity
    (NUM_PARS : nat) (NUM_VALUES : Z) (MAX_PD : nat)
    (details : ProblemDetails) (values values' : memory R)
    (model : ModelKernel R) (scattering : nat -> block R -> R * block R)
    (scratch : nat -> Prop) (nq : nat) (cutoff cutoff' c : R) (pd_stop : Z)
    (result : list R) :
  well_formed MAX_PD details ->
  scratch_only model scattering scratch ->
  (0 <= num_active details <= Z.of_nat MAX_PD)%Z ->
  (0 < pd_stop <= num_eval details)%Z ->
  length result = S nq ->
  (0 < c)%R ->
  load_params NUM_PARS values' = load_params NUM_PARS values ->
  (forall d i, (d < MAX_PD)%nat -> (0 <= i < level_length details d)%Z ->
     level_value NUM_VALUES details values' d i
     = level_value NUM_VALUES details values d i) ->
  (forall d i, (d < MAX_PD)%nat -> (0 <= i < level_length details d)%Z ->
     level_weight NUM_VALUES details values' d i
     = if (Z.of_nat d <? num_active details)%Z
       then (c * level_weight NUM_VALUES details values d i)%R
       else level_weight NUM_VALUES details values d i) ->
  (forall u, (0 <= u < num_eval details)%Z ->
     fgtb (product_weight NUM_VALUES MAX_PD details values' u) cutoff'
     = fgtb (product_weight NUM_VALUES MAX_PD details values u) cutoff) ->
  let r := kernel NUM_PARS NUM_VALUES MAX_PD details values 0 pd_stop model
             scattering nq cutoff result in
  let r' := kernel NUM_PARS NUM_VALUES MAX_PD details values' 0 pd_stop
              model scattering nq cutoff' result in
  (forall k, (k <= nq)%nat ->
     nth k r' 0%R = (c ^ Z.to_nat (num_active details) * nth k r 0)%R)
  /\ (forall k, (k < nq)%nat ->
        (nth k r' 0 / nth nq r' 0 = nth k r 0 / nth nq r 0)%R).
Proof.
  intros Hwf Hpure Hactive Hstop Hlen Hc Hload Hvalue Hweight Hcut r r'.
  assert (Hscale : forall k, (k <= nq)%nat ->
            nth k r' 0%R
            = (c ^ Z.to_nat (num_active details) * nth k r 0)%R).
  { subst r r'.
    pose proof (wf_num_eval _ _ Hwf) as Hne.
    rewrite !(kernel_spec NUM_PARS NUM_VALUES MAX_PD details _ model
                scattering nq _ Hwf scratch Hpure) by lia.
    replace (Z.max (0 + 1) (Z.min pd_stop (cube details MAX_PD)))
      with pd_stop by lia.
    unfold integrate.
    destruct (integrate_scaled NUM_PARS NUM_VALUES MAX_PD details values
                values' model scattering nq cutoff cutoff' c Hwf Hactive
                Hload Hvalue Hweight Hcut (range 0 pd_stop)
                (seed nq 0 result) (seed nq 0 result))
      as [Hn [Hl Hr]].
    - intros u Hu. apply in_range in Hu. lia.
    - cbn. ring.
    - reflexivity.
    - intros j Hj. unfold seed. cbn [snd Z.eqb].
      change 0%R with (f0 (F := R)).
      rewrite nth_zero_result.
      apply Nat.ltb_lt in Hj. rewrite Hj. cbn. ring.
    - intros k Hk. unfold store_norm.
      assert (Hlen' : forall cut vals,
                length (snd (fold_left
                  (fun a u =>
                     skip_policy model scattering nq cut
                       (block_at NUM_PARS NUM_VALUES MAX_PD details vals u)
                       (product_weight NUM_VALUES MAX_PD details vals u) a)
                  (range 0 pd_stop) (seed nq 0 result))) = S nq).
      { intros cut vals.
        pose proof (integrate_length NUM_PARS NUM_VALUES MAX_PD details
                      vals model scattering nq cut 0 pd_stop
                      (seed nq 0 result)) as E.
        unfold integrate in E. rewrite E, seed_length. exact Hlen. }
      rewrite !nth_upd, !Hlen'.
      destruct (Nat.eqb_spec k nq) as [->|Hne'].
      + replace (nq <? S nq)%nat with true
          by (symmetry; apply Nat.ltb_lt; lia).
        exact Hn.
      + apply Hr. lia. }
  split; [exact Hscale|].
  intros k Hk. rewrite (Hscale k) by lia. rewrite (Hscale nq) by lia.
  assert (Hs : (c ^ Z.to_nat (num_active details) <> 0)%R)
    by (apply pow_nonzero; lra).
  unfold Rdiv. rewrite Rinv_mult.
  transitivity ((c ^ Z.to_nat (num_active details)
                 * / c ^ Z.to_nat (num_active details))
                * (nth k r 0 * / nth nq r 0))%R; [ring|].
  rewrite Rinv_r by exact Hs. ring.
Qed.



Lemma weight_linearity_witness :
  nth 0 (exact_kernel (2 * 1) (2 * 2) (2 * 1)) 0%R
  = (2 ^ 1 * nth 0 (exact_kernel 1 2 1) 0)%R.
Proof.
  assert (Hthree : forall i : Z,
            0 <= i < level_length e2_details 0 -> i = 0 \/ i = 1 \/ i = 2)
    by (intros i; change (level_length e2_details 0) with 3; lia).
  refine (proj1 (weight_linearity 1 3 1 e2_details (exact_values 1 2 1)
                   (exact_values (2 * 1) (2 * 2) (2 * 1)) exact_model
                   exact_scattering (fun _ => False) 1 0%R 0%R 2%R 3
                   [0; 0]%R e2_well_formed (plain_scratch _ _ _ _ _ _)
                   _ _ eq_refl _ eq_refl _ _ _) 0%nat _).
  - cbv. split; congruence.
  - cbv. split; congruence.
  - lra.
  - intros [|d] i Hd Hi; [|lia].
    destruct (Hthree i Hi) as [->|[->| ->]]; reflexivity.
  - intros [|d] i Hd Hi; [|lia].
    destruct (Hthree i Hi) as [->|[->| ->]]; reflexivity.
  - intros u Hu. change (num_eval e2_details) with 3 in Hu.
    assert (Hu3 : u = 0 \/ u = 1 \/ u = 2) by lia.
    unfold fgtb. cbn [fltb real_arith].
    destruct Hu3 as [->|[->| ->]];
      match goal with
      | |- context [Rlt_dec 0 ?a] =>
          match goal with
          | |- context [(if Rlt_dec 0 ?b then true else false)
                        = (if Rlt_dec 0 a then true else false)] =>
              let va := eval lazy in a in
              let vb := eval lazy in b in
              change a with va; change b with vb
          end
      end;
      repeat match goal with
             | |- context [Rlt_dec ?a ?b] => destruct (Rlt_dec a b)
             end; try reflexivity; exfalso; lra.
  - lia.
Defined.

(** * Further properties of the kernel *)

(** ** What the loop nest keeps, for any problem descriptor *)

Section NestInvariant.
Context {F : Type} `{Arith F} {A : Type}.
Variable NUM_VALUES : Z.
Variable details : ProblemDetails.
Variable values : memory F.
Variable pd_stop : Z.
Variable body : F -> loop_state F A -> block F * A.
Variable P : A -> Prop.
Hypothesis Hbody : forall w st, P (acc st) -> P (snd (body w st)).

Lemma while_level_invariant (d : nat) inner (w : F) (fuel : nat) :
  (forall w st, P (acc st) -> P (acc (inner w st))) ->
  forall st : loop_state F A,
  P (acc st) ->
  P (acc (while_level NUM_VALUES details values pd_stop d inner w fuel st)).
Proof.
  intros Hinner. induction fuel as [|fuel IH]; intros st Hst; [exact Hst|].
  cbn [while_level].
  destruct (ix (idx st) d <? level_length details d); [|exact Hst].
  match goal with
  | |- context [inner ?w' ?s] =>
      pose proof (Hinner w' s Hst) as H2; set (st2 := inner w' s) in *
  end.
  destruct (step st2 >=? pd_stop); [exact H2|].
  apply IH. exact H2.
Qed.

Lemma pd_loops_invariant (k : nat) :
  forall (w : F) (st : loop_state F A),
  P (acc st) ->
  P (acc (pd_loops NUM_VALUES details values pd_stop body k w st)).
Proof.
  induction k as [|k IH]; intros w st Hst.
  - cbn [pd_loops]. unfold innermost.
    pose proof (Hbody w st Hst) as Hb.
    destruct (body w st) as [lv a]. exact Hb.
  - cbn [pd_loops]. unfold level. cbn [acc].
    apply while_level_invariant; assumption.
Qed.

End NestInvariant.

Lemma q_loop_frame {F : Type} `{Arith F}
    (scattering : nat -> block F -> F * block F) (nq : nat) (w : F)
    (lv : block F) (res : list F) :
  length (snd (q_loop scattering nq w lv res)) = length res
  /\ forall j, (nq <= j)%nat ->
       nth j (snd (q_loop scattering nq w lv res)) f0 = nth j res f0.
Proof.
  induction nq as [|nq [IHl IHn]]; [split; reflexivity|].
  rewrite q_loop_S. unfold q_step.
  destruct (scattering nq (fst (q_loop scattering nq w lv res))) as [sc lv'].
  cbn [snd]. rewrite upd_length. split; [exact IHl|].
  intros j Hj. rewrite nth_upd_other by lia. apply IHn. lia.
Qed.

Lemma upd_nth_same {A : Type} (l : list A) (i : nat) (dflt : A) :
  upd l i (nth i l dflt) = l.
Proof.
  apply (list_eq_nth _ _ dflt); [apply upd_length|].
  intros j _. rewrite nth_upd.
  destruct (Nat.eqb_spec j i) as [->|]; [|reflexivity].
  now destruct (i <? length l)%nat.
Qed.

(** Whatever the problem descriptor, the slice and the model are, the
    kernel keeps the length of [result] and writes no entry past
    [result[nq]]: the padding is left as it was. *)
Theorem kernel_writes_results_only {F : Type} `{Arith F}
    (NUM_PARS : nat) (NUM_VALUES : Z) (MAX_PD : nat)
    (details : ProblemDetails) (values : memory F) (model : ModelKernel F)
    (scattering : nat -> block F -> F * block F) (nq : nat) (cutoff : F)
    (pd_start pd_stop : Z) (result : list F) :
  length (kernel NUM_PARS NUM_VALUES MAX_PD details values pd_start pd_stop
            model scattering nq cutoff result) = length result
  /\ forall j, (nq < j)%nat ->
       nth j (kernel NUM_PARS NUM_VALUES MAX_PD details values pd_start
                pd_stop model scattering nq cutoff result) f0
       = nth j result f0.
Proof.
  set (P := fun a : F * list F =>
              length (snd a) = length result
              /\ forall j, (nq <= j)%nat -> nth j (snd a) f0 = nth j result f0).
  assert (Hbody : forall w (st : loop_state F (F * list F)),
            P (acc st) ->
            P (snd (kernel_body model scattering nq cutoff w st))).
  { unfold P. intros w st [Hl Hn]. unfold kernel_body.
    destruct (is_invalid model (local_values st)); [split; assumption|].
    destruct (fgtb w cutoff); [|split; assumption].
    destruct (q_loop_frame scattering nq w (local_values st) (snd (acc st)))
      as [Ql Qn].
    destruct (q_loop scattering nq w (local_values st) (snd (acc st)))
      as [lv' res']. cbn [snd] in *. split; [now rewrite Ql|].
    intros j Hj. rewrite Qn by exact Hj. now apply Hn. }
  assert (Hrun : P (acc (run_loops NUM_PARS NUM_VALUES MAX_PD details values
                           pd_start pd_stop
                           (kernel_body model scattering nq cutoff)
                           (if pd_start =? 0 then f0 else nth nq result f0,
                            if pd_start =? 0 then zero_result nq result
                            else result)))).
  { unfold run_loops. apply pd_loops_invariant; [exact Hbody|].
    unfold initial_state, P. cbn [acc snd].
    destruct (pd_start =? 0); [|split; reflexivity].
    split; [apply zero_result_length|]. intros j Hj.
    rewrite nth_zero_result.
    destruct (Nat.ltb_spec j nq); [lia|reflexivity]. }
  unfold kernel. destruct Hrun as [Hl Hn]. rewrite upd_length.
  split; [exact Hl|]. intros j Hj.
  rewrite nth_upd_other by lia. apply Hn. lia.
Qed.

(** In binary64 a comparison with NaN is false, and no double is above
    [+infinity]: under a cutoff that is NaN or [+infinity] no cube point
    passes [weight0 > cutoff].  The kernel then accumulates nothing, for
    any problem descriptor and model: after the first slice the entries
    [0 .. nq] are zero, and a later slice leaves [result] as it is. *)
Theorem unreachable_cutoff_accumulates_nothing
    (NUM_PARS : nat) (NUM_VALUES : Z) (MAX_PD : nat)
    (details : ProblemDetails) (values : memory float)
    (model : ModelKernel float)
    (scattering : nat -> block float -> float * block float) (nq : nat)
    (cutoff : float) (pd_start pd_stop : Z) (result : list float) :
  PrimFloat.is_nan cutoff = true \/ cutoff = infinity ->
  kernel NUM_PARS NUM_VALUES MAX_PD details values pd_start pd_stop model
         scattering nq cutoff result
  = if pd_start =? 0 then upd (zero_result nq result) nq 0%float
    else result.
Proof.
  intros Hcut.
  assert (Hgt : forall w : float, fgtb w cutoff = false).
  { intros w. unfold fgtb. cbn [fltb float_arith]. rewrite ltb_spec.
    unfold SFltb. destruct Hcut as [Hnan| ->].
    - unfold PrimFloat.is_nan in Hnan. rewrite eqb_spec in Hnan.
      unfold SFeqb in Hnan.
      destruct (Prim2SF cutoff) as [s|s| |s m e]; cbn [SFcompare] in *;
        try reflexivity.
      + discriminate Hnan.
      + destruct s; discriminate Hnan.
      + rewrite Z.compare_refl in Hnan.
        change (Pos.compare_cont Eq m m) with (Pos.compare m m) in Hnan.
        rewrite Pos.compare_refl in Hnan. destruct s; discriminate Hnan.
    - change (Prim2SF infinity) with (S754_infinity false).
      destruct (Prim2SF w) as [s|s| |s m e]; cbn [SFcompare];
        try reflexivity. destruct s; reflexivity. }
  set (a0 := (if pd_start =? 0 then 0%float else nth nq result 0%float,
              if pd_start =? 0 then zero_result nq result else result)).
  assert (Hrun : acc (run_loops NUM_PARS NUM_VALUES MAX_PD details values
                        pd_start pd_stop
                        (kernel_body model scattering nq cutoff) a0) = a0).
  { unfold run_loops.
    apply (pd_loops_invariant NUM_VALUES details values pd_stop
             (kernel_body model scattering nq cutoff) (fun a => a = a0));
      [|reflexivity].
    intros w st Hst. unfold kernel_body. rewrite Hgt.
    now destruct (is_invalid model (local_values st)). }
  unfold kernel. cbn [f0 float_arith]. fold a0. rewrite Hrun. unfold a0.
  cbn [fst snd]. destruct (pd_start =? 0); [reflexivity|].
  apply upd_nth_same.
Qed.

Lemma unreachable_cutoff_accumulates_nothing_witness :
  kernel 2 4 2 demo_details demo_values 2 5 demo_model demo_scattering 2
         nan [1; 2; 3]%float
  = [1; 2; 3]%float.
Proof.
  apply (unreachable_cutoff_accumulates_nothing 2 4 2 demo_details
           demo_values demo_model demo_scattering 2 nan 2 5 [1; 2; 3]%float).
  left; reflexivity.
Defined.

(** With [MAX_PD = 0] there is no loop around the body: whatever the
    slice is, the kernel evaluates the one point of the parameters
    [values[2 ..]] with the weight [1.0], and calling it again with
    [pd_start <> 0] adds this point once more. *)
Theorem monodisperse_kernel {F : Type} `{Arith F}
    (NUM_PARS : nat) (NUM_VALUES : Z) (details : ProblemDetails)
    (values : memory F) (model : ModelKernel F)
    (scattering : nat -> block F -> F * block F) (nq : nat) (cutoff : F)
    (scratch : nat -> Prop) (pd_start pd_stop : Z) (result : list F) :
  scratch_only model scattering scratch ->
  kernel NUM_PARS NUM_VALUES 0 details values pd_start pd_stop model
         scattering nq cutoff result
  = store_norm nq
      (skip_policy model scattering nq cutoff (load_params NUM_PARS values)
                   f1 (seed nq pd_start result)).
Proof.
  intros Hs. unfold kernel, run_loops, store_norm.
  cbn [pd_loops]. unfold innermost.
  destruct (kernel_body_policy model scattering cutoff scratch Hs nq f1
              (initial_state NUM_PARS 0 details values pd_start
                 (if pd_start =? 0 then f0 else nth nq result f0,
                  if pd_start =? 0 then zero_result nq result else result)))
    as [Hb _].
  destruct (kernel_body model scattering nq cutoff f1 _) as [lv a].
  cbn [snd acc] in *. rewrite Hb. reflexivity.
Qed.

Lemma monodisperse_kernel_witness :
  kernel 1 3 0 e2_details (e2_values 1 0 7) 5 2 e2_model
    (scattering_plain (fun _ => (0, 1)%float) e2_model e2_details
       (e2_values 1 0 7) (pool [0.5]%float) D_IQ)
    1 0.5%float [10; 20]%float
  = store_norm 1
      (skip_policy e2_model
         (scattering_plain (fun _ => (0, 1)%float) e2_model e2_details
            (e2_values 1 0 7) (pool [0.5]%float) D_IQ)
         1 0.5%float [7]%float 1%float (20, [10; 20])%float).
Proof.
  exact (monodisperse_kernel 1 3 e2_details (e2_values 1 0 7) e2_model
           (scattering_plain (fun _ => (0, 1)%float) e2_model e2_details
              (e2_values 1 0 7) (pool [0.5]%float) D_IQ)
           1 0.5%float (fun _ => False) 5 2 [10; 20]%float
           (plain_scratch _ _ _ _ _ _)).
Defined.

Section KernelSlices.
Context {F : Type} `{Arith F}.
Variable NUM_PARS : nat.
Variable NUM_VALUES : Z.
Variable MAX_PD : nat.
Variable details : ProblemDetails.
Variable values : memory F.
Variable model : ModelKernel F.
Variable scattering : nat -> block F -> F * block F.
Variable nq : nat.
Variable cutoff : F.
Variable scratch : nat -> Prop.

Local Abbreviation kern lo hi :=
  (kernel NUM_PARS NUM_VALUES MAX_PD details values lo hi model
          scattering nq cutoff).

(** The loops end with the cube and their body runs before the first
    test of [step >= pd_stop]: a slice that stops before it starts, or past
    [num_eval], is evaluated as the slice from [pd_start] to
    [max (pd_start + 1) (min pd_stop num_eval)]. *)
Theorem slice_is_clamped (pd_start pd_stop : Z) (result : list F) :
  well_formed MAX_PD details ->
  scratch_only model scattering scratch ->
  0 <= pd_start < num_eval details ->
  kern pd_start pd_stop result
  = kern pd_start (Z.max (pd_start + 1) (Z.min pd_stop (num_eval details)))
         result.
Proof.
  intros Hwf Hs Hstart. rewrite (wf_num_eval _ _ Hwf) in *.
  rewrite !(kernel_spec NUM_PARS NUM_VALUES MAX_PD details values model
              scattering nq cutoff Hwf scratch Hs) by exact Hstart.
  f_equal. f_equal. lia.
Qed.

(** The first slice does not read what the buffer holds in
    [result[0 .. nq]]: two buffers that agree past [result[nq]] give the
    same output. *)
Theorem first_slice_ignores_buffer (pd_stop : Z) (result result' : list F) :
  well_formed MAX_PD details ->
  scratch_only model scattering scratch ->
  length result = length result' ->
  (forall j, (nq < j)%nat -> nth j result f0 = nth j result' f0) ->
  kern 0 pd_stop result = kern 0 pd_stop result'.
Proof.
  intros Hwf Hs Hlen Hpad.
  assert (Hc : 0 <= 0 < cube details MAX_PD).
  { pose proof (cube_pos MAX_PD details (wf_length _ _ Hwf) MAX_PD
                  (Nat.le_refl _)). lia. }
  rewrite !(kernel_spec NUM_PARS NUM_VALUES MAX_PD details values model
              scattering nq cutoff Hwf scratch Hs) by exact Hc.
  unfold seed. cbn [Z.eqb].
  assert (Hz : zero_result nq result
               = upd (zero_result nq result') nq (nth nq result f0)).
  { apply (list_eq_nth _ _ f0).
    - now rewrite upd_length, !zero_result_length.
    - intros j _. rewrite nth_upd, !nth_zero_result, zero_result_length.
      destruct (Nat.eqb_spec j nq) as [->|Hne].
      + rewrite Nat.ltb_irrefl. cbn [andb].
        destruct (Nat.ltb_spec nq (length result')); [reflexivity|].
        rewrite !nth_overflow by lia. reflexivity.
      + cbn [andb]. destruct (Nat.ltb_spec j nq); [reflexivity|].
        apply Hpad. lia. }
  rewrite Hz, integrate_frame. unfold store_norm. cbn [fst snd].
  apply upd_upd_same.
Qed.

(** Two consecutive slices on the same buffer give what the slice that
    spans them gives, from any starting point of the cube. *)
Theorem slices_compose (a b c : Z) (result : list F) :
  well_formed MAX_PD details ->
  scratch_only model scattering scratch ->
  0 <= a /\ a < b /\ b < c <= num_eval details ->
  length result = S nq ->
  kern b c (kern a b result) = kern a c result.
Proof.
  intros Hwf Hs (Ha & Hab & Hbc & Hc) Hlen.
  rewrite (wf_num_eval _ _ Hwf) in Hc.
  now apply (kernel_merge NUM_PARS NUM_VALUES MAX_PD details values model
               scattering nq cutoff Hwf scratch Hs).
Qed.

End KernelSlices.

Lemma slice_is_clamped_witness :
  demo_kernel 4 99 [1; 2; 3]%float = demo_kernel 4 6 [1; 2; 3]%float.
Proof.
  apply (slice_is_clamped 2 4 2 demo_details demo_values demo_model
           demo_scattering 2 0.125%float (fun _ => False) 4 99
           [1; 2; 3]%float).
  - exact demo_well_formed.
  - apply plain_scratch.
  - cbn [num_eval demo_details]. lia.
Defined.

Lemma first_slice_ignores_buffer_witness :
  demo_kernel 0 6 [1; 2; 3; 4]%float = demo_kernel 0 6 [7; 8; 9; 4]%float.
Proof.
  apply (first_slice_ignores_buffer 2 4 2 demo_details demo_values
           demo_model demo_scattering 2 0.125%float (fun _ => False) 6
           [1; 2; 3; 4]%float [7; 8; 9; 4]%float).
  - exact demo_well_formed.
  - apply plain_scratch.
  - reflexivity.
  - intros [|[|[|[|[|j]]]]] Hj; try lia; reflexivity.
Defined.

Lemma slices_compose_witness :
  demo_kernel 3 5 (demo_kernel 1 3 [1; 2; 3]%float)
  = demo_kernel 1 5 [1; 2; 3]%float.
Proof.
  apply (slices_compose 2 4 2 demo_details demo_values demo_model
           demo_scattering 2 0.125%float (fun _ => False) 1 3 5
           [1; 2; 3]%float).
  - exact demo_well_formed.
  - apply plain_scratch.
  - cbn [num_eval demo_details]. lia.
  - reflexivity.
Defined.

(** ** NaN in the magnetic kernel *)

Lemma is_nan_spec (x : float) :
  PrimFloat.is_nan x = true <-> Prim2SF x = S754_nan.
Proof.
  unfold PrimFloat.is_nan. rewrite eqb_spec. unfold SFeqb.
  destruct (Prim2SF x) as [s|s| |s m e]; cbn [SFcompare negb].
  - split; discriminate.
  - destruct s; split; discriminate.
  - tauto.
  - rewrite Z.compare_refl.
    change (Pos.compare_cont Eq m m) with (Pos.compare m m).
    rewrite Pos.compare_refl. destruct s; split; discriminate.
Qed.

Lemma nan_ltb_r (x y : float) :
  PrimFloat.is_nan y = true -> PrimFloat.ltb x y = false.
Proof.
  rewrite is_nan_spec, ltb_spec. intros ->. unfold SFltb.
  now destruct (Prim2SF x).
Qed.

Lemma nan_ltb_l (x y : float) :
  PrimFloat.is_nan x = true -> PrimFloat.ltb x y = false.
Proof. rewrite is_nan_spec, ltb_spec. now intros ->. Qed.

Lemma nan_mul_l (x y : float) :
  PrimFloat.is_nan x = true -> PrimFloat.is_nan (x * y) = true.
Proof. rewrite !is_nan_spec, mul_spec. now intros ->. Qed.

Lemma nan_mul_r (x y : float) :
  PrimFloat.is_nan y = true -> PrimFloat.is_nan (x * y) = true.
Proof.
  rewrite !is_nan_spec, mul_spec. intros ->. now destruct (Prim2SF x).
Qed.

Lemma nan_add_l (x y : float) :
  PrimFloat.is_nan x = true -> PrimFloat.is_nan (x + y) = true.
Proof. rewrite !is_nan_spec, add_spec. now intros ->. Qed.

Lemma nan_add_r (x y : float) :
  PrimFloat.is_nan y = true -> PrimFloat.is_nan (x + y) = true.
Proof.
  rewrite !is_nan_spec, add_spec. intros ->. now destruct (Prim2SF x).
Qed.

Lemma nan_sub_r (x y : float) :
  PrimFloat.is_nan y = true -> PrimFloat.is_nan (x - y) = true.
Proof.
  rewrite !is_nan_spec, sub_spec. intros ->. now destruct (Prim2SF x).
Qed.

Lemma nan_sqrt (x : float) :
  PrimFloat.is_nan x = true -> PrimFloat.is_nan (PrimFloat.sqrt x) = true.
Proof. rewrite !is_nan_spec, sqrt_spec. now intros ->. Qed.

Lemma nan_clip (x : float) :
  PrimFloat.is_nan x = true -> clip x 0%float 1%float = x.
Proof.
  intros Hx. unfold clip, fgtb. cbn [fltb float_arith].
  now rewrite (nan_ltb_l _ _ Hx), (nan_ltb_r _ _ Hx).
Qed.

Lemma set_spins_nan (in_spin out_spin : float) :
  PrimFloat.is_nan in_spin = true \/ PrimFloat.is_nan out_spin = true ->
  Forall (fun s => PrimFloat.is_nan s = true) (set_spins in_spin out_spin).
Proof.
  intros Hnan. unfold set_spins. cbn [fsqrt fmul fsub f0 f1 float_arith].
  destruct Hnan as [Hi|Hf].
  - rewrite (nan_clip _ Hi).
    repeat (apply Forall_cons;
            [apply nan_sqrt, nan_sqrt;
             first [apply nan_mul_l; first [exact Hi|now apply nan_sub_r]]|]).
    apply Forall_nil.
  - rewrite (nan_clip _ Hf).
    repeat (apply Forall_cons;
            [apply nan_sqrt, nan_sqrt;
             first [apply nan_mul_r; first [exact Hf|now apply nan_sub_r]]|]).
    apply Forall_nil.
Qed.

(** In binary64, a NaN among the polarisation fractions
    [values[NUM_PARS+2]], [values[NUM_PARS+3]] or in the q point makes the
    magnetic scattering at that point exactly [0.0], not NaN: the four
    weights are NaN, or [qsq] is, the tests [xs > 1.e-8] and
    [qsq > 1.e-16] are false, and no cross-section is evaluated. *)
Theorem nan_input_gives_zero_scattering (SINCOS : float -> float * float)
    (model : ModelKernel float) (NUM_PARS : nat) (details : ProblemDetails)
    (values q : memory float) (dsp : dispatch) (NUM_MAGNETIC : nat)
    (slds : list Z) (q_index : nat) (lv : block float) :
  PrimFloat.is_nan (values (Z.of_nat NUM_PARS + 2)) = true
  \/ PrimFloat.is_nan (values (Z.of_nat NUM_PARS + 3)) = true
  \/ PrimFloat.is_nan (q (2 * Z.of_nat q_index)) = true
  \/ PrimFloat.is_nan (q (2 * Z.of_nat q_index + 1)) = true ->
  scattering_magnetic SINCOS model NUM_PARS details values q dsp
    NUM_MAGNETIC slds q_index lv = (0%float, lv).
Proof.
  intros Hnan. unfold scattering_magnetic, fgtb.
  cbn [fltb fadd fmul f0 float_arith].
  set (qx := q (2 * Z.of_nat q_index)) in *.
  set (qy := q (2 * Z.of_nat q_index + 1)) in *.
  destruct Hnan as [Hi|[Hf|[Hx|Hy]]].
  3: now rewrite (nan_ltb_r _ _ (nan_add_l _ _ (nan_mul_l _ _ Hx))).
  3: now rewrite (nan_ltb_r _ _ (nan_add_r _ _ (nan_mul_l _ _ Hy))).
  all: destruct (PrimFloat.ltb lit_1em16 (qx * qx + qy * qy));
    [|reflexivity].
  all: assert (Hs : Forall (fun s => PrimFloat.is_nan s = true)
                      (spins NUM_PARS values))
    by (apply set_spins_nan; tauto).
  all: assert (Hstep : forall s index,
         spin_step SINCOS model NUM_PARS details values dsp NUM_MAGNETIC
           slds qx qy (qx * qx + qy * qy)%float
           (polarization SINCOS NUM_PARS values qx qy
              (qx * qx + qy * qy)%float) s index = s).
  1, 3: intros s index; unfold spin_step, fgtb; cbn [fltb f0 float_arith];
    destruct (Nat.lt_ge_cases index (length (spins NUM_PARS values)))
      as [Hlt|Hge];
    [ rewrite nan_ltb_r;
      [reflexivity
      |exact (proj1 (Forall_nth _ _) Hs index 0%float Hlt)]
    | rewrite nth_overflow by exact Hge; reflexivity ].
  all: cbn [seq fold_left]; now rewrite !Hstep.
Qed.

Lemma nan_input_gives_zero_scattering_witness :
  scattering_magnetic libm_sincos mag_model 2 mag_details
    (pool [1; 0; 4; 10; nan; 0.5; 0; 1; 2; 3; 10; 20; 0.5; 0.5]%float)
    mag_q D_IQ_A 1 [0] 1 [4; 10]%float
  = (0%float, [4; 10]%float).
Proof.
  apply (nan_input_gives_zero_scattering libm_sincos mag_model 2
           mag_details
           (pool [1; 0; 4; 10; nan; 0.5; 0; 1; 2; 3; 10; 20; 0.5; 0.5]%float)
           mag_q D_IQ_A 1 [0] 1 [4; 10]%float).
  left; reflexivity.
Defined.

(** ** Symmetries of the spin weights *)

Lemma SFmul_comm (x y : spec_float) : SF64mul x y = SF64mul y x.
Proof.
  unfold SF64mul.
  destruct x as [sx|sx| |sx mx ex], y as [sy|sy| |sy my ey];
    cbn [SFmul]; rewrite ?(xorb_comm sx sy); try reflexivity.
  now rewrite (Pos.mul_comm mx my), (Z.add_comm ex ey).
Qed.

Lemma float_mul_comm (x y : float) : (x * y = y * x)%float.
Proof. apply Prim2SF_inj. rewrite !mul_spec. apply SFmul_comm. Qed.

(** In binary64, exchanging the two polarisation fractions exchanges the
    spin-flip weights [du] and [ud] and keeps [dd] and [uu], bit for bit
    and for every pair of doubles. *)
Theorem set_spins_exchange (in_spin out_spin : float) :
  set_spins out_spin in_spin
  = [nth 0 (set_spins in_spin out_spin) 0%float;
     nth 2 (set_spins in_spin out_spin) 0%float;
     nth 1 (set_spins in_spin out_spin) 0%float;
     nth 3 (set_spins in_spin out_spin) 0%float].
Proof.
  unfold set_spins. cbn [nth fsqrt fmul fsub f0 f1 float_arith].
  set (i := clip in_spin 0%float 1%float).
  set (f := clip out_spin 0%float 1%float).
  now rewrite (float_mul_comm (1 - f) (1 - i)), (float_mul_comm (1 - f) i),
    (float_mul_comm f (1 - i)), (float_mul_comm f i).
Qed.

Lemma SFcompare_refl (x : spec_float) :
  x <> S754_nan -> SFcompare x x = Some Eq.
Proof.
  destruct x as [s|s| |s m e]; cbn [SFcompare]; try congruence.
  - now destruct s.
  - intros _. rewrite Z.compare_refl.
    change (Pos.compare_cont Eq m m) with (Pos.compare m m).
    rewrite Pos.compare_refl. now destruct s.
Qed.

Lemma ltb_irrefl (x : float) : PrimFloat.ltb x x = false.
Proof.
  rewrite ltb_spec. unfold SFltb.
  destruct (Prim2SF x) as [s|s| |s m e] eqn:E; try reflexivity;
    rewrite SFcompare_refl; congruence.
Qed.

(** In binary64, for bounds [low <= high], [clip] is idempotent on every
    double, NaN included, and sends every double that is not NaN into
    [[low, high]]. *)
Theorem clip_idempotent (value low high : float) :
  PrimFloat.leb low high = true ->
  clip (clip value low high) low high = clip value low high
  /\ (PrimFloat.is_nan value = false ->
      PrimFloat.leb low (clip value low high) = true
      /\ PrimFloat.leb (clip value low high) high = true).
Proof.
  intros Hle. unfold clip, fgtb. cbn [fltb float_arith].
  assert (Hl : PrimFloat.is_nan low = false /\ PrimFloat.is_nan high = false).
  { rewrite leb_spec in Hle. unfold SFleb in Hle.
    split; apply not_true_is_false; rewrite is_nan_spec; intros E;
      rewrite E in Hle; [|destruct (Prim2SF low)]; discriminate Hle. }
  destruct Hl as [Hlow Hhigh].
  destruct (PrimFloat.ltb value low) eqn:E1.
  - rewrite ltb_irrefl, (leb_not_gt _ _ Hle). split; [reflexivity|].
    intros _. split; [|exact Hle].
    apply not_lt_ge; auto using ltb_irrefl.
  - destruct (PrimFloat.ltb high value) eqn:E2.
    + rewrite (leb_not_gt _ _ Hle), ltb_irrefl. split; [reflexivity|].
      intros _. split; [exact Hle|].
      apply not_lt_ge; auto using ltb_irrefl.
    + rewrite E1, E2. split; [reflexivity|].
      intros Hv. split; apply not_lt_ge; auto.
Qed.

Lemma clip_idempotent_witness :
  (clip (clip 7 (-2) 3) (-2) 3 = clip 7 (-2) 3)%float
  /\ PrimFloat.leb (-2) (clip 7 (-2) 3)%float = true
  /\ PrimFloat.leb (clip 7 (-2) 3)%float 3 = true.
Proof.
  destruct (clip_idempotent 7%float (-2)%float 3%float eq_refl) as [Hi Hb].
  split; [exact Hi|]. exact (Hb eq_refl).
Defined.

Section SpinPopulations.
Local Open Scope R_scope.

Lemma fourth_root_pow4 (x : R) : 0 <= x -> sqrt (sqrt x) ^ 4 = x.
Proof.
  intros Hx.
  replace (sqrt (sqrt x) ^ 4)
    with ((sqrt (sqrt x) * sqrt (sqrt x)) * (sqrt (sqrt x) * sqrt (sqrt x)))
    by ring.
  rewrite (sqrt_sqrt (sqrt x)) by apply sqrt_pos.
  now apply sqrt_sqrt.
Qed.

(** In exact arithmetic the fourth powers of the four spin weights sum to
    one, for every pair of fractions, so that at least one weight passes
    the test [xs > 1.e-8]: some cross-section is always evaluated. *)
Theorem spin_populations_sum_to_one (NUM_PARS : nat) (values : memory R) :
  let s := spins NUM_PARS values in
  nth 0 s 0 ^ 4 + nth 1 s 0 ^ 4 + nth 2 s 0 ^ 4 + nth 3 s 0 ^ 4 = 1
  /\ evaluated_spins NUM_PARS values <> [].
Proof.
  intros s.
  destruct (set_spins_exact (values (Z.of_nat NUM_PARS + 2)%Z)
              (values (Z.of_nat NUM_PARS + 3)%Z))
    as (Hi & Hf & _ & _ & Hs & Hrad & _).
  set (i := clip (values (Z.of_nat NUM_PARS + 2)%Z) 0 1) in *.
  set (f := clip (values (Z.of_nat NUM_PARS + 3)%Z) 0 1) in *.
  assert (Hsum : nth 0 s 0 ^ 4 + nth 1 s 0 ^ 4 + nth 2 s 0 ^ 4
                 + nth 3 s 0 ^ 4 = 1).
  { unfold s, spins. rewrite Hs. cbn [nth].
    rewrite !fourth_root_pow4 by nra. ring. }
  split; [exact Hsum|].
  unfold evaluated_spins. fold s. intros Hnone.
  assert (Hsmall : forall index, In index (seq 0 4) ->
            nth index s 0 <= 1 / 100000000).
  { intros index Hin.
    destruct (Rle_dec (nth index s 0) (1 / 100000000)) as [|Hgt];
      [assumption|exfalso].
    assert (Hin' : In index
              (filter (fun index => fgtb (nth index s f0) lit_1em8)
                      (seq 0 4))).
    { apply filter_In. split; [exact Hin|].
      unfold fgtb. cbn [fltb f0 lit_1em8 real_arith].
      destruct (Rlt_dec (1 / 100000000) (nth index s 0)); [reflexivity|lra]. }
    rewrite Hnone in Hin'. exact Hin'. }
  assert (Hpos : forall index, 0 <= nth index s 0).
  { intros index. unfold s, spins. rewrite Hs.
    destruct index as [|[|[|[|index]]]]; cbn [nth];
      try apply sqrt_pos; try lra. destruct index; lra. }
  assert (Hpow : forall index, In index (seq 0 4) ->
            nth index s 0 ^ 4 <= 1 / 100000000).
  { intros index Hin. pose proof (Hsmall index Hin) as H1.
    pose proof (Hpos index) as H0.
    set (x := nth index s 0) in *.
    assert (H2 : x * x <= 1) by nra.
    assert (H3 : x * (x * x) <= 1) by nra.
    replace (x ^ 4) with (x * (x * (x * x))) by ring.
    assert (x * (x * (x * x)) <= x * 1)
      by (apply Rmult_le_compat_l; assumption).
    lra. }
  pose proof (Hpow 0%nat ltac:(cbn; tauto)).
  pose proof (Hpow 1%nat ltac:(cbn; tauto)).
  pose proof (Hpow 2%nat ltac:(cbn; tauto)).
  pose proof (Hpow 3%nat ltac:(cbn; tauto)).
  lra.
Qed.

End SpinPopulations.

(** ** The magnetic evaluation and the parameter block *)

(** The magnetic evaluation at a q index changes the parameter block in
    the slots [MAGNETIC_PAR1 ..] only, keeps its length, and returns a
    scattering that does not depend on what these slots held on entry:
    what one q index, or one cube point, leaves in them is not seen by
    the next. *)
Theorem magnetic_rewrites_sld_slots_only {F : Type} `{Arith F}
    (SINCOS : F -> F * F) (model : ModelKernel F) (NUM_PARS : nat)
    (details : ProblemDetails) (values q : memory F) (dsp : dispatch)
    (NUM_MAGNETIC : nat) (slds : list Z) (q_index : nat)
    (lv lv' : block F) :
  agree_outside (magnetic_slot NUM_PARS NUM_MAGNETIC slds) lv lv' ->
  let r := scattering_magnetic SINCOS model NUM_PARS details values q dsp
             NUM_MAGNETIC slds q_index lv in
  let r' := scattering_magnetic SINCOS model NUM_PARS details values q dsp
              NUM_MAGNETIC slds q_index lv' in
  fst r = fst r'
  /\ length (snd r) = length lv
  /\ forall j, ~ magnetic_slot NUM_PARS NUM_MAGNETIC slds j ->
       nth j (snd r) f0 = nth j lv f0.
Proof.
  intros He r r'. unfold r, r', scattering_magnetic.
  destruct (fgtb _ lit_1em16).
  - match goal with
    | |- context [fold_left (spin_step _ _ _ _ _ _ _ _ ?qx ?qy ?qsq ?p)] =>
        destruct (spins_keep SINCOS model NUM_PARS details values dsp
                    NUM_MAGNETIC slds qx qy qsq p (seq 0 4) (f0, lv)
                    (f0, lv') eq_refl He) as (Hf & _ & Hl & Hn)
    end.
    split; [exact Hf|]. split; [exact Hl|]. exact Hn.
  - cbn [fst snd]. repeat split.
Qed.

Lemma magnetic_rewrites_sld_slots_only_witness :
  fst (mag_scattering 1 [4; 10]%float)
  = fst (mag_scattering 1 [99; 10]%float)
  /\ length (snd (mag_scattering 1 [4; 10]%float)) = 2%nat.
Proof.
  destruct (magnetic_rewrites_sld_slots_only libm_sincos mag_model 2
              mag_details mag_values mag_q D_IQ_A 1 [0] 1
              [4; 10]%float [99; 10]%float) as (Hf & Hl & _).
  - split; [reflexivity|].
    intros [|[|j]] Hj; [exfalso; apply Hj; left; reflexivity| |];
      reflexivity.
  - split; [exact Hf|exact Hl].
Defined.

(** ** The oriented asymmetric view *)

Section RotatedVector.
Local Open Scope R_scope.

(** The product of the view matrix and the jitter matrix of
    [view_direct] keeps the length of [(qx, qy, 0)]. *)
Lemma rotation_keeps_norm (qx qy s1 c1 s2 c2 s3 c3 t1 d1 t2 d2 t3 d3 : R) :
  s1 * s1 + c1 * c1 = 1 -> s2 * s2 + c2 * c2 = 1 ->
  s3 * s3 + c3 * c3 = 1 -> t1 * t1 + d1 * d1 = 1 ->
  t2 * t2 + d2 * d2 = 1 -> t3 * t3 + d3 * d3 = 1 ->
  let qa := qx * (s2 * s3 + c2 * c3 * c1) + qy * (s2 * c3 * c1 - s3 * c2) in
  let qb := qx * (- s2 * c3 + s3 * c2 * c1) + qy * (s2 * s3 * c1 + c2 * c3) in
  let qc := qx * s1 * c2 + qy * s2 * s1 in
  let dqa := qa * d3 * d1 + qb * (t2 * t1 * d3 - t3 * d2)
             + qc * (- t2 * t3 - t1 * d2 * d3) in
  let dqb := qa * t3 * d1 + qb * (t2 * t3 * t1 + d2 * d3)
             + qc * (t2 * d3 - t3 * t1 * d2) in
  let dqc := qa * t1 - qb * t2 * d1 + qc * d2 * d1 in
  dqa * dqa + dqb * dqb + dqc * dqc = qx * qx + qy * qy.
Proof.
  intros H1 H2 H3 G1 G2 G3 qa qb qc dqa dqb dqc.
  assert (Hview : qa * qa + qb * qb + qc * qc = qx * qx + qy * qy).
  { subst qa qb qc. nsatz. }
  subst dqa dqb dqc. clearbody qa qb qc. clear H1 H2 H3. nsatz.
Qed.

(** In exact arithmetic the oriented asymmetric [view_direct] hands
    [Iqabc] a vector [(dqa, dqb, dqc)] of the length of [(qx, qy)]: for a
    form factor that depends on the length of q only, the mean angles and
    the jitter angles do not matter. *)
Theorem view_direct_abc_keeps_length (model : ModelKernel R)
    (g : R -> block R -> R) (qx qy theta phi psi : R) (table : block R) :
  (forall a b c t, CALL_IQ_ABC model a b c t = g (a * a + b * b + c * c) t) ->
  view_direct_abc real_sincos model qx qy theta phi psi table
  = g (qx * qx + qy * qy) table.
Proof.
  intros Hiso. unfold view_direct_abc, real_sincos.
  cbn [fadd fsub fmul fneg M_PI_180 real_arith].
  rewrite Hiso. f_equal.
  apply (rotation_keeps_norm qx qy
           (sin (theta * (PI / 180))) (cos (theta * (PI / 180)))
           (sin (phi * (PI / 180))) (cos (phi * (PI / 180)))
           (sin (psi * (PI / 180))) (cos (psi * (PI / 180)))
           (sin (table_theta model table * (PI / 180)))
           (cos (table_theta model table * (PI / 180)))
           (sin (table_phi model table * (PI / 180)))
           (cos (table_phi model table * (PI / 180)))
           (sin (table_psi model table * (PI / 180)))
           (cos (table_psi model table * (PI / 180))));
    apply sincos_square.
Qed.

Lemma view_direct_abc_keeps_length_witness :
  view_direct_abc real_sincos squared_length_model 3 4 10 20 30 [1; 2; 3]
  = 3 * 3 + 4 * 4.
Proof.
  apply (view_direct_abc_keeps_length squared_length_model (fun x _ => x)
           3 4 10 20 30 [1; 2; 3]).
  reflexivity.
Defined.

End RotatedVector.

(** * Further properties of the multilayer vesicle model *)

Section SinglePass.
Context {F : Type} `{Arith F}.
Variable sph_j1c : F -> F.

(** The body of a [do ... while] runs before the test: with
    [n_pairs <= 1] the loop makes one pass. *)
Lemma pair_loop_single_pass (q radius thick_shell thick_solvent sldi : F)
    (n_pairs : Z) (fuel : nat) :
  n_pairs <= 1 ->
  Vesicle.pair_loop sph_j1c q radius thick_shell thick_solvent sldi n_pairs
    fuel (0, f0, f0)
  = Vesicle.pair_step sph_j1c q radius thick_shell thick_solvent sldi
      (0, f0, f0).
Proof.
  intros Hn. destruct fuel as [|fuel]; [reflexivity|].
  cbn [Vesicle.pair_loop]. unfold Vesicle.pair_step at 1. cbn [fst].
  destruct (Z.leb_spec (0 + 1) (n_pairs - 1)); [lia|reflexivity].
Qed.

Lemma kernel_single_pass
    (q volfraction radius thick_shell thick_solvent sld_solvent sld : F)
    (n_pairs : Z) :
  n_pairs <= 1 ->
  Vesicle.multilayer_vesicle_kernel sph_j1c q volfraction radius thick_shell
    thick_solvent sld_solvent sld n_pairs
  = Vesicle.multilayer_vesicle_kernel sph_j1c q volfraction radius
      thick_shell thick_solvent sld_solvent sld 1.
Proof.
  intros Hn. unfold Vesicle.multilayer_vesicle_kernel, Vesicle.layers.
  now rewrite !pair_loop_single_pass by lia.
Qed.

End SinglePass.

(** For every [n_pairs <= 1], zero and negative numbers included, the
    [do ... while] loop makes exactly one pass, however many passes it is
    allowed, and the kernel returns what it returns for one pair of
    layers (a unilamellar vesicle), in any arithmetic. *)
Theorem unilamellar_below_two_pairs {F : Type} `{Arith F}
    (sph_j1c : F -> F)
    (q volfraction radius thick_shell thick_solvent sld_solvent sld : F)
    (n_pairs : Z) :
  n_pairs <= 1 ->
  (forall fuel : nat,
     Vesicle.pair_loop sph_j1c q radius thick_shell thick_solvent
       (sld_solvent - sld)%ar n_pairs fuel (0, f0, f0)
     = Vesicle.pair_step sph_j1c q radius thick_shell thick_solvent
         (sld_solvent - sld)%ar (0, f0, f0))
  /\ Vesicle.multilayer_vesicle_kernel sph_j1c q volfraction radius
       thick_shell thick_solvent sld_solvent sld n_pairs
     = Vesicle.multilayer_vesicle_kernel sph_j1c q volfraction radius
         thick_shell thick_solvent sld_solvent sld 1.
Proof.
  intros Hn. split.
  - intros fuel. now apply pair_loop_single_pass.
  - now apply kernel_single_pass.
Qed.

Lemma unilamellar_below_two_pairs_witness :
  Vesicle.multilayer_vesicle_kernel (fun x : float => x) 0.5%float 1%float
    2%float 0.25%float 0.5%float 3%float 1%float (-4)
  = Vesicle.multilayer_vesicle_kernel (fun x : float => x) 0.5%float
      1%float 2%float 0.25%float 0.5%float 3%float 1%float 1.
Proof.
  apply (unilamellar_below_two_pairs (fun x : float => x) 0.5%float 1%float
           2%float 0.25%float 0.5%float 3%float 1%float (-4)).
  lia.
Defined.

(** ** A vesicle without extent *)

Lemma zn_mul_l (x y : float) : zero_or_nan x -> zero_or_nan (x * y).
Proof.
  unfold zero_or_nan. rewrite mul_spec.
  destruct (Prim2SF x) as [sx|sx| |sx mx ex]; try tauto;
    destruct (Prim2SF y) as [sy|sy| |sy my ey]; cbn; tauto.
Qed.

Lemma zn_mul_r (x y : float) : zero_or_nan y -> zero_or_nan (x * y).
Proof. rewrite float_mul_comm. apply zn_mul_l. Qed.

Lemma zn_add (x y : float) :
  zero_or_nan x -> zero_or_nan y -> zero_or_nan (x + y).
Proof.
  unfold zero_or_nan. rewrite add_spec.
  destruct (Prim2SF x) as [sx|sx| |sx mx ex]; try tauto;
    destruct (Prim2SF y) as [sy|sy| |sy my ey]; try tauto; cbn; try tauto.
  destruct sx, sy; tauto.
Qed.

Lemma zn_sub (x y : float) :
  zero_or_nan x -> zero_or_nan y -> zero_or_nan (x - y).
Proof.
  unfold zero_or_nan. rewrite sub_spec.
  destruct (Prim2SF x) as [sx|sx| |sx mx ex]; try tauto;
    destruct (Prim2SF y) as [sy|sy| |sy my ey]; try tauto; cbn; try tauto.
  destruct sx, sy; tauto.
Qed.

Lemma zn_div (x y : float) :
  zero_or_nan x -> zero_or_nan y -> PrimFloat.is_nan (x / y) = true.
Proof.
  unfold zero_or_nan. rewrite is_nan_spec, div_spec.
  destruct (Prim2SF x) as [sx|sx| |sx mx ex]; try tauto;
    destruct (Prim2SF y) as [sy|sy| |sy my ey]; try tauto; reflexivity.
Qed.

Lemma zn_zero : zero_or_nan 0%float.
Proof. exact I. Qed.

Section NoExtent.
Variable sph_j1c : float -> float.
Variables q sldi : float.

Lemma pair_step_no_extent (s : Z * float * float) :
  zero_or_nan (snd (fst s)) ->
  let s' := Vesicle.pair_step sph_j1c q 0%float 0%float 0%float sldi s in
  zero_or_nan (snd (fst s')) /\ zero_or_nan (snd s').
Proof.
  destruct s as [[ii fval] voli]. cbn [fst snd]. intros Hf.
  unfold Vesicle.pair_step. cbn [fst snd fadd fsub fmul float_arith].
  set (ri := (0 + float_of_int ii * (0 + 0))%float).
  assert (Hri : zero_or_nan ri)
    by (apply zn_add; [exact zn_zero|]; apply zn_mul_r; exact zn_zero).
  assert (Hro : zero_or_nan (ri + 0)%float)
    by (apply zn_add; [exact Hri|exact zn_zero]).
  split.
  - apply zn_sub; [apply zn_add; [exact Hf|]|];
      apply zn_mul_l, zn_mul_l, zn_mul_r; assumption.
  - now apply zn_mul_r.
Qed.

Lemma pair_loop_no_extent (n_pairs : Z) (fuel : nat) :
  forall s : Z * float * float,
  zero_or_nan (snd (fst s)) ->
  let s' := Vesicle.pair_loop sph_j1c q 0%float 0%float 0%float sldi n_pairs
              fuel s in
  zero_or_nan (snd (fst s')) /\ zero_or_nan (snd s').
Proof.
  induction fuel as [|fuel IH]; intros s Hs; cbn [Vesicle.pair_loop].
  - now apply pair_step_no_extent.
  - destruct (pair_step_no_extent s Hs) as [Hf Hv].
    destruct (fst (fst (Vesicle.pair_step sph_j1c q 0%float 0%float 0%float
                          sldi s)) <=? n_pairs - 1).
    + now apply IH.
    + split; assumption.
Qed.

End NoExtent.

(** In binary64, a vesicle whose radius and thicknesses are all [0.0]
    leaves [voli = 0] (or NaN) at the end of the loop and the division
    [volfraction*1.0e-4*fval/voli] is [0/0]: the kernel returns NaN, for
    every q, volume fraction, pair of scattering length densities, number
    of pairs and [sph_j1c]. *)
Theorem vesicle_without_extent_is_nan (sph_j1c : float -> float)
    (q volfraction sld_solvent sld : float) (n_pairs : Z) :
  PrimFloat.is_nan
    (Vesicle.multilayer_vesicle_kernel sph_j1c q volfraction 0%float 0%float
       0%float sld_solvent sld n_pairs) = true.
Proof.
  unfold Vesicle.multilayer_vesicle_kernel, Vesicle.layers.
  cbn [f0 fsub float_arith].
  destruct (pair_loop_no_extent sph_j1c q (sld_solvent - sld)%float n_pairs
              (Z.to_nat (n_pairs - 1)) (0, 0%float, 0%float) zn_zero)
    as [Hf Hv].
  destruct (Vesicle.pair_loop sph_j1c q 0%float 0%float 0%float
              (sld_solvent - sld)%float n_pairs (Z.to_nat (n_pairs - 1))
              (0, 0%float, 0%float)) as [[ii fval] voli].
  cbn [fst snd] in Hf, Hv. cbn [fmul fdiv float_arith].
  apply nan_mul_r, zn_div; [|exact Hv]. now apply zn_mul_r.
Qed.

(** ** The vesicle model in exact arithmetic *)

Lemma layers_spec {F : Type} `{Arith F} (sph_j1c : F -> F)
    (q radius thick_shell thick_solvent sld_solvent sld : F) (n_pairs : Z) :
  1 <= n_pairs ->
  Vesicle.layers sph_j1c q radius thick_shell thick_solvent sld_solvent sld
                 n_pairs
  = (n_pairs,
     Vesicle.shell_sum sph_j1c q radius thick_shell thick_solvent
       (sld_solvent - sld)%ar n_pairs,
     Vesicle.layer_volume
       (Vesicle.inner_radius radius thick_shell thick_solvent (n_pairs - 1)
        + thick_shell)%ar).
Proof.
  intros Hn. unfold Vesicle.layers. rewrite pair_loop_spec by lia.
  reflexivity.
Qed.

Section ExactVesicle.
Local Open Scope R_scope.
Variable sph_j1c : R -> R.
Variables q radius thick_shell thick_solvent : R.



Lemma shell_sum_linear (sldi : R) (l : list Z) :
  forall a : R,
  fold_left (Vesicle.add_pair sph_j1c q radius thick_shell thick_solvent sldi)
            l (sldi * a)
  = sldi * fold_left (Vesicle.add_pair sph_j1c q radius thick_shell
                        thick_solvent 1) l a.
Proof.
  induction l as [|i l IH]; intros a; [reflexivity|]. cbn [fold_left].
  rewrite <- IH. f_equal. unfold Vesicle.add_pair.
  cbn [fadd fsub fmul real_arith]. ring.
Qed.


(** In exact arithmetic the intensity is the volume fraction times the
    square of the contrast [sld_solvent - sld] times what the kernel
    returns for a unit volume fraction and a unit contrast: exchanging the
    two scattering length densities changes nothing. *)
Theorem vesicle_factors_contrast (volfraction sld_solvent sld : R)
    (n_pairs : Z) :
  Vesicle.multilayer_vesicle_kernel sph_j1c q volfraction radius thick_shell
    thick_solvent sld_solvent sld n_pairs
  = volfraction * ((sld_solvent - sld) * (sld_solvent - sld))
    * Vesicle.multilayer_vesicle_kernel sph_j1c q 1 radius thick_shell
        thick_solvent 1 0 n_pairs.
Proof.
  assert (Hpos : forall n, (1 <= n)%Z ->
    Vesicle.multilayer_vesicle_kernel sph_j1c q volfraction radius
      thick_shell thick_solvent sld_solvent sld n
    = volfraction * ((sld_solvent - sld) * (sld_solvent - sld))
      * Vesicle.multilayer_vesicle_kernel sph_j1c q 1 radius thick_shell
          thick_solvent 1 0 n).
  { intros n Hn. unfold Vesicle.multilayer_vesicle_kernel.
    rewrite !layers_spec by exact Hn. unfold Vesicle.shell_sum.
    cbn [f0 fsub fmul fdiv lit_1em4 real_arith].
    replace (1 - 0) with 1 by ring.
    assert (E : fold_left
                  (Vesicle.add_pair sph_j1c q radius thick_shell
                     thick_solvent (sld_solvent - sld)) (range 0 n) 0
                = (sld_solvent - sld)
                  * fold_left
                      (Vesicle.add_pair sph_j1c q radius thick_shell
                         thick_solvent 1) (range 0 n) 0).
    { rewrite <- shell_sum_linear. now rewrite Rmult_0_r. }
    rewrite E. unfold Rdiv. ring. }
  destruct (Z_le_gt_dec 1 n_pairs) as [H1|H0]; [now apply Hpos|].
  rewrite (kernel_single_pass sph_j1c q volfraction) by lia.
  rewrite (kernel_single_pass sph_j1c q 1) by lia.
  apply Hpos. lia.
Qed.

(** In exact arithmetic, for a positive radius and a volume fraction and
    thicknesses that are not negative, the intensity is not negative. *)
Theorem vesicle_intensity_not_negative (volfraction sld_solvent sld : R)
    (n_pairs : Z) :
  0 <= volfraction -> 0 < radius -> 0 <= thick_shell ->
  0 <= thick_solvent ->
  0 <= Vesicle.multilayer_vesicle_kernel sph_j1c q volfraction radius
         thick_shell thick_solvent sld_solvent sld n_pairs.
Proof.
  intros Hv Hr Hs Ht.
  assert (Hpos : forall n, (1 <= n)%Z ->
    0 <= Vesicle.multilayer_vesicle_kernel sph_j1c q volfraction radius
           thick_shell thick_solvent sld_solvent sld n).
  { intros n Hn. unfold Vesicle.multilayer_vesicle_kernel.
    rewrite layers_spec by exact Hn.
    set (S := Vesicle.shell_sum sph_j1c q radius thick_shell thick_solvent
                (sld_solvent - sld)%ar n).
    unfold Vesicle.layer_volume, Vesicle.inner_radius.
    cbn [fadd fmul fdiv of_int lit_1em4 M_4PI_3 real_arith].
    set (ro := radius + IZR (n - 1) * (thick_shell + thick_solvent)
               + thick_shell).
    assert (Hro : 0 < ro).
    { assert (0 <= IZR (n - 1)) by (apply IZR_le with (n := 0%Z); lia).
      assert (0 <= IZR (n - 1) * (thick_shell + thick_solvent))
        by (apply Rmult_le_pos; lra).
      unfold ro. lra. }
    assert (Hvol : 0 < 4 * PI / 3 * ro * ro * ro).
    { pose proof PI_RGT_0 as Hpi.
      assert (H4 : 0 < 4 * PI / 3) by lra.
      apply Rmult_lt_0_compat; [|exact Hro].
      apply Rmult_lt_0_compat; [|exact Hro].
      apply Rmult_lt_0_compat; [exact H4|exact Hro]. }
    unfold Rdiv at 1.
    replace (S * (volfraction * (1 / 10000) * S
                  * / (4 * PI / 3 * ro * ro * ro)))
      with ((S * S) * (volfraction * (1 / 10000)
                       * / (4 * PI / 3 * ro * ro * ro))) by ring.
    apply Rmult_le_pos; [apply Rle_0_sqr|].
    apply Rmult_le_pos; [apply Rmult_le_pos; lra|].
    apply Rlt_le, Rinv_0_lt_compat, Hvol. }
  destruct (Z_le_gt_dec 1 n_pairs) as [H1|H0]; [now apply Hpos|].
  rewrite kernel_single_pass by lia. apply Hpos. lia.
Qed.

End ExactVesicle.


Lemma vesicle_intensity_not_negative_witness :
  (0 <= Vesicle.multilayer_vesicle_kernel (fun x => x) 1 1 2 1 1 3 1 3)%R.
Proof.
  apply (vesicle_intensity_not_negative (fun x => x) 1 2 1 1 1 3 1 3)%R;
    lra.
Defined.

(** ** The kernel as a weighted average *)

Section WeightedAverage.
Local Open Scope R_scope.

(** In exact arithmetic, when the form factor at every q index [k] is
    [c k] times the form volume of the parameter block, the first slice
    leaves [result[k] = c k * result[nq]]: the ratio of the two is [c k]
    whatever the weights, the cutoff, the invalid points and the problem
    descriptor are. *)
Theorem volume_proportional_intensity
    (NUM_PARS : nat) (NUM_VALUES : Z) (MAX_PD : nat)
    (details : ProblemDetails) (values : memory R) (model : ModelKernel R)
    (scattering : nat -> block R -> R * block R) (c : nat -> R)
    (nq : nat) (cutoff : R) (pd_stop : Z) (result : list R) (k : nat) :
  (forall j lv, scattering j lv = (c j * CALL_VOLUME model lv, lv)) ->
  (k < nq)%nat -> (nq < length result)%nat ->
  nth k (kernel NUM_PARS NUM_VALUES MAX_PD details values 0 pd_stop model
           scattering nq cutoff result) 0
  = c k * nth nq (kernel NUM_PARS NUM_VALUES MAX_PD details values 0
                    pd_stop model scattering nq cutoff result) 0.
Proof.
  intros Hsc Hk Hnq.
  assert (Hs : scratch_only model scattering (fun _ => False)).
  { apply reads_only_scratch. intros j lv. now rewrite Hsc. }
  set (P := fun a : R * list R =>
              length (snd a) = length result
              /\ forall j, (j < nq)%nat -> nth j (snd a) 0 = c j * fst a).
  assert (Hbody : forall w (st : loop_state R (R * list R)),
            P (acc st) ->
            P (snd (kernel_body model scattering nq cutoff w st))).
  { unfold P. intros w st [Hl Hn].
    destruct (kernel_body_policy model scattering cutoff _ Hs nq w st)
      as [-> _].
    unfold skip_policy.
    destruct (negb (is_invalid model (local_values st)) && fgtb w cutoff);
      [|split; assumption].
    cbn [fst snd]. rewrite accumulate_length. split; [exact Hl|].
    intros j Hj.
    change 0 with (f0 (F := R)). rewrite nth_accumulate.
    destruct (Nat.ltb_spec j nq) as [_|]; [|lia].
    destruct (Nat.ltb_spec j (length (snd (acc st)))) as [_|]; [|lia].
    cbn [andb fadd fmul f0 real_arith]. rewrite Hsc. cbn [fst].
    rewrite (Hn j Hj). ring. }
  assert (Hrun : P (acc (run_loops NUM_PARS NUM_VALUES MAX_PD details values
                           0 pd_stop
                           (kernel_body model scattering nq cutoff)
                           (0, zero_result nq result)))).
  { unfold run_loops. apply pd_loops_invariant; [exact Hbody|].
    unfold initial_state, P. cbn [acc fst snd].
    split; [apply zero_result_length|]. intros j Hj.
    change 0 with (f0 (F := R)) at 1. rewrite nth_zero_result.
    destruct (Nat.ltb_spec j nq); [cbn [f0 real_arith]; ring|lia]. }
  unfold kernel. cbn [Z.eqb f0 real_arith]. destruct Hrun as [Hl Hn].
  rewrite nth_upd_other by lia. rewrite nth_upd_same by lia.
  now apply Hn.
Qed.

End WeightedAverage.

Lemma volume_proportional_intensity_witness :
  (nth 0 (kernel 1 3 1 e2_details (exact_values 1 2 1) 0 3 exact_model
            (fun _ lv => (5 * CALL_VOLUME exact_model lv, lv)) 1 0
            [7; 7]) 0
   = 5 * nth 1 (kernel 1 3 1 e2_details (exact_values 1 2 1) 0 3
                  exact_model
                  (fun _ lv => (5 * CALL_VOLUME exact_model lv, lv)) 1 0
                  [7; 7]) 0)%R.
Proof.
  apply (volume_proportional_intensity 1 3 1 e2_details
           (exact_values 1 2 1) exact_model
           (fun _ lv => (5 * CALL_VOLUME exact_model lv, lv)%R)
           (fun _ => 5%R) 1 0%R 3 [7; 7]%R 0).
  - reflexivity.
  - lia.
  - cbn [length]. lia.
Defined.

(** ** The effective scattering length density *)

Section EffectiveSld.
Local Open Scope R_scope.

(** In exact arithmetic only the part of the magnetisation that is
    perpendicular to q enters [mag_sld]: when the magnetisation
    [(values[M], values[M+1])] is a multiple of [(qx, qy)], the statement
    [SLD(M, sld)] for [axis = 0] stores the weight [xs] times the nuclear
    scattering length density [values[sld+2]], or zero for a spin-flip
    cross-section, whatever the polarisation factor [pk] is. *)
Theorem magnetisation_along_q_is_invisible (values : memory R)
    (qx qy xs pk t : R) (index : nat) (lv : block R)
    (M_offset sld_offset : Z) :
  values M_offset = t * qx -> values (M_offset + 1)%Z = t * qy ->
  sld_rewrite values qx qy xs pk index 0 lv (M_offset, sld_offset)
  = updZ lv sld_offset
      (xs * (if ((index =? 1) || (index =? 2))%nat then 0
             else values (sld_offset + 2)%Z)).
Proof.
  intros Hx Hy. unfold sld_rewrite, mag_sld.
  cbn [Nat.eqb fadd fsub fmul f0 real_arith]. rewrite Hx, Hy.
  f_equal. ring.
Qed.

End EffectiveSld.

Lemma magnetisation_along_q_is_invisible_witness :
  (sld_rewrite (pool [0; 0; 7; 6; 8; 0]) 3 4 (1 / 2) 9 0 0 [1; 1]
               (3%Z, 0%Z)
   = updZ [1; 1] 0 (1 / 2 * 7))%R.
Proof.
  apply (magnetisation_along_q_is_invisible (pool [0; 0; 7; 6; 8; 0]%R)
           3 4 (1 / 2) 9 2 0 [1; 1] 3 0)%R.
  - change (6 = 2 * 3)%R. lra.
  - change (8 = 2 * 4)%R. lra.
Defined.

(** ** The length of q in the unoriented kernels *)

Lemma shr_1_nonneg (mrs : shr_record) :
  0 <= shr_m mrs -> 0 <= shr_m (shr_1 mrs).
Proof.
  destruct mrs as [m r s]. cbn [shr_m].
  destruct m as [|[p|p|]|[p|p|]]; cbn [shr_1 shr_m]; lia.
Qed.

Lemma shr_fexp_nonneg (m e : Z) (l : location) :
  0 <= m -> 0 <= shr_m (fst (shr_fexp prec emax m e l)).
Proof.
  intros Hm. unfold shr_fexp, shr.
  destruct (fexp prec emax (Zdigits2 m + e) - e) as [|p|p];
    cbn [fst]; rewrite ?shr_record_of_loc_m; try assumption.
  rewrite iter_pos_nat.
  induction (Pos.to_nat p) as [|n IH]; cbn [Nat.iter nat_rect].
  - now rewrite shr_record_of_loc_m.
  - now apply shr_1_nonneg.
Qed.

Lemma binary_round_aux_nonneg (m e : Z) (l : location) :
  0 <= m -> nonneg_sf (binary_round_aux prec emax false m e l).
Proof.
  intros Hm. unfold binary_round_aux.
  pose proof (shr_fexp_nonneg m e l Hm) as H1.
  destruct (shr_fexp prec emax m e l) as [mrs' e']. cbn [fst] in H1.
  set (mr := round_nearest_even (shr_m mrs') (loc_of_shr_record mrs')).
  assert (Hr : 0 <= mr).
  { unfold mr. destruct mrs' as [m' [|] [|]];
      cbn [shr_m loc_of_shr_record round_nearest_even] in *; try lia.
    destruct (Z.even m'); lia. }
  pose proof (shr_fexp_nonneg mr e' loc_Exact Hr) as H2.
  destruct (shr_fexp prec emax mr e' loc_Exact) as [mrs'' e''].
  cbn [fst] in H2.
  destruct (shr_m mrs'') as [|p|p]; [exact I| |lia].
  destruct (e'' <=? emax - prec); exact I.
Qed.

Lemma SFmul_square_nonneg (x : spec_float) :
  x <> S754_nan -> nonneg_sf (SF64mul x x).
Proof.
  unfold SF64mul. destruct x as [s|s| |s m e]; cbn [SFmul]; try congruence;
    intros _; rewrite xorb_nilpotent; try exact I.
  now apply binary_round_aux_nonneg.
Qed.

Lemma SFadd_nonneg (x y : spec_float) :
  nonneg_sf x -> nonneg_sf y -> nonneg_sf (SF64add x y).
Proof.
  unfold SF64add.
  destruct x as [sx|[|]| |[|] mx ex]; cbn [nonneg_sf]; try tauto;
    destruct y as [sy|[|]| |[|] my ey]; cbn [nonneg_sf SFadd]; try tauto.
  - destruct sx, sy; tauto.
  - intros _ _. cbn [cond_Zopp Z.add binary_normalize].
    unfold binary_round.
    destruct (shl_align _ _ _) as [mz ez].
    now apply binary_round_aux_nonneg.
Qed.

Lemma SFsqrt_nonneg (x : spec_float) :
  nonneg_sf x -> nonneg_sf (SF64sqrt x).
Proof.
  unfold SF64sqrt.
  destruct x as [s|[|]| |[|] m e]; cbn [nonneg_sf SFsqrt]; try tauto.
  intros _. unfold SFsqrt_core_binary.
  match goal with
  | |- context [Z.sqrtrem ?a] =>
      assert (Ha : 0 <= a);
      [| pose proof (Z.sqrtrem_spec a Ha) as Hs;
         destruct (Z.sqrtrem a) as [q r] ]
  end.
  - destruct (e - 2 * _) as [|p|p]; try lia.
    apply Z.shiftl_nonneg. lia.
  - apply binary_round_aux_nonneg. lia.
Qed.

Lemma nonneg_leb (x : float) :
  nonneg_sf (Prim2SF x) ->
  PrimFloat.leb 0 x = true /\ PrimFloat.is_nan x = false.
Proof.
  intros Hx. split.
  - rewrite leb_spec. change (Prim2SF 0) with (S754_zero false).
    unfold SFleb.
    destruct (Prim2SF x) as [s|[|]| |[|] m e]; cbn in *; tauto.
  - apply not_true_is_false. rewrite is_nan_spec. intros E.
    now rewrite E in Hx.
Qed.

(** In binary64, the unoriented 2-D kernel reads [qx = q[2*q_index]] and
    [qy = q[2*q_index+1]] and calls the form factor with
    [sqrt(qx*qx+qy*qy)]; when neither is NaN this length is not NaN and
    not negative, overflow and underflow included. *)
Theorem unoriented_q_is_a_length (SINCOS : float -> float * float)
    (model : ModelKernel float) (details : ProblemDetails)
    (values q : memory float) (q_index : nat) (lv : block float) :
  let qx := q (2 * Z.of_nat q_index) in
  let qy := q (2 * Z.of_nat q_index + 1) in
  let qabs := PrimFloat.sqrt (qx * qx + qy * qy) in
  scattering_plain SINCOS model details values q D_IQ_A q_index lv
  = (CALL_IQ_A model qabs lv, lv)
  /\ (PrimFloat.is_nan qx = false -> PrimFloat.is_nan qy = false ->
      PrimFloat.leb 0 qabs = true /\ PrimFloat.is_nan qabs = false).
Proof.
  intros qx qy qabs. split; [reflexivity|]. intros Hx Hy.
  apply nonneg_leb. unfold qabs. rewrite sqrt_spec, add_spec, !mul_spec.
  apply SFsqrt_nonneg, SFadd_nonneg; apply SFmul_square_nonneg;
    rewrite <- is_nan_spec; congruence.
Qed.

(** ** Weights that are not positive *)

(** In binary64, under a cutoff that is not negative, a cube point whose
    cumulative weight is zero, negative or NaN contributes nothing: the
    body leaves the parameter block, [pd_norm] and [result] as they are
    (the note "weight==0 must always be excluded" of the source). *)
Theorem zero_weight_is_excluded (model : ModelKernel float)
    (scattering : nat -> block float -> float * block float) (nq : nat)
    (cutoff weight0 : float) (st : loop_state float (float * list float)) :
  PrimFloat.leb 0 cutoff = true ->
  PrimFloat.leb weight0 0 = true \/ PrimFloat.is_nan weight0 = true ->
  kernel_body model scattering nq cutoff weight0 st
  = (local_values st, acc st).
Proof.
  intros Hc Hw.
  assert (Hgt : fgtb weight0 cutoff = false).
  { unfold fgtb. cbn [fltb float_arith]. destruct Hw as [Hw|Hw].
    - rewrite leb_spec in Hc, Hw. rewrite ltb_spec.
      change (Prim2SF 0) with (S754_zero false) in Hc, Hw.
      unfold SFleb, SFltb in *.
      destruct (Prim2SF cutoff) as [sc|[|]| |[|] mc ec];
        cbn [SFcompare] in Hc; try discriminate Hc;
        destruct (Prim2SF weight0) as [sw|[|]| |[|] mw ew];
        cbn [SFcompare] in Hw |- *; try discriminate Hw; reflexivity.
    - now apply nan_ltb_r. }
  unfold kernel_body. rewrite Hgt.
  now destruct (is_invalid model (local_values st)).
Qed.

Lemma zero_weight_is_excluded_witness :
  kernel_body demo_model demo_scattering 2 0.125%float (-0)%float
    {| idx := [0; 0]; step := 0; local_values := [5; 7]%float;
       acc := (1, [2; 3; 4])%float |}
  = ([5; 7]%float, (1, [2; 3; 4])%float).
Proof.
  apply (zero_weight_is_excluded demo_model demo_scattering 2 0.125%float
           (-0)%float).
  - reflexivity.
  - left; reflexivity.
Defined.

Lemma unoriented_q_is_a_length_witness :
  PrimFloat.leb 0 (PrimFloat.sqrt (0x1p-600 * 0x1p-600 + 0x1p600 * 0x1p600))
  = true
  /\ PrimFloat.is_nan
       (PrimFloat.sqrt (0x1p-600 * 0x1p-600 + 0x1p600 * 0x1p600)) = false.
Proof.
  apply (proj2 (unoriented_q_is_a_length (fun _ => (0, 1)%float) demo_model
                  demo_details demo_values
                  (pool [0x1p-600; 0x1p600]%float) 0 [5; 7]%float));
    reflexivity.
Defined.

(** ** A slice that starts past the end of the cube *)

Section ShiftedSlice.
Context {F : Type} `{Arith F} {A : Type}.
Variable NUM_VALUES : Z.
Variable details : ProblemDetails.
Variable values : memory F.
Variable pd_stop : Z.
Variable N : Z.
Variable body : F -> loop_state F A -> block F * A.

(** The body does not read [step] (nor the loop indices). *)
Hypothesis Hbody : forall w st st',
  local_values st = local_values st' -> acc st = acc st' ->
  body w st = body w st'.

(** The same loop variables, but for [step], which is [N] further. *)
Local Abbreviation shifted st st' :=
  (idx st = idx st' /\ step st' = step st + N
   /\ local_values st = local_values st' /\ acc st = acc st').



End ShiftedSlice.



